(** * Dynasty Baseball Draft Tracker: the reconciliation logic of [script.js]

    A shallow embedding of the [DraftTracker] class: the player collection
    ([this.players], an array of plain JavaScript objects), the identifier
    validity test that the class writes out at four places, the bulk merge of
    a remote snapshot, the local mutations, the real-time handlers, the
    outbound conversions and the rankings reorder.

    JavaScript objects are finite maps from property names to primitive
    values; an array is a list; [this] is a record threaded through every
    method.  What the outside world supplies during a call (the clock, fresh
    random identifiers, the answers of the remote backend) is an explicit
    argument of the method. *)

From Stdlib Require Import ZArith NArith List Ascii String DecimalString.
From stdpp Require Import base decidable option list gmap strings fin_maps.

Open Scope N_scope.
Open Scope nat_scope.

(** ** JavaScript values *)

Module JS.

(** A JavaScript string is a sequence of UTF-16 code units; [length] counts
    code units. *)
Abbreviation jschar := N.
Abbreviation jsstring := (list N).

(** A literal, written in ASCII. *)
Definition js (s : string) : jsstring :=
  map N_of_ascii (list_ascii_of_string s).

(** The primitive values a player or a remote row holds.  Numbers are
    restricted to integers: the class never computes with a player field. *)
Inductive val :=
  | VUndefined
  | VNull
  | VBool (b : bool)
  | VNum (n : Z)
  | VStr (s : jsstring).

#[global] Instance val_eq_dec : EqDecision val.
Proof. solve_decision. Defined.

(** ToBoolean. *)
Definition truthy (v : val) : bool :=
  match v with
  | VUndefined | VNull => false
  | VBool b => b
  | VNum n => negb (n =? 0)%Z
  | VStr s => negb (bool_decide (s = []))
  end.

(** [a || b] on values. *)
Definition or_else (a b : val) : val := if truthy a then a else b.

(** [typeof v === 'string'] *)
Definition is_string (v : val) : bool :=
  match v with VStr _ => true | _ => false end.

(** [a === b] on primitives ([NaN] is not a value of the model). *)
Definition strict_eq (a b : val) : bool := bool_decide (a = b).

(** *** Numbers as strings

    [VNum n] is the Number whose value is the integer [n].  A Number
    prints with the fewest digits that read back as the same Number, and in
    exponent form from 1e21 on.  Every integer up to 2^53 is a Number; of
    the larger ones only those that fit 53 significant bits are, and
    printing rounds to the nearest of them first, as reading the digits of
    the integer does. *)

Section Numbers.
Local Open Scope Z_scope.

(** The decimal digits of a natural number. *)
Definition decimal (x : Z) : jsstring :=
  js (NilZero.string_of_uint (N.to_uint (Z.to_N x))).

(** The Number value for a positive integer: the nearest number with a
    significand of 53 bits, ties to the even one. *)
Definition to_double (x : Z) : Z :=
  let q := Z.log2 x - 52 in
  if q <=? 0 then x
  else
    let m := x / 2 ^ q in
    let r := x mod 2 ^ q in
    let half := 2 ^ (q - 1) in
    let m' := if r <? half then m
              else if half <? r then m + 1
              else if Z.even m then m else m + 1 in
    m' * 2 ^ q.

(** [c] reads back as the Number [d]: it lies within half a step of [d],
    the ends included when the significand of [d] is even. *)
Definition reads_as (d c : Z) : bool :=
  let q := Z.log2 d - 52 in
  let m := d / 2 ^ q in
  let up := 2 ^ (q + 1) in
  let down := if m =? 2 ^ 52 then 2 ^ q else 2 ^ (q + 1) in
  if Z.even m
  then (4 * d - down <=? 4 * c) && (4 * c <=? 4 * d + up)
  else (4 * d - down <? 4 * c) && (4 * c <? 4 * d + up).

(** The integer with [k] significant digits that reads back as [d], the
    nearer one when there are two. *)
Definition with_digits (d : Z) (digits k : nat) : option Z :=
  let p := 10 ^ Z.of_nat (digits - k) in
  let lo := d / p * p in
  let hi := lo + p in
  match reads_as d lo, reads_as d hi with
  | true, true =>
      if d - lo <? hi - d then Some lo
      else if hi - d <? d - lo then Some hi
      else if Z.even (lo / p) then Some lo else Some hi
  | true, false => Some lo
  | false, true => Some hi
  | false, false => None
  end.

(** The integer with the fewest significant digits that reads back as
    [d]. *)
Definition shortest (d : Z) : Z :=
  if Z.log2 d <? 53 then d
  else
    let digits := length (decimal d) in
    default d (list_find is_Some (with_digits d digits <$> seq 1 17) ≫= snd).

(** [s] without the zeros at its end. *)
Fixpoint drop_zeros (s : jsstring) : jsstring :=
  match s with
  | 48%N :: s' => drop_zeros s'
  | _ => s
  end.

Definition strip_zeros (s : jsstring) : jsstring := rev (drop_zeros (rev s)).

(** Number::toString for a positive integer: the digits as they are up to
    21 of them, the exponent form beyond. *)
Definition positive_toString (x : Z) : jsstring :=
  let d := to_double x in
  if 2 ^ 1024 <=? d then js "Infinity"
  else
    let all := decimal (shortest d) in
    let n := length all in
    if (n <=? 21)%nat then all
    else
      match strip_zeros all with
      | [] => all
      | [c] => c :: js "e+" ++ decimal (Z.of_nat (n - 1))
      | c :: cs => c :: js "." ++ cs ++ js "e+" ++ decimal (Z.of_nat (n - 1))
      end.

(** Number::toString, on the integers. *)
Definition Number_toString (x : Z) : jsstring :=
  if x =? 0 then js "0"
  else if x <? 0 then js "-" ++ positive_toString (- x)
  else positive_toString x.

End Numbers.

Arguments Number_toString : simpl never.

(** ToString, as in ['' + v]. *)
Definition ToString (v : val) : jsstring :=
  match v with
  | VUndefined => js "undefined"
  | VNull => js "null"
  | VBool true => js "true"
  | VBool false => js "false"
  | VNum n => Number_toString n
  | VStr s => s
  end.

(** [v.toString()]: a TypeError ([None]) on [undefined] and [null]. *)
Definition toString (v : val) : option jsstring :=
  match v with
  | VUndefined | VNull => None
  | VBool true => Some (js "true")
  | VBool false => Some (js "false")
  | VNum n => Some (Number_toString n)
  | VStr s => Some s
  end.

(** *** Characters *)

Definition hyphen : jschar := 45%N.

(** [[a-zA-Z]] *)
Definition is_letter (c : jschar) : bool :=
  ((65 <=? c)%N && (c <=? 90)%N) || ((97 <=? c)%N && (c <=? 122)%N).

(** [[0-9]] *)
Definition is_digit (c : jschar) : bool := (48 <=? c)%N && (c <=? 57)%N.

(** [[0-9a-f]] *)
Definition is_hex (c : jschar) : bool :=
  is_digit c || ((97 <=? c)%N && (c <=? 102)%N).

(** WhiteSpace and LineTerminator code units, the ones [trim] removes. *)
Definition is_space (c : jschar) : bool :=
  ((9 <=? c)%N && (c <=? 13)%N) || (c =? 32)%N || (c =? 160)%N
  || (c =? 5760)%N || ((8192 <=? c)%N && (c <=? 8202)%N)
  || (c =? 8232)%N || (c =? 8233)%N || (c =? 8239)%N || (c =? 8287)%N
  || (c =? 12288)%N || (c =? 65279)%N.

(** [s.includes('-')] *)
Definition includes_hyphen (s : jsstring) : bool :=
  existsb (N.eqb hyphen) s.

(** [s.match(/^[a-zA-Z]+$/)] is not null: one letter or more, nothing else. *)
Definition only_letters (s : jsstring) : bool :=
  negb (bool_decide (s = [])) && forallb is_letter s.

(** [/^\d+$/.test(s)] *)
Definition only_digits (s : jsstring) : bool :=
  negb (bool_decide (s = [])) && forallb is_digit s.

Fixpoint trimStart (s : jsstring) : jsstring :=
  match s with
  | c :: s' => if is_space c then trimStart s' else s
  | [] => []
  end.

(** [s.trim()] *)
Definition trim (s : jsstring) : jsstring :=
  rev (trimStart (rev (trimStart s))).

End JS.
Export JS.

(** ** The identifier validity test

    [loadFromSupabase], [mergeSupabaseData], [backupToSupabase] and
    [ensureAllPlayersHaveUUIDs] each spell out the same disjunction
    [isInvalidId]; [backupToSupabase] also has its negation for owner
    references, [isValidOwnerId]. *)

Definition isInvalidId (id : val) : bool :=
  negb (truthy id)
  || negb (is_string id)
  || match id with
     | VStr s =>
         (length s <? 20)
         || negb (includes_hyphen s)
         || only_letters s
     | _ => true
     end.

Definition isValidOwnerId (owner : val) : bool :=
  match owner with
  | VStr s =>
      (20 <=? length s) && includes_hyphen s && negb (only_letters s)
  | _ => false
  end.

(** The classifier of the specification, on a candidate string. *)
Definition classify_valid (s : jsstring) : bool := negb (isInvalidId (VStr s)).

(** The canonical form [crypto.randomUUID] produces: 36 code units, hyphens
    at offsets 8, 13, 18 and 23, lower-case hexadecimal digits elsewhere. *)
Definition canonical_at (i : nat) (c : jschar) : bool :=
  if bool_decide (i = 8 ∨ i = 13 ∨ i = 18 ∨ i = 23)
  then (c =? hyphen)%N else is_hex c.

Definition is_canonical (s : jsstring) : bool :=
  (length s =? 36) && forallb (λ ic, canonical_at ic.1 ic.2) (imap pair s).

(** ** Objects, arrays and the tracker's state *)

(** A plain object: property name to value.  Reading a missing property
    gives [undefined]; [o.k = v] is [<[k:=v]> o]; [delete o.k] is
    [delete k o]. *)
Abbreviation obj := (gmap string val).

Definition get (o : obj) (k : string) : val := default VUndefined (o !! k).

(** [Object.assign(target, source)], also the spread
    [{ ...target, ...source }]: every own property of [source] is written
    over [target]. *)
Definition assign (target source : obj) : obj := source ∪ target.

(** [JSON.stringify] of an object leaves out the properties whose value is
    [undefined]. *)
Definition json (o : obj) : obj := filter (λ kv, kv.2 ≠ VUndefined) o.

(** [ps.findIndex(p => p.id === id)]; [ps.find] is the element there. *)
Definition findIndex (id : val) (ps : list obj) : option nat :=
  fst <$> list_find (λ p, get p "id" = id) ps.

(** A row of the remote [player_rankings] table as [loadRankings] stores
    it. *)
Record ranking := Ranking {
  rk_id : val;
  rk_player_id : val;
  rk_list_type : val;
  rk_rank_index : Z
}.

#[global] Instance ranking_eq_dec : EqDecision ranking.
Proof. solve_decision. Defined.

(** A row of [newRankingData] / [rankingData]. *)
Record new_ranking := NewRanking {
  nr_player_id : val;
  nr_list_type : val;
  nr_rank_index : Z;
  nr_updated_at : option jsstring
}.

(** What the tracker sends to the remote backend. *)
Inductive request :=
  | SelectPlayers
  | UpsertPlayer (row : obj)
  | DeletePlayer (id : val)
  | SelectRankings (listType : val)
  | InsertRankings (rows : list new_ranking)
  | DeleteRankings (listType : val).

(** How an awaited remote call ends: the promise resolves to
    [{ data, error: null }], resolves to [{ error }], or rejects. *)
Inductive outcome (A : Type) :=
  | Resolved (data : A)
  | ResolvedError
  | Rejected.
Arguments Resolved {A} data.
Arguments ResolvedError {A}.
Arguments Rejected {A}.

Inductive status_type := StNone | StLoading | StSuccess | StError.

(** How a method ends. *)
Inductive completion := Normal | TypeError.

(** [this], with the two stores the class writes to: the item
    ["baseballDraftTracker"] of local storage ([{ players, lastUpdated }])
    and the status element; [sent] lists the requests made so far, oldest
    first, [renders] counts the calls of [render], [alerts] the dialogs
    shown. *)
Record State := mkState {
  players : list obj;
  rankings : list ranking;
  rankingsView : val;
  currentFilteredRankings : option (list ranking);
  rankingsSearchTerm : jsstring;
  hideDraftedInRankings : bool;
  supabase : bool;
  localStorage : option (list obj * jsstring);
  statusLog : list (jsstring * status_type);
  sent : list request;
  renders : nat;
  alerts : list jsstring
}.

Definition set_players (ps : list obj) (st : State) : State :=
  mkState ps (rankings st) (rankingsView st) (currentFilteredRankings st)
    (rankingsSearchTerm st) (hideDraftedInRankings st) (supabase st)
    (localStorage st) (statusLog st) (sent st) (renders st) (alerts st).

Definition set_rankings (rs : list ranking) (st : State) : State :=
  mkState (players st) rs (rankingsView st) (currentFilteredRankings st)
    (rankingsSearchTerm st) (hideDraftedInRankings st) (supabase st)
    (localStorage st) (statusLog st) (sent st) (renders st) (alerts st).

Definition send (rq : request) (st : State) : State :=
  mkState (players st) (rankings st) (rankingsView st)
    (currentFilteredRankings st) (rankingsSearchTerm st)
    (hideDraftedInRankings st) (supabase st) (localStorage st)
    (statusLog st) (sent st ++ [rq]) (renders st) (alerts st).

Definition alert (msg : jsstring) (st : State) : State :=
  mkState (players st) (rankings st) (rankingsView st)
    (currentFilteredRankings st) (rankingsSearchTerm st)
    (hideDraftedInRankings st) (supabase st) (localStorage st)
    (statusLog st) (sent st) (renders st) (alerts st ++ [msg]).

(** [setSyncStatus(message, type)]; the timer that clears the element three
    seconds later is outside the model. *)
Definition setSyncStatus (message : jsstring) (type : status_type)
    (st : State) : State :=
  mkState (players st) (rankings st) (rankingsView st)
    (currentFilteredRankings st) (rankingsSearchTerm st)
    (hideDraftedInRankings st) (supabase st) (localStorage st)
    (statusLog st ++ [(message, type)]) (sent st) (renders st) (alerts st).

(** [saveToStorage()]: [now] is [new Date().toISOString()]. *)
Definition saveToStorage (now : jsstring) (st : State) : State :=
  mkState (players st) (rankings st) (rankingsView st)
    (currentFilteredRankings st) (rankingsSearchTerm st)
    (hideDraftedInRankings st) (supabase st)
    (Some (json <$> players st, now))
    (statusLog st) (sent st) (renders st) (alerts st).

(** [render()] reads the collection and writes the page. *)
Definition render (st : State) : State :=
  mkState (players st) (rankings st) (rankingsView st)
    (currentFilteredRankings st) (rankingsSearchTerm st)
    (hideDraftedInRankings st) (supabase st) (localStorage st)
    (statusLog st) (sent st) (S (renders st)) (alerts st).

(** The tracker as the constructor leaves it, before [init]. *)
Definition initial (configured : bool) : State :=
  mkState [] [] (VStr (js "overall")) None [] false configured None [] [] 0 [].

(** ** Bulk remote merge *)

(** The conversion of a remote row in [loadFromSupabase]; [now] is the
    clock reading used when the row has no [created_at]. *)
Definition convertRow (now : jsstring) (row : obj) : option obj :=
  id ← toString (get row "id");
  Some (<["id" := VStr id]>
       (<["name" := or_else (get row "name") (VStr [])]>
       (<["position" := or_else (get row "position") (VStr [])]>
       (<["mlbTeam" := or_else (get row "team") (VStr [])]>
       (<["notes" := or_else (get row "notes") (VStr [])]>
       (<["fantasyOwner" := or_else (get row "owner_id") (VStr [])]>
       (<["drafted" := or_else (get row "drafted") (VBool false)]>
       (<["draftNotes" := or_else (get row "draft_notes") (VStr [])]>
       (<["addedDate" := or_else (get row "created_at") (VStr now)]>
        (∅ : obj)))))))))).

(** A [Map] from identifiers to the players of the collection.  No two
    elements of [this.players] are the same object (each comes from
    [JSON.parse], an object literal or a spread), so the reference the [Map]
    holds is the element's index; keys are compared structurally, which is
    SameValueZero on the values of the model. *)
Definition Map_set (m : val → option nat) (k : val) (v : nat) : val → option nat :=
  λ k', if decide (k' = k) then Some v else m k'.

(** [existingPlayerMap]: filled by [set(player.id, player)] over the
    collection in order, so that a later player replaces an earlier one
    stored under the same key. *)
Definition existingPlayerMap (ps : list obj) : val → option nat :=
  foldl (λ m ip, Map_set m (get ip.2 "id") ip.1) (λ _, None) (imap pair ps).

(** [!supabasePlayer.drafted || supabasePlayer.drafted === false] *)
Definition reportsNotDrafted (r : obj) : bool :=
  negb (truthy (get r "drafted")) || strict_eq (get r "drafted") (VBool false).

(** The branch [if (existingPlayer)] of the merge loop: the local record
    after it. *)
Definition mergeExisting (existingPlayer supabasePlayer : obj) : obj :=
  let wasDraftedLocally := get existingPlayer "drafted" in
  let localOwner := get existingPlayer "fantasyOwner" in
  let localNotes := get existingPlayer "draftNotes" in
  let localDraftDate := get existingPlayer "draftedDate" in
  let copied := assign existingPlayer supabasePlayer in
  if truthy wasDraftedLocally && reportsNotDrafted supabasePlayer
  then <["draftedDate" := localDraftDate]>
       (<["draftNotes" := localNotes]>
       (<["fantasyOwner" := localOwner]>
       (<["drafted" := VBool true]> copied)))
  else copied.

(** One turn of [supabasePlayers.forEach]. *)
Definition mergeOne (existing : val → option nat) (ps : list obj)
    (supabasePlayer : obj) : list obj :=
  if isInvalidId (get supabasePlayer "id") then ps
  else
    match existing (get supabasePlayer "id") with
    | Some i =>
        match ps !! i with
        | Some existingPlayer =>
            <[i := mergeExisting existingPlayer supabasePlayer]> ps
        | None => ps
        end
    | None => ps ++ [supabasePlayer]
    end.

Definition mergeLoop (ps : list obj) (supabasePlayers : list obj) : list obj :=
  foldl (mergeOne (existingPlayerMap ps)) ps supabasePlayers.

Definition mergeSupabaseData (now : jsstring) (supabasePlayers : list obj)
    (st : State) : State :=
  render (saveToStorage now (set_players (mergeLoop (players st) supabasePlayers) st)).

(** [loadFromSupabase()]: [resp] is the answer to the select ([data] may be
    [null]); [clock i] is the clock while row [i] is converted and
    [clock (length data)] the one [saveToStorage] reads. *)
Definition nat_to_js (n : nat) : jsstring :=
  js (NilZero.string_of_uint (Nat.to_uint n)).

Definition loadFromSupabase (clock : nat → jsstring)
    (resp : outcome (option (list obj))) (st : State) : State :=
  if negb (supabase st)
  then setSyncStatus (js "Supabase not configured") StError st
  else
    let st1 := send SelectPlayers (setSyncStatus (js "Loading...") StLoading st) in
    match resp with
    | Resolved (Some data) =>
        if 0 <? length data
        then
          match mapM (λ ir, convertRow (clock ir.1) ir.2) (imap pair data) with
          | Some supabasePlayers =>
              setSyncStatus
                (js "Loaded " ++ nat_to_js (length data) ++ js " players from Supabase")
                StSuccess
                (mergeSupabaseData (clock (length data)) supabasePlayers st1)
          | None => setSyncStatus (js "Error loading from Supabase") StError st1
          end
        else setSyncStatus (js "No players found in Supabase") StError st1
    | Resolved None =>
        setSyncStatus (js "No players found in Supabase") StError st1
    | ResolvedError | Rejected =>
        setSyncStatus (js "Error loading from Supabase") StError st1
    end.

(** ** Local mutations *)

(** The payload of [addPlayer]: the form gives a string or nothing for each
    field, and [handleAddPlayer] has checked the name. *)
Record PlayerData := mkPlayerData {
  pd_name : jsstring;
  pd_position : option jsstring;
  pd_mlbTeam : option jsstring;
  pd_notes : option jsstring;
  pd_headshotUrl : option jsstring
}.

(** [x?.trim() || ''] *)
Definition trim_or_empty (x : option jsstring) : val :=
  VStr (from_option trim [] x).

(** [addPlayer(playerData)]: [uuid] is [crypto.randomUUID()], [clock 0] the
    reading for [addedDate], [clock 1] the one of [saveToStorage]. *)
Definition newPlayer (uuid addedDate : jsstring) (playerData : PlayerData) : obj :=
  <["id" := VStr uuid]>
  (<["name" := VStr (trim (pd_name playerData))]>
  (<["position" := trim_or_empty (pd_position playerData)]>
  (<["mlbTeam" := trim_or_empty (pd_mlbTeam playerData)]>
  (<["notes" := trim_or_empty (pd_notes playerData)]>
  (<["headshotUrl" := trim_or_empty (pd_headshotUrl playerData)]>
  (<["fantasyOwner" := VStr []]>
  (<["drafted" := VBool false]>
  (<["draftNotes" := VStr []]>
  (<["starred" := VBool false]>
  (<["addedDate" := VStr addedDate]> (∅ : obj))))))))))).

Definition addPlayer (uuid : jsstring) (clock : nat → jsstring)
    (playerData : PlayerData) (st : State) : State :=
  let player := newPlayer uuid (clock 0) playerData in
  render (saveToStorage (clock 1) (set_players (players st ++ [player]) st)).

(** [updatePlayer(playerId, updates)] *)
Definition updatePlayer (clock : nat → jsstring) (playerId : val) (updates : obj)
    (st : State) : State :=
  match findIndex playerId (players st) with
  | Some playerIndex =>
      match players st !! playerIndex with
      | Some player =>
          render (saveToStorage (clock 0)
            (set_players (<[playerIndex := assign player updates]> (players st)) st))
      | None => st
      end
  | None => st
  end.

(** [toggleStar(playerId)] *)
Definition toggleStar (clock : nat → jsstring) (playerId : val) (st : State) : State :=
  match findIndex playerId (players st) with
  | Some playerIndex =>
      match players st !! playerIndex with
      | Some player =>
          let player' := <["starred" := VBool (negb (truthy (get player "starred")))]> player in
          render (saveToStorage (clock 0)
            (set_players (<[playerIndex := player']> (players st)) st))
      | None => st
      end
  | None => st
  end.

(** The payload of [draftPlayer]: both fields are the value of a form
    control, a string, or missing. *)
Record OwnerData := mkOwnerData {
  od_owner : option jsstring;
  od_notes : option jsstring
}.

(** [draftPlayer(playerId, ownerData)]: the player is written to in place,
    one property at a time, so [ownerData.owner.trim()] on a missing owner
    throws after [drafted] has been set.  [clock 0] is the reading for
    [draftedDate], [clock 1] the one of [saveToStorage]. *)
Definition draftPlayer (clock : nat → jsstring) (playerId : val)
    (ownerData : OwnerData) (st : State) : completion * State :=
  match findIndex playerId (players st) with
  | Some i =>
      match players st !! i with
      | Some player =>
          let p1 := <["drafted" := VBool true]> player in
          match od_owner ownerData with
          | None => (TypeError, set_players (<[i := p1]> (players st)) st)
          | Some owner =>
              let p2 := <["fantasyOwner" := VStr (trim owner)]> p1 in
              let p3 := <["draftNotes" := trim_or_empty (od_notes ownerData)]> p2 in
              let p4 := <["draftedDate" := VStr (clock 0)]> p3 in
              (Normal,
               render (saveToStorage (clock 1)
                 (set_players (<[i := p4]> (players st)) st)))
          end
      | None => (Normal, st)
      end
  | None => (Normal, st)
  end.

(** [!ownerData.owner || !ownerData.owner.trim()] *)
Definition ownerMissing (ownerData : OwnerData) : bool :=
  match od_owner ownerData with
  | None => true
  | Some owner => bool_decide (owner = []) || bool_decide (trim owner = [])
  end.

(** [handleDraftPlayer(e)]: [playerId] is [form.dataset.playerId] and
    [ownerData] the two controls of the form. *)
Definition handleDraftPlayer (clock : nat → jsstring) (playerId : val)
    (ownerData : OwnerData) (st : State) : completion * State :=
  if ownerMissing ownerData
  then (Normal, alert (js "Please enter a fantasy owner/team name") st)
  else draftPlayer clock playerId ownerData st.

(** [undraftPlayer(playerId)] *)
Definition undraftPlayer (clock : nat → jsstring) (playerId : val) (st : State) : State :=
  match findIndex playerId (players st) with
  | Some i =>
      match players st !! i with
      | Some player =>
          let player' :=
            delete "draftedDate"
              (<["draftNotes" := VStr []]>
              (<["fantasyOwner" := VStr []]>
              (<["drafted" := VBool false]> player))) in
          render (saveToStorage (clock 0)
            (set_players (<[i := player']> (players st)) st))
      | None => st
      end
  | None => st
  end.

(** [deletePlayer(playerId)]: the local removal comes first; the remote
    delete is awaited inside a [try] whose [catch] only logs, and the
    resolved value is not looked at, so [resp] changes nothing. *)
Definition deletePlayer (clock : nat → jsstring) (playerId : val)
    (resp : outcome unit) (st : State) : State :=
  match findIndex playerId (players st) with
  | None => st
  | Some _ =>
      let st1 :=
        render (saveToStorage (clock 0)
          (set_players (filter (λ p, get p "id" ≠ playerId) (players st)) st)) in
      if supabase st then send (DeletePlayer playerId) st1 else st1
  end.

(** [clearAllData()] *)
Definition clearAllData (clock : nat → jsstring) (st : State) : State :=
  render (saveToStorage (clock 0) (set_players [] st)).

(** ** Real-time handlers *)

(** [handleRealtimeInsert(newPlayer)]: the row is converted as in
    [loadFromSupabase]; [clock 0] is the clock during the conversion,
    [clock 1] the one of [saveToStorage]. *)
Definition handleRealtimeInsert (clock : nat → jsstring) (newPlayer : obj)
    (st : State) : completion * State :=
  match convertRow (clock 0) newPlayer with
  | None => (TypeError, st)
  | Some player =>
      match findIndex (get player "id") (players st) with
      | None =>
          (Normal,
           render (saveToStorage (clock 1)
             (set_players (players st ++ [player]) st)))
      | Some _ => (Normal, st)
      end
  end.

(** [Object.keys(playerUpdate).forEach(key => ...)]: some key of the update
    reads differently on the current player. *)
Definition hasChanges (currentPlayer playerUpdate : obj) : bool :=
  existsb (λ kv, negb (strict_eq (get currentPlayer kv.1) kv.2))
    (map_to_list playerUpdate).

(** [handleRealtimeUpdate(updatedPlayer)], the declaration at the end of
    the handlers.  The class body declares this name twice, first for the
    dispatcher on [payload.eventType], then for this handler of one row; the
    later declaration is the method. *)
Definition handleRealtimeUpdate (clock : nat → jsstring) (updatedPlayer : obj)
    (st : State) : completion * State :=
  match convertRow (clock 0) updatedPlayer with
  | None => (TypeError, st)
  | Some playerUpdate =>
      match findIndex (get playerUpdate "id") (players st) with
      | Some existingIndex =>
          match players st !! existingIndex with
          | Some currentPlayer =>
              if hasChanges currentPlayer playerUpdate
              then (Normal,
                    render (saveToStorage (clock 1)
                      (set_players
                         (<[existingIndex := assign currentPlayer playerUpdate]>
                            (players st)) st)))
              else (Normal, st)
          | None => (Normal, st)
          end
      | None => (Normal, st)
      end
  end.

(** [handleRealtimeDelete(deletedPlayer)]: [splice(existingIndex, 1)]. *)
Definition handleRealtimeDelete (clock : nat → jsstring) (deletedPlayer : obj)
    (st : State) : completion * State :=
  match toString (get deletedPlayer "id") with
  | None => (TypeError, st)
  | Some playerId =>
      match findIndex (VStr playerId) (players st) with
      | Some existingIndex =>
          (Normal,
           render (saveToStorage (clock 0)
             (set_players (delete existingIndex (players st)) st)))
      | None => (Normal, st)
      end
  end.

(** The callback of the subscription, [this.handleRealtimeUpdate(payload)]:
    the payload (with [eventType], [new], [old] and no [id]) reaches the
    handler of one row. *)
Definition onPostgresChanges (clock : nat → jsstring) (payload : obj)
    (st : State) : completion * State :=
  handleRealtimeUpdate clock payload st.

(** ** Outbound conversions *)

(** [ensureAllPlayersHaveUUIDs()]: [randomUUID i] is the identifier drawn
    for the player at index [i], if one is drawn there. *)
Definition ensureAllPlayersHaveUUIDs (randomUUID : nat → jsstring)
    (clock : nat → jsstring) (st : State) : State :=
  let ps := imap (λ i player,
              if isInvalidId (get player "id")
              then <["id" := VStr (randomUUID i)]> player
              else player) (players st) in
  let updated := existsb (λ player, isInvalidId (get player "id")) (players st) in
  if updated then saveToStorage (clock 0) (set_players ps st)
  else set_players ps st.

(** The owner reference [backupToSupabase] sends. *)
Definition backupOwnerId (player : obj) : val :=
  if truthy (get player "fantasyOwner")
  then if isValidOwnerId (get player "fantasyOwner")
       then get player "fantasyOwner" else VNull
  else VNull.

(** [dataToSend], for a player whose identifier has been looked at. *)
Definition dataToSend (now : jsstring) (playerId ownerId : val) (player : obj) : obj :=
  <["id" := playerId]>
  (<["name" := get player "name"]>
  (<["position" := or_else (get player "position") VNull]>
  (<["team" := or_else (get player "mlbTeam") VNull]>
  (<["notes" := or_else (get player "notes") VNull]>
  (<["owner_id" := ownerId]>
  (<["drafted" := or_else (get player "drafted") (VBool false)]>
  (<["draft_notes" := or_else (get player "draftNotes") VNull]>
  (<["updated_at" := VStr now]> (∅ : obj))))))))).

(** The identifier repair inside [this.players.map] of [backupToSupabase]:
    the local player, written to in place. *)
Definition backupFixId (randomUUID : nat → jsstring) (i : nat) (player : obj) : obj :=
  if isInvalidId (get player "id")
  then <["id" := VStr (randomUUID i)]> player
  else player.

Definition backupRow (randomUUID clock : nat → jsstring) (i : nat) (player : obj) : obj :=
  let player' := backupFixId randomUUID i player in
  dataToSend (clock i) (get player' "id") (backupOwnerId player) player.

(** The diagnostic [console.log] of the map callback evaluates
    [!playerId?.includes('-')] and [playerId?.match(...)]: the optional
    chain stops on [undefined] and [null] only, so an identifier that is a
    number or a boolean, which has neither method, throws a TypeError
    there, before the identifier is looked at any further. *)
Definition backupLogThrows (playerId : val) : bool :=
  match playerId with
  | VBool _ | VNum _ => true
  | VUndefined | VNull | VStr _ => false
  end.

(** [this.players.map(player => ...)] from index [i] on: the players as the
    callback leaves them, each written to in place when its turn comes, and
    the rows, or [None] when the callback throws; the players from the
    throwing one on have not been touched then. *)
Fixpoint backupMap (randomUUID clock : nat → jsstring) (i : nat) (ps : list obj)
    : list obj * option (list obj) :=
  match ps with
  | [] => ([], Some [])
  | player :: rest =>
      if backupLogThrows (get player "id") then (ps, None)
      else
        let mapped := backupMap randomUUID clock (S i) rest in
        (backupFixId randomUUID i player :: mapped.1,
         cons (backupRow randomUUID clock i player) <$> mapped.2)
  end.

(** [backupToSupabase()]: [resp i] is the answer to the upsert of row [i].
    A throw of the map callback is caught by the [try] around the method
    body, before any upsert.  Nothing in the method calls
    [saveToStorage]. *)
Definition backupToSupabase (randomUUID clock : nat → jsstring)
    (resp : nat → outcome unit) (st : State) : State :=
  if negb (supabase st)
  then setSyncStatus (js "Supabase not configured") StError st
  else
    let st1 := setSyncStatus (js "Backing up...") StLoading st in
    let mapped := backupMap randomUUID clock 0 (players st) in
    let st2 := set_players mapped.1 st1 in
    match mapped.2 with
    | None => setSyncStatus (js "Error backing up to Supabase") StError st2
    | Some supabaseData =>
        let st3 := foldl (λ s row, send (UpsertPlayer row) s) st2 supabaseData in
        let ok i := match resp i with Resolved _ => true | _ => false end in
        let successCount :=
          length (filter (λ i, ok i = true) (seq 0 (length supabaseData))) in
        let errorCount :=
          length (filter (λ i, ok i = false) (seq 0 (length supabaseData))) in
        if errorCount =? 0
        then setSyncStatus
               (js "Backed up " ++ nat_to_js successCount ++ js " players to Supabase")
               StSuccess st3
        else setSyncStatus
               (js "Backed up " ++ nat_to_js successCount ++ js " players, "
                  ++ nat_to_js errorCount ++ js " failed")
               StError st3
    end.

(** [!playerId || typeof playerId === 'string' && /^\d+$/.test(playerId)] *)
Definition autoSyncNeedsId (playerId : val) : bool :=
  negb (truthy playerId)
  || (is_string playerId
      && match playerId with VStr s => only_digits s | _ => false end).

Definition autoSyncFixId (randomUUID : nat → jsstring) (i : nat) (player : obj) : obj :=
  if autoSyncNeedsId (get player "id")
  then <["id" := VStr (randomUUID i)]> player
  else player.

Definition autoSyncRow (randomUUID clock : nat → jsstring) (i : nat) (player : obj) : obj :=
  let player' := autoSyncFixId randomUUID i player in
  dataToSend (clock i) (get player' "id")
    (or_else (get player "fantasyOwner") VNull) player.

(** [autoSyncToSupabase()]: every upsert is issued; a rejection is logged
    and nothing else. *)
Definition autoSyncToSupabase (randomUUID clock : nat → jsstring)
    (resp : nat → outcome unit) (st : State) : State :=
  if negb (supabase st) then st
  else
    let supabaseData := imap (autoSyncRow randomUUID clock) (players st) in
    let st1 := set_players (imap (autoSyncFixId randomUUID) (players st)) st in
    foldl (λ s row, send (UpsertPlayer row) s) st1 supabaseData.

(** The rows a state has sent to the [players] table. *)
Definition upserted (st : State) : list obj :=
  omap (λ rq, match rq with UpsertPlayer row => Some row | _ => None end) (sent st).

(** ** Rankings *)

(** [haystack.includes(needle)] on strings. *)
Fixpoint startsWith (needle haystack : jsstring) : bool :=
  match needle, haystack with
  | [], _ => true
  | c :: needle', d :: haystack' => (c =? d)%N && startsWith needle' haystack'
  | _ :: _, [] => false
  end.

Fixpoint includes (needle haystack : jsstring) : bool :=
  startsWith needle haystack
  || match haystack with
     | [] => false
     | _ :: haystack' => includes needle haystack'
     end.

(** [a || b] where evaluating either side may throw ([None]). *)
Definition or_throw (a b : option bool) : option bool :=
  match a with
  | Some true => Some true
  | Some false => b
  | None => None
  end.

(** [xs.filter(f)] where [f] may throw. *)
Fixpoint filter_throw {A} (f : A → option bool) (xs : list A) : option (list A) :=
  match xs with
  | [] => Some []
  | x :: xs' =>
      b ← f x;
      rest ← filter_throw f xs';
      Some (if b : bool then x :: rest else rest)
  end.

(** [this.rankings.sort((a, b) => a.rank_index - b.rank_index)]: the sort
    of an array is stable. *)
Fixpoint insert_by_rank (r : ranking) (rs : list ranking) : list ranking :=
  match rs with
  | [] => [r]
  | r' :: rs' =>
      if (rk_rank_index r' <? rk_rank_index r)%Z
      then r' :: insert_by_rank r rs'
      else r :: rs
  end.

Definition sort_by_rank (rs : list ranking) : list ranking :=
  foldr insert_by_rank [] rs.

Section Rankings.

(** [String.prototype.toLowerCase], which follows the Unicode tables, and
    the order [a.name.localeCompare(b.name)] sorts the players into (it
    throws when a name is not a string). *)
Variable toLowerCase : jsstring → jsstring.
Variable sortByName : list obj → option (list obj).

(** [player.k.toLowerCase().includes(term)]: a TypeError when the property
    is not a string. *)
Definition fieldIncludes (player : obj) (k : string) (term : jsstring) : option bool :=
  match get player k with
  | VStr s => Some (includes term (toLowerCase s))
  | _ => None
  end.

(** [this.players.find(p => p.id === id)] *)
Definition findPlayer (id : val) (ps : list obj) : option obj :=
  snd <$> list_find (λ p, get p "id" = id) ps.

(** [getFilteredRankings()] *)
Definition getFilteredRankings (st : State) : option (list ranking) :=
  searched ←
    (if bool_decide (rankingsSearchTerm st = []) then Some (rankings st)
     else
       let term := toLowerCase (rankingsSearchTerm st) in
       filter_throw (λ ranking,
         match findPlayer (rk_player_id ranking) (players st) with
         | None => Some false
         | Some player =>
             or_throw (fieldIncludes player "name" term)
               (or_throw (fieldIncludes player "position" term)
                  (or_throw (fieldIncludes player "mlbTeam" term)
                     (fieldIncludes player "notes" term)))
         end) (rankings st));
  if hideDraftedInRankings st
  then Some (filter (λ ranking,
               match findPlayer (rk_player_id ranking) (players st) with
               | None => false
               | Some player => negb (truthy (get player "drafted"))
               end = true) searched)
  else Some searched.

(** [this.currentFilteredRankings || this.getFilteredRankings()]: the list
    [initializeDragAndDrop] kept, or a fresh one (an array is truthy even
    when empty). *)
Definition visibleRankings (st : State) : option (list ranking) :=
  match currentFilteredRankings st with
  | Some cached => Some cached
  | None => getFilteredRankings st
  end.

(** [filteredRankings.find(r => r.id === id)] *)
Definition findRanking (id : val) (rs : list ranking) : option ranking :=
  snd <$> list_find (λ r, rk_id r = id) rs.

(** The four lists [updateRankingsOrder] builds before it talks to the
    backend. *)
Definition reorderedRankings (filteredRankings : list ranking) (newOrder : list val)
    : list ranking :=
  omap (λ id, findRanking id filteredRankings) newOrder.

Definition nonFilteredRankings (filteredRankings reordered allRankingsForType : list ranking)
    : list ranking :=
  let reorderedPlayerIds := rk_player_id <$> reordered in
  filter (λ ranking,
    (rk_player_id ranking ∉ reorderedPlayerIds)
    ∧ (¬ Exists (λ fr, rk_id fr = rk_id ranking) filteredRankings))
    allRankingsForType.

Definition finalOrder (st : State) (filteredRankings : list ranking)
    (newOrder : list val) : list ranking :=
  let reordered := reorderedRankings filteredRankings newOrder in
  let allRankingsForType :=
    filter (λ r, rk_list_type r = rankingsView st) (rankings st) in
  reordered ++ nonFilteredRankings filteredRankings reordered allRankingsForType.

Definition newRankingData (clock : nat → jsstring) (listType : val)
    (final : list ranking) : list new_ranking :=
  imap (λ index ranking,
    NewRanking (rk_player_id ranking) listType (Z.of_nat index + 1)
      (Some (clock index))) final.

(** [updateRankingsOrder(newOrder)]: [respDelete] answers the delete of the
    partition, [respInsert] the insert with [.select()] that follows it. *)
Definition updateRankingsOrder (clock : nat → jsstring) (newOrder : list val)
    (respDelete : outcome unit) (respInsert : outcome (option (list ranking)))
    (st : State) : completion * State :=
  if negb (supabase st) || bool_decide (newOrder = []) then (Normal, st)
  else
    match visibleRankings st with
    | None => (TypeError, st)
    | Some filteredRankings =>
        let listType := rankingsView st in
        if bool_decide (reorderedRankings filteredRankings newOrder = [])
        then (Normal, setSyncStatus (js "No rankings found to reorder") StError st)
        else
          let rows := newRankingData clock listType
                        (finalOrder st filteredRankings newOrder) in
          let st1 := send (DeleteRankings listType) st in
          match respDelete with
          | ResolvedError | Rejected =>
              (Normal, setSyncStatus (js "Error saving rankings order") StError st1)
          | Resolved _ =>
              let st2 := send (InsertRankings rows) st1 in
              match respInsert with
              | ResolvedError | Rejected =>
                  (Normal,
                   setSyncStatus (js "Error saving rankings order") StError st2)
              | Resolved data =>
                  (Normal,
                   setSyncStatus (js "Rankings order saved successfully") StSuccess
                     (set_rankings (sort_by_rank (default [] data)) st2))
              end
          end
    end.

(** [loadRankings(listType)] *)
Definition loadRankings (listType : val) (resp : outcome (option (list ranking)))
    (st : State) : State :=
  if negb (supabase st) then set_rankings [] st
  else
    let st1 := send (SelectRankings listType) st in
    match resp with
    | Resolved data => set_rankings (default [] data) st1
    | ResolvedError | Rejected => set_rankings [] st1
    end.

(** [p.position.includes('P')] *)
Definition positionHasP (p : obj) : option bool :=
  match get p "position" with
  | VStr s => Some (includes (js "P") s)
  | _ => None
  end.

(** [initializeRankings(listType)]: the rows are built before the [try];
    [respInsert] answers the insert and [respLoad] the reload after it. *)
Definition initializeRankings (listType : val) (respInsert : outcome unit)
    (respLoad : outcome (option (list ranking))) (st : State) : completion * State :=
  if negb (supabase st)
  then (Normal, setSyncStatus (js "Supabase not available") StError st)
  else
    let chosen :=
      if bool_decide (listType = VStr (js "hitter"))
      then filter_throw (λ p,
             if truthy (get p "position") then negb <$> positionHasP p
             else Some true) (players st)
      else if bool_decide (listType = VStr (js "pitcher"))
      then filter_throw (λ p,
             if truthy (get p "position") then positionHasP p
             else Some false) (players st)
      else Some (players st) in
    match chosen ≫= sortByName with
    | None => (TypeError, st)
    | Some playersToRank =>
        let rankingData :=
          imap (λ index player,
            NewRanking (get player "id") listType (Z.of_nat index + 1) None)
            playersToRank in
        let st1 := send (InsertRankings rankingData) st in
        match respInsert with
        | ResolvedError | Rejected =>
            (Normal, setSyncStatus (js "Error initializing rankings") StError st1)
        | Resolved _ =>
            (Normal,
             loadRankings listType respLoad
               (setSyncStatus (js "Rankings initialized successfully") StSuccess st1))
        end
    end.

(** [clearRankings(listType)]: [confirmed] is the answer to the dialog. *)
Definition clearRankings (listType : val) (confirmed : bool)
    (resp : outcome unit) (st : State) : State :=
  if negb (supabase st)
  then setSyncStatus (js "Supabase not available") StError st
  else if negb confirmed then st
  else
    let st1 := send (DeleteRankings listType) st in
    match resp with
    | ResolvedError | Rejected =>
        setSyncStatus (js "Error clearing rankings") StError st1
    | Resolved _ =>
        set_rankings [] (setSyncStatus (js "Rankings cleared successfully") StSuccess st1)
    end.

End Rankings.

(** ** Statements about the merge *)

(** The remote record reports "not drafted": [drafted] is [false] or the
    property is missing. *)
Definition reports_not_drafted (r : obj) : Prop :=
  get r "drafted" = VBool false ∨ r !! "drafted" = None.

(** The local record [p'] is drafted and reads as [p] did on the three
    draft properties. *)
Definition draft_kept (p p' : obj) : Prop :=
  get p' "drafted" = VBool true
  ∧ get p' "fantasyOwner" = get p "fantasyOwner"
  ∧ get p' "draftNotes" = get p "draftNotes"
  ∧ get p' "draftedDate" = get p "draftedDate".

(** Draft precedence for any record of any list of records, the lists
    that carry an identifier twice included. *)
Definition draft_precedence_every_snapshot : Prop :=
  ∀ (now : jsstring) (st : State) (snapshot : list obj) (r : obj)
    (i : nat) (p : obj),
    r ∈ snapshot →
    isInvalidId (get r "id") = false →
    players st !! i = Some p →
    get p "id" = get r "id" →
    get p "drafted" = VBool true →
    truthy (get p "fantasyOwner") = true →
    reports_not_drafted r →
    ∃ p', players (mergeSupabaseData now snapshot st) !! i = Some p'
          ∧ draft_kept p p'.

(** The identifiers of a collection, in order. *)
Definition ids (ps : list obj) : list val := (λ p, get p "id") <$> ps.

(** The identifiers of the records of a snapshot that pass the validity
    test. *)
Definition valid_ids (snapshot : list obj) : list val :=
  (λ r, get r "id") <$> filter (λ r, isInvalidId (get r "id") = false) snapshot.

(** Merging a second time changes nothing, for any list of records, the
    lists that carry an identifier twice included. *)
Definition merge_idempotent_every_snapshot : Prop :=
  ∀ (now1 now2 : jsstring) (st : State) (snapshot : list obj),
    snapshot ≠ [] →
    players (mergeSupabaseData now2 snapshot (mergeSupabaseData now1 snapshot st))
    = players (mergeSupabaseData now1 snapshot st).

(** ** Statements about drafting *)

(** Nothing but white space. *)
Definition blank (s : jsstring) : Prop := Forall (λ c, is_space c = true) s.

(** [core] is [s] without the white space at its two ends: [s] is [core]
    with white space before and after it, and [core] neither starts nor
    ends with white space. *)
Definition trimmed_of (s core : jsstring) : Prop :=
  ∃ pre post, s = pre ++ core ++ post
    ∧ blank pre ∧ blank post
    ∧ (∀ c, head core = Some c → is_space c = false)
    ∧ (∀ c, last core = Some c → is_space c = false).

(** The owner of the payload is missing or blank. *)
Definition owner_blank (ownerData : OwnerData) : Prop :=
  match od_owner ownerData with
  | None => True
  | Some owner => blank owner
  end.

(** The notes of the payload without the white space at their ends, the
    empty string when there are none. *)
Definition notes_trimmed (ownerData : OwnerData) (notes : jsstring) : Prop :=
  match od_notes ownerData with
  | None => notes = []
  | Some given => trimmed_of given notes
  end.

(** The player at index [i] is the first one stored under [playerId]. *)
Definition first_stored_under (playerId : val) (ps : list obj) (i : nat) (p : obj)
    : Prop :=
  ps !! i = Some p ∧ get p "id" = playerId
  ∧ ∀ j q, j < i → ps !! j = Some q → get q "id" ≠ playerId.

(** [p'] is [p] drafted by [owner] with [notes] at [date]: the four draft
    properties are set and every other property is as before. *)
Definition drafted_from (p p' : obj) (owner notes date : jsstring) : Prop :=
  get p' "drafted" = VBool true
  ∧ get p' "fantasyOwner" = VStr owner
  ∧ get p' "draftNotes" = VStr notes
  ∧ get p' "draftedDate" = VStr date
  ∧ ∀ k, k ∉ ["drafted"; "fantasyOwner"; "draftNotes"; "draftedDate"] →
         p' !! k = p !! k.

(** ** Sample data *)

Module Sample.

Definition uuid1 : jsstring := js "3f2b8c1e-7a4d-4e9b-9c6f-1d2e3a4b5c6d".
Definition uuid2 : jsstring := js "9a8b7c6d-5e4f-4a3b-8c2d-1e0f9a8b7c6d".
Definition t0 : jsstring := js "2024-03-01T12:00:00.000Z".
Definition t1 : jsstring := js "2024-03-01T12:00:01.000Z".
Definition clock0 : nat → jsstring := λ _, t0.

(** A converted record. *)
Definition record (id : jsstring) (name : string) (drafted : bool) (owner : string) : obj :=
  <["id" := VStr id]>
  (<["name" := VStr (js name)]>
  (<["position" := VStr (js "OF")]>
  (<["mlbTeam" := VStr (js "LAA")]>
  (<["notes" := VStr []]>
  (<["fantasyOwner" := VStr (js owner)]>
  (<["drafted" := VBool drafted]>
  (<["draftNotes" := VStr []]>
  (<["addedDate" := VStr t0]> (∅ : obj))))))))).

(** A local player drafted by "Team A", with its draft date. *)
Definition local_drafted : obj :=
  <["draftedDate" := VStr t1]> (record uuid1 "Mike Trout" true "Team A").

Definition remote_undrafted : obj := record uuid1 "Mike Trout" false "".
Definition remote_team_b : obj := record uuid1 "Mike Trout" true "Team B".

Definition with_players (ps : list obj) : State := set_players ps (initial true).

End Sample.

(** ** Remote inputs *)

(** What reaches the collection from the backend: the answer to a bulk load
    and the row of an update event. *)
Inductive remote_input :=
  | BulkLoad (clock : nat → jsstring) (resp : outcome (option (list obj)))
  | UpdateEvent (clock : nat → jsstring) (row : obj).

Definition apply_remote (st : State) (e : remote_input) : State :=
  match e with
  | BulkLoad clock resp => loadFromSupabase clock resp st
  | UpdateEvent clock row => (handleRealtimeUpdate clock row st).2
  end.

Module SampleRows.
Import Sample.

(** A row of the remote [players] table. *)
Definition row (id : jsstring) (drafted : val) (owner_id : val) : obj :=
  <["id" := VStr id]>
  (<["name" := VStr (js "Mike Trout")]>
  (<["position" := VStr (js "OF")]>
  (<["team" := VStr (js "LAA")]>
  (<["notes" := VNull]>
  (<["owner_id" := owner_id]>
  (<["drafted" := drafted]>
  (<["draft_notes" := VNull]>
  (<["created_at" := VStr t0]>
  (<["updated_at" := VStr t1]> (∅ : obj)))))))))).

Definition row_undrafted : obj := row uuid1 (VBool false) VNull.
Definition row_drafted_no_owner : obj := row uuid1 (VBool true) VNull.
Definition row_drafted (owner : jsstring) : obj := row uuid1 (VBool true) (VStr owner).

End SampleRows.

(** ** The draft shape of a player *)

(** A drafted player has a non-empty owner; an undrafted one has an empty
    owner, empty draft notes and no [draftedDate] property. *)
Definition draft_shape (p : obj) : Prop :=
  (get p "drafted" = VBool true →
     ∃ owner, get p "fantasyOwner" = VStr owner ∧ owner ≠ [])
  ∧ (get p "drafted" = VBool false →
     get p "fantasyOwner" = VStr [] ∧ get p "draftNotes" = VStr []
     ∧ p !! "draftedDate" = None).

(** The operations on the collection: the four local ones (drafting goes
    through the form handler), the bulk load, and the three real-time
    handlers. *)
Inductive operation :=
  | OpAdd (uuid : jsstring) (clock : nat → jsstring) (playerData : PlayerData)
  | OpDraft (clock : nat → jsstring) (playerId : val) (ownerData : OwnerData)
  | OpUndraft (clock : nat → jsstring) (playerId : val)
  | OpDelete (clock : nat → jsstring) (playerId : val) (resp : outcome unit)
  | OpMerge (clock : nat → jsstring) (resp : outcome (option (list obj)))
  | OpInsertEvent (clock : nat → jsstring) (row : obj)
  | OpUpdateEvent (clock : nat → jsstring) (row : obj)
  | OpDeleteEvent (clock : nat → jsstring) (row : obj).

Definition run_op (st : State) (op : operation) : State :=
  match op with
  | OpAdd uuid clock playerData => addPlayer uuid clock playerData st
  | OpDraft clock playerId ownerData =>
      (handleDraftPlayer clock playerId ownerData st).2
  | OpUndraft clock playerId => undraftPlayer clock playerId st
  | OpDelete clock playerId resp => deletePlayer clock playerId resp st
  | OpMerge clock resp => loadFromSupabase clock resp st
  | OpInsertEvent clock row => (handleRealtimeInsert clock row st).2
  | OpUpdateEvent clock row => (handleRealtimeUpdate clock row st).2
  | OpDeleteEvent clock row => (handleRealtimeDelete clock row st).2
  end.

(** The draft shape holds after any sequence of operations. *)
Definition draft_shape_after_any_operations : Prop :=
  ∀ (configured : bool) (ops : list operation) (p : obj),
    p ∈ players (foldl run_op (initial configured) ops) → draft_shape p.

(** The draft columns of a remote row agree: drafted with a non-empty
    owner, or not drafted with no owner and no draft notes. *)
Definition row_consistent (row : obj) : Prop :=
  (get row "drafted" = VBool true
   ∧ ∃ owner, get row "owner_id" = VStr owner ∧ owner ≠ [])
  ∨ (truthy (get row "drafted") = false
     ∧ truthy (get row "owner_id") = false
     ∧ truthy (get row "draft_notes") = false).

(** The operations under which the draft shape is kept: the rows of a bulk
    load and of an insert event are consistent, and the row of an update
    event is consistent and reports drafted. *)
Definition shape_keeping (op : operation) : Prop :=
  match op with
  | OpMerge _ (Resolved (Some rows)) => Forall row_consistent rows
  | OpInsertEvent _ row => row_consistent row
  | OpUpdateEvent _ row => row_consistent row ∧ get row "drafted" = VBool true
  | _ => True
  end.

(** The invariant carried through the operations: the flag is a boolean and
    the shape holds. *)
Definition shaped (p : obj) : Prop :=
  (∃ b, get p "drafted" = VBool b) ∧ draft_shape p.

(** What a consistent row converts to. *)
Definition converted_shape (r : obj) : Prop :=
  r !! "draftedDate" = None
  ∧ ((r !! "drafted" = Some (VBool true)
      ∧ ∃ owner, r !! "fantasyOwner" = Some (VStr owner) ∧ owner ≠ [])
     ∨ (r !! "drafted" = Some (VBool false)
        ∧ r !! "fantasyOwner" = Some (VStr [])
        ∧ r !! "draftNotes" = Some (VStr []))).

Module Scenario.
Import Sample SampleRows.

(** Add a player, draft him, then load a snapshot that reports him
    undrafted. *)
Definition trout : PlayerData :=
  mkPlayerData (js "Mike Trout") (Some (js "OF")) (Some (js "LAA")) None None.

Definition dodgers : OwnerData :=
  mkOwnerData (Some (js "Dodgers Fans")) (Some (js "1st pick")).

(** The draft form as typed, with white space around the owner. *)
Definition padded : OwnerData :=
  mkOwnerData (Some (js "  Dodgers Fans ")) (Some (js " 1st pick")).

Definition ops : list operation :=
  [ OpAdd uuid1 clock0 trout;
    OpDraft clock0 (VStr uuid1) dodgers;
    OpMerge clock0 (Resolved (Some [row_undrafted])) ].

Definition final : State := foldl run_op (initial true) ops.

(** A bulk load of a row that is drafted with no owner reference, as
    [backupToSupabase] writes it for an owner that is a team name. *)
Definition load_no_owner : list operation :=
  [ OpMerge clock0 (Resolved (Some [row_drafted_no_owner])) ].

End Scenario.

(** ** Statements about the reorder *)

(** The rows stored by a reorder are ranked 1 to N, for a new order drawn
    from any part of the visible identifiers. *)
Definition reorder_contiguous_any_subset : Prop :=
  ∀ (toLowerCase : jsstring → jsstring) (clock : nat → jsstring)
    (newOrder : list val) (respInsert : outcome (option (list ranking)))
    (st : State) (visible : list ranking),
    supabase st = true →
    Forall (λ r, rk_list_type r = rankingsView st) (rankings st) →
    NoDup (rk_id <$> rankings st) →
    getFilteredRankings toLowerCase st = Some visible →
    currentFilteredRankings st = None ∨ currentFilteredRankings st = Some visible →
    newOrder ≠ [] → NoDup newOrder → newOrder ⊆ rk_id <$> visible →
    ∃ st' rows,
      updateRankingsOrder toLowerCase clock newOrder (Resolved tt) respInsert st
      = (Normal, st')
      ∧ sent st' = sent st ++ [DeleteRankings (rankingsView st); InsertRankings rows]
      ∧ nr_rank_index <$> rows = Z.of_nat <$> seq 1 (length (rankings st)).

Module SampleRankings.
Import Sample.

Definition overall : val := VStr (js "overall").
Definition rank1 : ranking := Ranking (VStr (js "r1")) (VStr uuid1) overall 1.
Definition rank2 : ranking := Ranking (VStr (js "r2")) (VStr uuid2) overall 2.

(** Two ranked players, nothing filtered out. *)
Definition two_ranked : State :=
  set_rankings [rank1; rank2]
    (with_players [record uuid1 "Mike Trout" false "";
                   record uuid2 "Mookie Betts" false ""]).

End SampleRankings.

(** ** Remote calls that fail *)

Definition failed {A} (resp : outcome A) : Prop :=
  match resp with Resolved _ => False | _ => True end.

(** The operations that call the backend, with the answers they get. *)
Inductive remote_call :=
  | CallLoad (clock : nat → jsstring) (resp : outcome (option (list obj)))
  | CallBackup (randomUUID clock : nat → jsstring) (resp : nat → outcome unit)
  | CallDelete (clock : nat → jsstring) (playerId : val) (resp : outcome unit)
  | CallLoadRankings (listType : val) (resp : outcome (option (list ranking)))
  | CallInitializeRankings (listType : val) (respInsert : outcome unit)
      (respLoad : outcome (option (list ranking)))
  | CallReorder (clock : nat → jsstring) (newOrder : list val)
      (respDelete : outcome unit) (respInsert : outcome (option (list ranking)))
  | CallClearRankings (listType : val) (resp : outcome unit).

Section RemoteCalls.

Variable toLowerCase : jsstring → jsstring.
Variable sortByName : list obj → option (list obj).

Definition run_call (st : State) (call : remote_call) : State :=
  match call with
  | CallLoad clock resp => loadFromSupabase clock resp st
  | CallBackup randomUUID clock resp => backupToSupabase randomUUID clock resp st
  | CallDelete clock playerId resp => deletePlayer clock playerId resp st
  | CallLoadRankings listType resp => loadRankings listType resp st
  | CallInitializeRankings listType respInsert respLoad =>
      (initializeRankings sortByName listType respInsert respLoad st).2
  | CallReorder clock newOrder respDelete respInsert =>
      (updateRankingsOrder toLowerCase clock newOrder respDelete respInsert st).2
  | CallClearRankings listType resp => clearRankings listType true resp st
  end.

(** The call of the operation fails: for a backup, the upsert of some
    player; for a reorder, the delete, or the insert after it. *)
Definition call_fails (st : State) (call : remote_call) : Prop :=
  match call with
  | CallLoad _ resp => failed resp
  | CallBackup _ _ resp => ∃ i, i < length (players st) ∧ failed (resp i)
  | CallDelete _ _ resp => failed resp
  | CallLoadRankings _ resp => failed resp
  | CallInitializeRankings _ respInsert _ => failed respInsert
  | CallReorder _ _ respDelete respInsert =>
      failed respDelete ∨ failed respInsert
  | CallClearRankings _ resp => failed resp
  end.

(** The last report on the status channel is an error. *)
Definition reports_error (st : State) : Prop :=
  ∃ message, last (statusLog st) = Some (message, StError).

(** What each operation has done when its call fails. *)
Definition after_failure (st : State) (call : remote_call) (st' : State) : Prop :=
  match call with
  | CallLoad _ _ =>
      players st' = players st ∧ localStorage st' = localStorage st
      ∧ reports_error st'
  | CallBackup randomUUID _ _ =>
      length (players st') = length (players st)
      ∧ (∀ i p, players st !! i = Some p →
           players st' !! i = Some p
           ∨ (isInvalidId (get p "id") = true
              ∧ players st' !! i = Some (<["id" := VStr (randomUUID i)]> p)))
      ∧ localStorage st' = localStorage st
      ∧ reports_error st'
  | CallDelete clock playerId _ =>
      players st' = filter (λ p, get p "id" ≠ playerId) (players st)
      ∧ statusLog st' = statusLog st
      ∧ (is_Some (findIndex playerId (players st)) →
         localStorage st' = Some (json <$> players st', clock 0))
  | CallLoadRankings _ _ =>
      players st' = players st ∧ rankings st' = []
      ∧ statusLog st' = statusLog st
  | CallInitializeRankings _ _ _ | CallReorder _ _ _ _ | CallClearRankings _ _ =>
      players st' = players st ∧ rankings st' = rankings st
      ∧ localStorage st' = localStorage st
      ∧ (sent st' = sent st ∨ reports_error st')
  end.

End RemoteCalls.

(** A failed remote call leaves the collection as it was and is reported. *)
Definition remote_failure_atomic : Prop :=
  ∀ (toLowerCase : jsstring → jsstring) (sortByName : list obj → option (list obj))
    (st : State) (call : remote_call),
    supabase st = true → call_fails st call →
    players (run_call toLowerCase sortByName st call) = players st
    ∧ reports_error (run_call toLowerCase sortByName st call).

(** ** Outbound rows *)

(** The owner reference the specification asks for: the owner when it
    passes the validity test, [null] otherwise. *)
Definition normalized_owner (player : obj) : val :=
  if isValidOwnerId (get player "fantasyOwner")
  then get player "fantasyOwner" else VNull.

(** An identifier that is a string or is missing: not a number and not a
    boolean. *)
Definition string_or_missing (v : val) : Prop :=
  v = VUndefined ∨ v = VNull ∨ ∃ s, v = VStr s.

(** A row sent for [player] is normalized: its owner reference is the
    normalized one, its identifier passes the validity test and is the
    player's own when that one was valid. *)
Definition row_normalized (player row : obj) : Prop :=
  get row "owner_id" = normalized_owner player
  ∧ isInvalidId (get row "id") = false
  ∧ (isInvalidId (get player "id") = false → get row "id" = get player "id").

Module SampleOutbound.
Import Sample.

(** A player drafted by a team name, and one stored under a team name. *)
Definition drafted_by_name : obj := record uuid1 "Mike Trout" true "Dodgers Fans".
Definition legacy_id : obj := record (js "mets") "Pete Alonso" false "".

(** A player stored under a number, as a timestamp identifier is. *)
Definition numbered : obj :=
  <["id" := VNum 1700000000000]> (record [] "Juan Soto" false "").

Definition fresh : nat → jsstring := λ _, uuid2.
Definition all_ok : nat → outcome unit := λ _, Resolved tt.

End SampleOutbound.

(** ** Further methods of the tracker *)

(** The item ["baseballDraftTracker"] as [loadFromStorage] finds it: no
    item, a text that [JSON.parse] rejects (or that parses to [null], on
    which [data.players] throws inside the same [try]), or a document whose
    [players] is an array or is missing. *)
Inductive stored_item :=
  | ItemMissing
  | ItemMalformed
  | ItemDocument (players : option (list obj)).

(** [loadFromStorage()] *)
Definition loadFromStorage (stored : stored_item) (st : State) : State :=
  match stored with
  | ItemMissing => st
  | ItemMalformed => set_players [] st
  | ItemDocument data_players => set_players (default [] data_players) st
  end.

(** The item a state has written, as the next session reads it. *)
Definition stored_item_of (st : State) : stored_item :=
  match localStorage st with
  | None => ItemMissing
  | Some (ps, _) => ItemDocument (Some ps)
  end.

(** The fields of the add-player form: [FormData.get] gives a string, or
    [null] for a control that is not there. *)
Record AddForm := mkAddForm {
  af_name : option jsstring;
  af_position : option jsstring;
  af_mlbTeam : option jsstring;
  af_notes : option jsstring
}.

(** [!playerData.name || !playerData.name.trim()] *)
Definition nameMissing (form : AddForm) : bool :=
  match af_name form with
  | None => true
  | Some name => bool_decide (name = []) || bool_decide (trim name = [])
  end.

(** [handleAddPlayer(e)]; closing the dialog, resetting the form and
    switching the page to the "all" view touch the page only. *)
Definition handleAddPlayer (uuid : jsstring) (clock : nat → jsstring)
    (form : AddForm) (st : State) : State :=
  if nameMissing form then alert (js "Player name is required") st
  else
    addPlayer uuid clock
      (mkPlayerData (default [] (af_name form)) (af_position form)
         (af_mlbTeam form) (af_notes form) None) st.

(** The order of [Array.prototype.sort] without a comparator: elements are
    compared as strings, code unit by code unit. *)
Fixpoint js_ltb (a b : jsstring) : bool :=
  match a, b with
  | _, [] => false
  | [], _ :: _ => true
  | c :: a', d :: b' => (c <? d)%N || ((c =? d)%N && js_ltb a' b')
  end.

Definition sortKey (v : val) : jsstring := default [] (toString v).

Fixpoint insert_sorted (x : val) (l : list val) : list val :=
  match l with
  | [] => [x]
  | y :: l' =>
      if js_ltb (sortKey y) (sortKey x) then y :: insert_sorted x l'
      else x :: l
  end.

(** [xs.sort()], a stable sort. *)
Definition default_sort (l : list val) : list val := foldr insert_sorted [] l.

(** [owners.add(p.fantasyOwner)] over the collection: a [Set] keeps the
    first insertion of a value. *)
Definition ownerSet (ps : list obj) : list val :=
  foldl (λ owners p,
    let owner := get p "fantasyOwner" in
    if truthy owner
    then if bool_decide (owner ∈ owners) then owners else owners ++ [owner]
    else owners) [] ps.

(** [getUniqueOwners()] *)
Definition getUniqueOwners (st : State) : list val :=
  default_sort (ownerSet (players st)).

(** Ascending for the order of [sort()]: no element is followed by a
    smaller one. *)
Definition ascending (l : list val) : Prop :=
  ∀ i x y, l !! i = Some x → l !! S i = Some y →
           js_ltb (sortKey y) (sortKey x) = false.

(** Ascending rank. *)
Definition rank_ascending (rs : list ranking) : Prop :=
  ∀ i x y, rs !! i = Some x → rs !! S i = Some y →
           (rk_rank_index x ≤ rk_rank_index y)%Z.

(** The properties of a converted record. *)
Definition local_keys : list string :=
  ["id"; "name"; "position"; "mlbTeam"; "notes"; "fantasyOwner";
   "drafted"; "draftNotes"; "addedDate"].

(** The rows a state has asked the backend to insert into the rankings,
    oldest request first. *)
Definition inserted_rankings (st : State) : list (list new_ranking) :=
  omap (λ rq, match rq with InsertRankings rows => Some rows | _ => None end)
    (sent st).

(** The position of [p] is a string with the letter "P" in it. *)
Definition plays_P (p : obj) : bool :=
  match get p "position" with
  | VStr s => bool_decide (80%N ∈ s)
  | _ => false
  end.

(** The list types whose partition a state has asked the backend to
    delete, oldest request first. *)
Definition deleted_rankings (st : State) : list val :=
  omap (λ rq, match rq with DeleteRankings listType => Some listType | _ => None end)
    (sent st).


(** ** The rankings page *)

Definition set_currentFilteredRankings (cached : option (list ranking))
    (st : State) : State :=
  mkState (players st) (rankings st) (rankingsView st) cached
    (rankingsSearchTerm st) (hideDraftedInRankings st) (supabase st)
    (localStorage st) (statusLog st) (sent st) (renders st) (alerts st).

Section RankingsPage.

Variable toLowerCase : jsstring → jsstring.

(** The filter [renderRankingsView] applies itself, once it is past the
    branch that loads the rankings: the search looks at the name, the
    position and the team. *)
Definition renderFilteredRankings (st : State) : option (list ranking) :=
  searched ←
    (if bool_decide (rankingsSearchTerm st = []) then Some (rankings st)
     else
       let term := toLowerCase (rankingsSearchTerm st) in
       filter_throw (λ ranking,
         match findPlayer (rk_player_id ranking) (players st) with
         | None => Some false
         | Some player =>
             or_throw (fieldIncludes toLowerCase player "name" term)
               (or_throw (fieldIncludes toLowerCase player "position" term)
                  (fieldIncludes toLowerCase player "mlbTeam" term))
         end) (rankings st));
  if hideDraftedInRankings st
  then Some (filter (λ ranking,
               match findPlayer (rk_player_id ranking) (players st) with
               | None => false
               | Some player => negb (truthy (get player "drafted"))
               end = true) searched)
  else Some searched.

(** The children of [#rankingsItems], in order: one item for every
    filtered entry whose player is in the collection
    ([if (!player) return;]). *)
Definition rankingsItems (st : State) : option (list ranking) :=
  filteredRankings ← renderFilteredRankings st;
  Some (filter (λ ranking,
          is_Some (findPlayer (rk_player_id ranking) (players st)))
        filteredRankings).

(** [data-id="' + ranking.id + '"], read back as [item.dataset.id]. *)
Definition dataset_id (r : ranking) : val := VStr (ToString (rk_id r)).

(** [initializeDragAndDrop()], called when the page has a list: it keeps
    the result of [getFilteredRankings] for the drags to come. *)
Definition initializeDragAndDrop (st : State) : completion * State :=
  match getFilteredRankings toLowerCase st with
  | None => (TypeError, st)
  | Some filteredRankings =>
      (Normal, set_currentFilteredRankings (Some filteredRankings) st)
  end.

(** [renderRankingsView()] past the loading branch, as far as the state
    goes: drag and drop is set up when the filtered list is not empty. *)
Definition renderRankingsView (st : State) : completion * State :=
  match renderFilteredRankings st with
  | None => (TypeError, st)
  | Some filteredRankings =>
      if bool_decide (filteredRankings = []) then (Normal, st)
      else initializeDragAndDrop st
  end.

(** [onEnd] of the sortable list: [rankingItems] are the children of
    [#rankingsItems] in the order the drag left them, and the new order is
    their [data-id]s. *)
Definition onEnd (clock : nat → jsstring) (rankingItems : list ranking)
    (respDelete : outcome unit) (respInsert : outcome (option (list ranking)))
    (st : State) : completion * State :=
  updateRankingsOrder toLowerCase clock (dataset_id <$> rankingItems)
    respDelete respInsert st.

End RankingsPage.

(** ** The subscription *)

(** A change of the [players] table as the subscription delivers it,
    [{ schema, table, commit_timestamp, eventType, new, old, errors }]:
    [new] is the row after the change, [old] the row before it. *)
Record change := mkChange {
  ch_eventType : jsstring;
  ch_commit_timestamp : jsstring;
  ch_new : obj;
  ch_old : obj
}.

(** The payload object, by its properties that hold a primitive.  [new]
    and [old] hold objects; the handler of one row reads [id], [name],
    [position], [team], [notes], [owner_id], [drafted], [draft_notes] and
    [created_at] of what it is given, and a payload has none of them. *)
Definition payload_of (c : change) : obj :=
  <["schema" := VStr (js "public")]>
  (<["table" := VStr (js "players")]>
  (<["commit_timestamp" := VStr (ch_commit_timestamp c)]>
  (<["eventType" := VStr (ch_eventType c)]>
  (<["errors" := VNull]> (∅ : obj))))).

(** What the subscription does with a change: the callback calls
    [this.handleRealtimeUpdate(payload)], and the method of that name is
    the handler of one row. *)
Definition onChange (clock : nat → jsstring) (c : change) (st : State)
    : completion * State :=
  onPostgresChanges clock (payload_of c) st.

(** The body of the first declaration of [handleRealtimeUpdate], the
    dispatcher on [payload.eventType].  The second declaration of the name
    replaces it in the class, so no call reaches this body. *)
Definition dispatchChange (clock : nat → jsstring) (c : change) (st : State)
    : completion * State :=
  if bool_decide (ch_eventType c = js "INSERT")
  then handleRealtimeInsert clock (ch_new c) st
  else if bool_decide (ch_eventType c = js "UPDATE")
  then handleRealtimeUpdate clock (ch_new c) st
  else if bool_decide (ch_eventType c = js "DELETE")
  then handleRealtimeDelete clock (ch_old c) st
  else (Normal, st).

(** ** The session *)

(** [init()], as far as the collection goes: the stored players are read
    and their identifiers repaired before [bindEvents] makes the page
    answer, then the page is rendered.  [stored] is the item of local
    storage the session finds. *)
Definition init (configured : bool) (stored : stored_item)
    (randomUUID clock : nat → jsstring) : State :=
  render (ensureAllPlayersHaveUUIDs randomUUID clock
            (loadFromStorage stored (initial configured))).

(** The cells the table lets the user edit in place, by their
    [data-field]. *)
Inductive editable :=
  | EditName | EditPosition | EditMlbTeam | EditFantasyOwner | EditNotes.

Definition data_field (field : editable) : string :=
  match field with
  | EditName => "name"
  | EditPosition => "position"
  | EditMlbTeam => "mlbTeam"
  | EditFantasyOwner => "fantasyOwner"
  | EditNotes => "notes"
  end.

(** [saveEdit] of [startInlineEdit]:
    [updatePlayer(playerId, { [field]: input.value.trim() })]. *)
Definition saveEdit (clock : nat → jsstring) (playerId : val) (field : editable)
    (value : jsstring) (st : State) : State :=
  updatePlayer clock playerId {[ data_field field := VStr (trim value) ]} st.

(** The controls of the rankings page (the list type, the search box, the
    toggle) and the list [initializeDragAndDrop] keeps: whatever they leave
    in the four fields. *)
Definition set_page (view : val) (term : jsstring) (hide : bool)
    (cached : option (list ranking)) (st : State) : State :=
  mkState (players st) (rankings st) view cached term hide (supabase st)
    (localStorage st) (statusLog st) (sent st) (renders st) (alerts st).

(** What the page answers to once [init] has bound its events: the forms
    and buttons of the table, the two sync buttons, the changes the
    subscription delivers, and the rankings page. *)
Inductive event :=
  | EvAdd (uuid : jsstring) (clock : nat → jsstring) (form : AddForm)
  | EvEdit (clock : nat → jsstring) (playerId : val) (field : editable)
      (value : jsstring)
  | EvStar (clock : nat → jsstring) (playerId : val)
  | EvDraft (clock : nat → jsstring) (playerId : val) (ownerData : OwnerData)
  | EvUndraft (clock : nat → jsstring) (playerId : val)
  | EvDelete (clock : nat → jsstring) (playerId : val) (resp : outcome unit)
  | EvClear (clock : nat → jsstring)
  | EvLoad (clock : nat → jsstring) (resp : outcome (option (list obj)))
  | EvBackup (randomUUID clock : nat → jsstring) (resp : nat → outcome unit)
  | EvChange (clock : nat → jsstring) (c : change)
  | EvPage (view : val) (term : jsstring) (hide : bool)
      (cached : option (list ranking))
  | EvLoadRankings (listType : val) (resp : outcome (option (list ranking)))
  | EvInitializeRankings (listType : val) (respInsert : outcome unit)
      (respLoad : outcome (option (list ranking)))
  | EvReorder (clock : nat → jsstring) (newOrder : list val)
      (respDelete : outcome unit) (respInsert : outcome (option (list ranking)))
  | EvClearRankings (listType : val) (confirmed : bool) (resp : outcome unit).

Section Session.

Variable toLowerCase : jsstring → jsstring.
Variable sortByName : list obj → option (list obj).

Definition handle (st : State) (e : event) : State :=
  match e with
  | EvAdd uuid clock form => handleAddPlayer uuid clock form st
  | EvEdit clock playerId field value => saveEdit clock playerId field value st
  | EvStar clock playerId => toggleStar clock playerId st
  | EvDraft clock playerId ownerData =>
      (handleDraftPlayer clock playerId ownerData st).2
  | EvUndraft clock playerId => undraftPlayer clock playerId st
  | EvDelete clock playerId resp => deletePlayer clock playerId resp st
  | EvClear clock => clearAllData clock st
  | EvLoad clock resp => loadFromSupabase clock resp st
  | EvBackup randomUUID clock resp => backupToSupabase randomUUID clock resp st
  | EvChange clock c => (onChange clock c st).2
  | EvPage view term hide cached => set_page view term hide cached st
  | EvLoadRankings listType resp => loadRankings listType resp st
  | EvInitializeRankings listType respInsert respLoad =>
      (initializeRankings sortByName listType respInsert respLoad st).2
  | EvReorder clock newOrder respDelete respInsert =>
      (updateRankingsOrder toLowerCase clock newOrder respDelete respInsert st).2
  | EvClearRankings listType confirmed resp =>
      clearRankings listType confirmed resp st
  end.

End Session.



Module SampleMore.
Import Sample.

(** Two local players stored under one identifier. *)
Definition twins : list obj :=
  [record uuid1 "Mike Trout" true "Team A"; record uuid1 "Mike Trout" false ""].

Definition other_remote : obj := record uuid2 "Mookie Betts" false "".

(** A payload of the subscription. *)
Definition payload : obj :=
  <["eventType" := VStr (js "UPDATE")]> (<["table" := VStr (js "players")]> (∅ : obj)).

(** The change another client causes when it drafts Mike Trout. *)
Definition drafted_elsewhere : change :=
  mkChange (js "UPDATE") t1 (SampleRows.row_drafted uuid2)
    (<["id" := VStr uuid1]> (∅ : obj)).

(** Three ranked players, the third of whom this browser does not hold:
    the rankings come from the backend, the players from local storage. *)
Definition uuid3 : jsstring := js "5d4c3b2a-1f0e-4d9c-8b7a-6f5e4d3c2b1a".

Definition rank3 : ranking :=
  Ranking (VStr (js "r3")) (VStr uuid3) SampleRankings.overall 3.

Definition ranked_stranger : State :=
  set_rankings [SampleRankings.rank1; SampleRankings.rank2; rank3]
    (with_players [record uuid1 "Mike Trout" false "";
                   record uuid2 "Mookie Betts" false ""]).

(** What a session finds in local storage: a player kept under a team
    name by an earlier version, and one drafted by a team name. *)
Definition stored_legacy : stored_item :=
  ItemDocument (Some [SampleOutbound.legacy_id; SampleOutbound.drafted_by_name]).

(** A session on it: a player is added and drafted, then the collection
    is backed up. *)
Definition session : list event :=
  [ EvAdd uuid3 clock0 (mkAddForm (Some (js "  Mike Trout ")) (Some (js "OF")) None None);
    EvDraft clock0 (VStr uuid3) Scenario.padded;
    EvBackup SampleOutbound.fresh clock0 SampleOutbound.all_ok ].

Definition starred_player : obj :=
  <["starred" := VBool true]> (record uuid1 "Mike Trout" false "").

Definition form_trout : AddForm :=
  mkAddForm (Some (js "  Mike Trout ")) (Some (js "OF")) None None.

Definition hitter : obj := record uuid1 "Mike Trout" false "".
Definition pitcher : obj :=
  <["position" := VStr (js "SP")]> (record uuid2 "Gerrit Cole" false "").

End SampleMore.

(** * Properties *)

(** ** The identifier validity test *)

Lemma includes_hyphen_spec (s : jsstring) :
  includes_hyphen s = true ↔ hyphen ∈ s.
Proof.
  unfold includes_hyphen. rewrite existsb_exists. split.
  - intros (c & Hin & Hc). apply N.eqb_eq in Hc. subst c.
    by apply list_elem_of_In.
  - intros Hin. exists hyphen. split; [by apply list_elem_of_In|].
    apply N.eqb_refl.
Qed.

Lemma only_letters_spec (s : jsstring) :
  only_letters s = true ↔ s ≠ [] ∧ Forall (λ c, is_letter c = true) s.
Proof.
  unfold only_letters. rewrite andb_true_iff, negb_true_iff.
  rewrite (bool_decide_eq_false (s = [])), forallb_forall, List.Forall_forall.
  reflexivity.
Qed.

Lemma hyphen_not_letter : is_letter hyphen = false.
Proof. reflexivity. Qed.

Lemma isInvalidId_string (s : jsstring) :
  isInvalidId (VStr s) = false ↔
  s ≠ [] ∧ 20 ≤ length s ∧ hyphen ∈ s ∧ ¬ Forall (λ c, is_letter c = true) s.
Proof.
  unfold isInvalidId. cbn [truthy is_string negb].
  rewrite !orb_false_iff, !negb_false_iff, negb_true_iff.
  rewrite (bool_decide_eq_false (s = [])), includes_hyphen_spec, Nat.ltb_ge.
  split.
  - intros ((Hne & _) & (Hlen & Hhy) & Hal). repeat split; try done.
    intros Hall. assert (only_letters s = true) as Hone; [|congruence].
    by apply only_letters_spec.
  - intros (Hne & Hlen & Hhy & Hal). repeat split; try done.
    destruct (only_letters s) eqn:Hone; [|done].
    apply only_letters_spec in Hone as [_ Hall]. contradiction.
Qed.

Lemma isValidOwnerId_isInvalidId (v : val) :
  isValidOwnerId v = negb (isInvalidId v) ∨ v = VStr [].
Proof.
  destruct v as [| |b|n|s]; try (left; reflexivity).
  - destruct b; by left.
  - left. unfold isInvalidId. cbn. by destruct (n =? 0)%Z.
  - destruct s as [|c s]; [by right|left].
    unfold isInvalidId, isValidOwnerId. cbn [truthy is_string negb orb].
    rewrite bool_decide_eq_false_2 by done. cbn [negb orb].
    rewrite !negb_orb, negb_involutive.
    replace (negb (length (c :: s) <? 20)) with (20 <=? length (c :: s)); [done|].
    destruct (Nat.leb_spec 20 (length (c :: s))), (Nat.ltb_spec (length (c :: s)) 20);
      (done || lia).
Qed.

Lemma canonical_length (s : jsstring) : is_canonical s = true → length s = 36.
Proof.
  unfold is_canonical. intros [Hlen _]%andb_true_iff. by apply Nat.eqb_eq.
Qed.

Lemma canonical_hyphen (s : jsstring) : is_canonical s = true → s !! 8 = Some hyphen.
Proof.
  unfold is_canonical. intros [Hlen Hall]%andb_true_iff.
  apply Nat.eqb_eq in Hlen.
  destruct (s !! 8) as [c|] eqn:Hc.
  - rewrite forallb_forall in Hall.
    assert (In (8, c) (imap pair s)) as Hin.
    { apply list_elem_of_In, list_elem_of_lookup. exists 8.
      by rewrite list_lookup_imap, Hc. }
    apply Hall in Hin. cbn in Hin. apply N.eqb_eq in Hin. by subst c.
  - apply lookup_ge_None in Hc. lia.
Qed.

Lemma canonical_valid (s : jsstring) :
  is_canonical s = true → isInvalidId (VStr s) = false.
Proof.
  intros Hc. apply isInvalidId_string.
  pose proof (canonical_length s Hc) as Hlen.
  pose proof (canonical_hyphen s Hc) as Hhy.
  assert (hyphen ∈ s) as Hin by (apply list_elem_of_lookup; eauto).
  repeat split.
  - intros ->. discriminate.
  - lia.
  - done.
  - intros Hall. rewrite List.Forall_forall in Hall.
    apply list_elem_of_In, Hall in Hin. by rewrite hyphen_not_letter in Hin.
Qed.

(** ** The lookup built by the merge *)

Lemma existingPlayerMap_snoc (ps : list obj) (p : obj) (k : val) :
  existingPlayerMap (ps ++ [p]) k =
  if decide (k = get p "id") then Some (length ps) else existingPlayerMap ps k.
Proof.
  unfold existingPlayerMap. rewrite imap_app, foldl_app. cbn.
  unfold Map_set at 1. by rewrite Nat.add_0_r.
Qed.

Lemma existingPlayerMap_Some (ps : list obj) (k : val) (i : nat) :
  existingPlayerMap ps k = Some i ↔
  (∃ p, ps !! i = Some p ∧ get p "id" = k)
  ∧ ∀ j q, i < j → ps !! j = Some q → get q "id" ≠ k.
Proof.
  revert i. induction ps as [|p ps IH] using rev_ind; intros i.
  - cbn. split; [done|]. by intros [(p & Hp & _) _].
  - rewrite existingPlayerMap_snoc. case_decide as Hk.
    + split.
      * intros [= <-]. split.
        -- exists p. by rewrite list_lookup_middle.
        -- intros j q Hj Hq. apply lookup_lt_Some in Hq.
           rewrite length_app in Hq. cbn in Hq. lia.
      * intros [(q & Hq & Hid) Hlast]. f_equal.
        pose proof (lookup_lt_Some _ _ _ Hq) as Hlt.
        rewrite length_app in Hlt. cbn in Hlt.
        destruct (decide (i = length ps)) as [->|Hne]; [done|].
        exfalso. apply (Hlast (length ps) p); [lia| |done].
        by rewrite list_lookup_middle.
    + rewrite IH. split.
      * intros [(q & Hq & Hid) Hlast]. split.
        -- exists q. by rewrite lookup_app_l by by eapply lookup_lt_Some.
        -- intros j q' Hj Hq'.
           destruct (decide (j < length ps)) as [Hlt|Hge].
           ++ rewrite lookup_app_l in Hq' by done. by eapply Hlast.
           ++ rewrite lookup_app_r in Hq' by lia.
              destruct (j - length ps) as [|n] eqn:E; [|by destruct n].
              cbn in Hq'. injection Hq' as <-. congruence.
      * intros [(q & Hq & Hid) Hlast].
        assert (i < length ps) as Hlt.
        { pose proof (lookup_lt_Some _ _ _ Hq) as Hlt.
          rewrite length_app in Hlt. cbn in Hlt.
          destruct (decide (i = length ps)) as [->|]; [|lia].
          rewrite list_lookup_middle in Hq by done.
          injection Hq as <-. congruence. }
        rewrite lookup_app_l in Hq by done. split; [eauto|].
        intros j q' Hj Hq'. apply (Hlast j q' Hj).
        by rewrite lookup_app_l by by eapply lookup_lt_Some.
Qed.

Lemma existingPlayerMap_None (ps : list obj) (k : val) :
  existingPlayerMap ps k = None ↔ ∀ p, p ∈ ps → get p "id" ≠ k.
Proof.
  induction ps as [|p ps IH] using rev_ind.
  - cbn. split; [|done]. intros _ p Hp. by apply elem_of_nil in Hp.
  - rewrite existingPlayerMap_snoc. case_decide as Hk.
    + split; [done|]. intros H. exfalso. apply (H p); [|done].
      apply elem_of_app. right. by apply list_elem_of_singleton.
    + rewrite IH. split.
      * intros H q [Hq|Hq%list_elem_of_singleton]%elem_of_app; [by apply H|].
        subst q. congruence.
      * intros H q Hq. apply H, elem_of_app. by left.
Qed.

(** ** Reading and writing properties *)

Lemma get_insert_eq (o : obj) (k : string) (v : val) : get (<[k:=v]> o) k = v.
Proof. unfold get. by rewrite lookup_insert_eq. Qed.

Lemma get_insert_ne (o : obj) (k k' : string) (v : val) :
  k ≠ k' → get (<[k:=v]> o) k' = get o k'.
Proof. intros H. unfold get. by rewrite lookup_insert_ne. Qed.

Lemma get_delete_ne (o : obj) (k k' : string) :
  k ≠ k' → get (delete k o) k' = get o k'.
Proof. intros H. unfold get. by rewrite lookup_delete_ne. Qed.

Lemma get_assign_source (target source : obj) (k : string) (v : val) :
  source !! k = Some v → get (assign target source) k = v.
Proof.
  intros H. unfold get, assign.
  by rewrite (lookup_union_Some_l source target k v H).
Qed.

Lemma lookup_assign_target (target source : obj) (k : string) :
  source !! k = None → assign target source !! k = target !! k.
Proof. intros H. unfold assign. by rewrite lookup_union_r. Qed.

Lemma get_assign_target (target source : obj) (k : string) :
  source !! k = None → get (assign target source) k = get target k.
Proof. intros H. unfold get. by rewrite lookup_assign_target. Qed.

Ltac get_simpl :=
  repeat first
    [ rewrite get_insert_eq
    | rewrite get_insert_ne by done
    | rewrite get_delete_ne by done
    | rewrite lookup_insert_eq
    | rewrite lookup_insert_ne by done
    | rewrite lookup_delete_eq
    | rewrite lookup_delete_ne by done ].

(** A key of an explicit list of keys. *)
Ltac key_listed := rewrite ?elem_of_cons; tauto.

(** A decidable statement about concrete data, settled by evaluating its
    decision procedure; [refute_by_computation H] closes a goal whose
    hypothesis [H] evaluates to false. *)
Ltac decide_by_computation :=
  match goal with
  | |- ?P =>
      let E := fresh in
      assert (bool_decide P = true) as E by (vm_compute; reflexivity);
      exact (bool_decide_eq_true_1 P E)
  end.

Ltac refute_by_computation H :=
  match type of H with
  | ?P =>
      let E := fresh in
      assert (bool_decide P = false) as E by (vm_compute; reflexivity);
      exact (False_rect _ (bool_decide_eq_false_1 P E H))
  end.

(** ** One turn of the merge loop *)

Lemma mergeOne_length m (ps : list obj) r :
  length ps ≤ length (mergeOne m ps r).
Proof.
  unfold mergeOne. destruct (isInvalidId _); [done|].
  destruct (m _) as [i|].
  - destruct (ps !! i); [by rewrite length_insert|done].
  - rewrite length_app. lia.
Qed.

Lemma mergeFold_length m (l ps : list obj) :
  length ps ≤ length (foldl (mergeOne m) ps l).
Proof.
  revert ps. induction l as [|r l IH]; intros ps; [done|]. cbn.
  etrans; [apply (mergeOne_length m ps r)|apply IH].
Qed.

Lemma mergeOne_untouched m (ps : list obj) r i :
  i < length ps →
  (isInvalidId (get r "id") = false → m (get r "id") ≠ Some i) →
  mergeOne m ps r !! i = ps !! i.
Proof.
  intros Hi Hm. unfold mergeOne.
  destruct (isInvalidId _); [done|]. specialize (Hm eq_refl).
  destruct (m _) as [j|].
  - destruct (ps !! j); [|done]. apply list_lookup_insert_ne. congruence.
  - by apply lookup_app_l.
Qed.

Lemma mergeFold_untouched m (l ps : list obj) i :
  i < length ps →
  (∀ r, r ∈ l → isInvalidId (get r "id") = false → m (get r "id") ≠ Some i) →
  foldl (mergeOne m) ps l !! i = ps !! i.
Proof.
  revert ps. induction l as [|r l IH]; intros ps Hi Hm; [done|]. cbn.
  rewrite IH.
  - apply mergeOne_untouched; [done|]. apply Hm. by left.
  - pose proof (mergeOne_length m ps r). lia.
  - intros r' Hr'. apply Hm. by right.
Qed.

Lemma mergeOne_hit m (ps : list obj) r i p :
  isInvalidId (get r "id") = false →
  m (get r "id") = Some i →
  ps !! i = Some p →
  mergeOne m ps r = <[i := mergeExisting p r]> ps.
Proof. intros Hv Hm Hp. unfold mergeOne. by rewrite Hv, Hm, Hp. Qed.

Lemma reports_not_drafted_bool (r : obj) :
  reports_not_drafted r → reportsNotDrafted r = true.
Proof.
  unfold reportsNotDrafted, get. intros [H|H].
  - unfold get in H. by rewrite H.
  - by rewrite H.
Qed.

Lemma mergeExisting_precedence (p r : obj) :
  truthy (get p "drafted") = true →
  reportsNotDrafted r = true →
  draft_kept p (mergeExisting p r).
Proof.
  intros Hd Hr. unfold mergeExisting. rewrite Hd, Hr. cbn [andb].
  unfold draft_kept. by get_simpl.
Qed.

Lemma draft_kept_refl (p : obj) : get p "drafted" = VBool true → draft_kept p p.
Proof. by intros H. Qed.

(** Draft precedence on the loop itself. *)
Lemma mergeLoop_draft_precedence (ps pre post : list obj) (r : obj) (i : nat) (p : obj) :
  (∀ r', r' ∈ pre ++ post → get r' "id" ≠ get r "id") →
  isInvalidId (get r "id") = false →
  ps !! i = Some p →
  get p "id" = get r "id" →
  get p "drafted" = VBool true →
  reports_not_drafted r →
  ∃ p', mergeLoop ps (pre ++ r :: post) !! i = Some p' ∧ draft_kept p p'.
Proof.
  intros Huniq Hv Hp Hid Hd Hr. unfold mergeLoop.
  set (m := existingPlayerMap ps).
  assert (∀ r', r' ∈ pre ++ post → m (get r' "id") ≠ Some i) as Hother.
  { intros r' Hr' Hm. apply existingPlayerMap_Some in Hm as [(q & Hq & Hqid) _].
    apply (Huniq r' Hr'). congruence. }
  pose proof (lookup_lt_Some _ _ _ Hp) as Hi.
  rewrite foldl_app. cbn [foldl].
  set (ps1 := foldl (mergeOne m) ps pre).
  assert (ps1 !! i = Some p) as Hp1.
  { unfold ps1. rewrite mergeFold_untouched; [done..|].
    intros r' Hr' _. apply Hother, elem_of_app. by left. }
  assert (i < length (mergeOne m ps1 r)) as Hi2.
  { pose proof (mergeOne_length m ps1 r). apply lookup_lt_Some in Hp1. lia. }
  rewrite mergeFold_untouched; [|done|].
  2:{ intros r' Hr' _. apply Hother, elem_of_app. by right. }
  destruct (decide (m (get r "id") = Some i)) as [Hm|Hm].
  - rewrite (mergeOne_hit m ps1 r i p) by done.
    rewrite list_lookup_insert_eq by by eapply lookup_lt_Some.
    eexists. split; [done|]. apply mergeExisting_precedence.
    + by rewrite Hd.
    + by apply reports_not_drafted_bool.
  - rewrite mergeOne_untouched; [|by eapply lookup_lt_Some|done].
    exists p. split; [done|]. by apply draft_kept_refl.
Qed.

(** ** Merging the same snapshot again *)

Lemma reportsNotDrafted_falsy (r : obj) :
  reportsNotDrafted r = true → truthy (get r "drafted") = false.
Proof.
  unfold reportsNotDrafted, strict_eq. intros [H|H]%orb_true_iff.
  - by apply negb_true_iff.
  - apply bool_decide_eq_true in H. by rewrite H.
Qed.

Lemma assign_twice (p r : obj) : assign (assign p r) r = assign p r.
Proof.
  unfold assign. by rewrite (assoc_L (∪)), (idemp_L (∪)).
Qed.

Lemma mergeExisting_self (r : obj) : mergeExisting r r = r.
Proof.
  unfold mergeExisting.
  destruct (reportsNotDrafted r) eqn:Hr.
  - rewrite (reportsNotDrafted_falsy r Hr). cbn. unfold assign. apply (idemp_L (∪)).
  - rewrite andb_false_r. unfold assign. apply (idemp_L (∪)).
Qed.

Lemma mergeExisting_idem (p r : obj) :
  mergeExisting (mergeExisting p r) r = mergeExisting p r.
Proof.
  unfold mergeExisting.
  destruct (truthy (get p "drafted") && reportsNotDrafted r) eqn:Hc.
  - apply andb_true_iff in Hc as [Hd Hr].
    get_simpl. cbn [truthy andb]. rewrite Hr.
    apply map_eq. intros k. unfold assign.
    destruct (decide (k = "draftedDate")) as [->|?]; [by get_simpl|].
    destruct (decide (k = "draftNotes")) as [->|?]; [by get_simpl|].
    destruct (decide (k = "fantasyOwner")) as [->|?]; [by get_simpl|].
    destruct (decide (k = "drafted")) as [->|?]; [by get_simpl|].
    rewrite !lookup_insert_ne by done.
    rewrite !lookup_union, !lookup_insert_ne by done.
    rewrite lookup_union. by destruct (r !! k), (p !! k).
  - replace (truthy (get (assign p r) "drafted") && reportsNotDrafted r) with false.
    + apply assign_twice.
    + symmetry. destruct (reportsNotDrafted r) eqn:Hr; [|apply andb_false_r].
      rewrite andb_true_r in Hc |- *.
      destruct (r !! "drafted") as [v|] eqn:Hv.
      * rewrite (get_assign_source p r "drafted" v Hv).
        apply reportsNotDrafted_falsy in Hr. unfold get in Hr. by rewrite Hv in Hr.
      * by rewrite get_assign_target.
Qed.

Lemma mergeExisting_id (p r : obj) :
  is_Some (r !! "id") → get (mergeExisting p r) "id" = get r "id".
Proof.
  intros [v Hv]. unfold mergeExisting.
  destruct (_ && _); get_simpl; rewrite (get_assign_source p r "id" v Hv);
    unfold get; by rewrite Hv.
Qed.

Lemma valid_has_id (r : obj) : isInvalidId (get r "id") = false → is_Some (r !! "id").
Proof.
  unfold get. destruct (r !! "id"); [eauto|]. cbn. discriminate.
Qed.

Lemma existingPlayerMap_lt (ps : list obj) (k : val) (i : nat) :
  existingPlayerMap ps k = Some i → i < length ps.
Proof.
  intros [(p & Hp & _) _]%existingPlayerMap_Some. by eapply lookup_lt_Some.
Qed.

(** A turn of the loop keeps the identifier of every player that was there
    when the lookup was built. *)
Lemma mergeOne_ids (ps0 ps : list obj) (r : obj) :
  ids (take (length ps0) ps) = ids ps0 →
  ids (take (length ps0) (mergeOne (existingPlayerMap ps0) ps r)) = ids ps0.
Proof.
  intros Hids. unfold mergeOne.
  destruct (isInvalidId _) eqn:Hv; [done|].
  destruct (existingPlayerMap ps0 _) as [i|] eqn:Hm.
  - destruct (ps !! i) as [p|] eqn:Hp; [|done].
    rewrite <- Hids. unfold ids.
    apply existingPlayerMap_Some in Hm as [(q & Hq & Hqid) _].
    pose proof (lookup_lt_Some _ _ _ Hq) as Hi.
    rewrite take_insert_lt by done.
    rewrite list_fmap_insert.
    apply list_insert_id.
    rewrite list_lookup_fmap, lookup_take_lt, Hp by done. cbn.
    rewrite mergeExisting_id by by apply valid_has_id.
    f_equal. rewrite <- Hqid.
    assert (ids (take (length ps0) ps) !! i = ids ps0 !! i) as E by by rewrite Hids.
    unfold ids in E. rewrite !list_lookup_fmap, lookup_take_lt, Hp, Hq in E by done.
    cbn in E. by injection E.
  - rewrite take_app_le; [done|].
    assert (length (ids (take (length ps0) ps)) = length (ids ps0)) as E by by rewrite Hids.
    unfold ids in E. rewrite !length_fmap, length_take in E. lia.
Qed.

Lemma mergeFold_ids (ps0 l ps : list obj) :
  ids (take (length ps0) ps) = ids ps0 →
  ids (take (length ps0) (foldl (mergeOne (existingPlayerMap ps0)) ps l)) = ids ps0.
Proof.
  revert ps. induction l as [|r l IH]; intros ps H; [done|]. cbn.
  by apply IH, mergeOne_ids.
Qed.

(** What lies beyond the original collection after the loop was appended by
    it: a valid record of the snapshot that the lookup does not know. *)
Lemma mergeFold_new m (l ps : list obj) (j : nat) (q : obj) :
  (∀ k i, m k = Some i → i < length ps) →
  length ps ≤ j →
  foldl (mergeOne m) ps l !! j = Some q →
  q ∈ l ∧ isInvalidId (get q "id") = false ∧ m (get q "id") = None.
Proof.
  revert ps. induction l as [|r l IH]; intros ps Hm Hj Hq.
  - cbn in Hq. apply lookup_lt_Some in Hq. lia.
  - cbn in Hq.
    destruct (decide (j < length (mergeOne m ps r))) as [Hlt|Hge].
    + (* appended by this turn *)
      rewrite mergeFold_untouched in Hq; [|done|].
      2:{ intros r' _ _ Hr'. apply Hm in Hr'. lia. }
      unfold mergeOne in Hq, Hlt.
      destruct (isInvalidId (get r "id")) eqn:Hv.
      { apply lookup_lt_Some in Hq. lia. }
      destruct (m (get r "id")) as [i|] eqn:Hmr.
      { destruct (ps !! i).
        - rewrite length_insert in Hlt. lia.
        - lia. }
      rewrite length_app in Hlt. cbn in Hlt.
      assert (j = length ps) as -> by lia.
      rewrite list_lookup_middle in Hq by done. injection Hq as <-.
      split; [by left|done].
    + destruct (IH (mergeOne m ps r)) as (Hin & Hv & Hn); [| |done|].
      * intros k i Hk. pose proof (mergeOne_length m ps r).
        apply Hm in Hk. lia.
      * lia.
      * split; [by right|done].
Qed.

Lemma valid_ids_app (l1 l2 : list obj) :
  valid_ids (l1 ++ l2) = valid_ids l1 ++ valid_ids l2.
Proof. unfold valid_ids. by rewrite filter_app, fmap_app. Qed.

Lemma valid_ids_elem (l : list obj) (r : obj) :
  r ∈ l → isInvalidId (get r "id") = false → get r "id" ∈ valid_ids l.
Proof.
  intros Hin Hv. unfold valid_ids. apply list_elem_of_fmap.
  exists r. split; [done|]. by apply list_elem_of_filter.
Qed.

Lemma valid_ids_split (s : list obj) (r : obj) :
  NoDup (valid_ids s) → r ∈ s → isInvalidId (get r "id") = false →
  ∃ pre post, s = pre ++ r :: post
    ∧ ∀ r', r' ∈ pre ++ post → isInvalidId (get r' "id") = false →
            get r' "id" ≠ get r "id".
Proof.
  intros Hnd Hin Hv. apply list_elem_of_split in Hin as (pre & post & ->).
  exists pre, post. split; [done|].
  rewrite valid_ids_app in Hnd.
  replace (r :: post) with ([r] ++ post) in Hnd by done.
  rewrite valid_ids_app in Hnd.
  assert (valid_ids [r] = [get r "id"]) as E.
  { unfold valid_ids. rewrite filter_cons_True by done. done. }
  rewrite E in Hnd.
  apply NoDup_app in Hnd as (_ & Hpre & Hnd).
  cbn in Hnd. apply NoDup_cons in Hnd as [Hpost _].
  intros r' [Hr'|Hr']%elem_of_app Hv' Heq.
  - apply (Hpre (get r' "id")); [by apply valid_ids_elem|].
    rewrite Heq. by left.
  - apply Hpost. rewrite <- Heq. by apply valid_ids_elem.
Qed.

Lemma foldl_fixpoint {A B} (f : A → B → A) (x : A) (l : list B) :
  (∀ b, b ∈ l → f x b = x) → foldl f x l = x.
Proof.
  induction l as [|b l IH]; intros H; [done|]. cbn.
  rewrite H by by left. apply IH. intros b' Hb'. apply H. by right.
Qed.

Lemma mergeLoop_settled (ps s : list obj) (r : obj) :
  NoDup (valid_ids s) → r ∈ s →
  mergeOne (existingPlayerMap (mergeLoop ps s)) (mergeLoop ps s) r = mergeLoop ps s.
Proof.
  intros Hnd Hin.
  destruct (isInvalidId (get r "id")) eqn:Hv.
  { unfold mergeOne. by rewrite Hv. }
  destruct (valid_ids_split s r Hnd Hin Hv) as (pre & post & -> & Huniq).
  unfold mergeLoop. set (m := existingPlayerMap ps).
  rewrite foldl_app. cbn [foldl].
  set (x1 := foldl (mergeOne m) ps pre).
  set (F := foldl (mergeOne m) (mergeOne m x1 r) post).
  assert (length ps ≤ length x1) as Hx1 by apply mergeFold_length.
  assert (ids (take (length ps) F) = ids ps) as HidsF.
  { unfold F. replace (foldl (mergeOne m) (mergeOne m x1 r) post)
      with (foldl (mergeOne m) ps (pre ++ r :: post)).
    - apply mergeFold_ids. by rewrite firstn_all.
    - by rewrite foldl_app. }
  destruct (m (get r "id")) as [i|] eqn:Hm.
  - (* the record met a local player *)
    pose proof Hm as Hm'.
    apply existingPlayerMap_Some in Hm' as [(p & Hp & Hpid) Hlast].
    pose proof (lookup_lt_Some _ _ _ Hp) as Hi.
    assert (∀ r', r' ∈ pre ++ post → isInvalidId (get r' "id") = false →
                  m (get r' "id") ≠ Some i) as Hother.
    { intros r' Hr' Hv' Hm2.
      apply existingPlayerMap_Some in Hm2 as [(q & Hq & Hqid) _].
      apply (Huniq r' Hr' Hv'). congruence. }
    assert (x1 !! i = Some p) as Hp1.
    { unfold x1. rewrite mergeFold_untouched; [done..|].
      intros r' Hr'. apply Hother, elem_of_app. by left. }
    assert (F !! i = Some (mergeExisting p r)) as HF.
    { unfold F. rewrite (mergeOne_hit m x1 r i p) by done.
      rewrite mergeFold_untouched.
      - apply list_lookup_insert_eq. lia.
      - rewrite length_insert. lia.
      - intros r' Hr'. apply Hother, elem_of_app. by right. }
    assert (existingPlayerMap F (get r "id") = Some i) as Hm1.
    { apply existingPlayerMap_Some. split.
      - eexists. split; [done|]. apply mergeExisting_id. by apply valid_has_id.
      - intros j q Hj Hq.
        destruct (decide (j < length ps)) as [Hlt|Hge].
        + assert (ids (take (length ps) F) !! j = ids ps !! j) as E by by rewrite HidsF.
          unfold ids in E. rewrite !list_lookup_fmap, lookup_take_lt, Hq in E by done.
          destruct (ps !! j) as [q0|] eqn:Hq0; [|done]. cbn in E.
          injection E as E. rewrite E. by eapply Hlast.
        + unfold F in Hq.
          replace (foldl (mergeOne m) (mergeOne m x1 r) post)
            with (foldl (mergeOne m) ps (pre ++ r :: post)) in Hq
            by by rewrite foldl_app.
          apply mergeFold_new in Hq as (_ & _ & Hn); [congruence| |lia].
          intros k' i'. apply existingPlayerMap_lt. }
    rewrite (mergeOne_hit _ F r i _ Hv Hm1 HF).
    rewrite mergeExisting_idem. by apply list_insert_id.
  - (* the record was appended *)
    assert (mergeOne m x1 r = x1 ++ [r]) as Hpush.
    { unfold mergeOne. by rewrite Hv, Hm. }
    assert (∀ k i, m k = Some i → i < length (x1 ++ [r])) as Hbound.
    { intros k i Hk. apply existingPlayerMap_lt in Hk. rewrite length_app. lia. }
    assert (F !! length x1 = Some r) as HF.
    { unfold F. rewrite Hpush, mergeFold_untouched.
      - by apply list_lookup_middle.
      - rewrite length_app. cbn. lia.
      - intros r' _ _ Hk. apply existingPlayerMap_lt in Hk. lia. }
    assert (existingPlayerMap F (get r "id") = Some (length x1)) as Hm1.
    { apply existingPlayerMap_Some. split; [eauto|].
      intros j q Hj Hq. unfold F in Hq. rewrite Hpush in Hq.
      apply mergeFold_new in Hq as (Hqin & Hqv & _); [|done|].
      - apply Huniq; [|done]. apply elem_of_app. by right.
      - rewrite length_app. cbn. lia. }
    rewrite (mergeOne_hit _ F r _ _ Hv Hm1 HF).
    rewrite mergeExisting_self. by apply list_insert_id.
Qed.

Lemma mergeLoop_idempotent (ps s : list obj) :
  NoDup (valid_ids s) →
  mergeLoop (mergeLoop ps s) s = mergeLoop ps s.
Proof.
  intros Hnd. unfold mergeLoop at 1. apply foldl_fixpoint.
  intros r Hr. by apply mergeLoop_settled.
Qed.

(** ** Finding a player *)

Lemma findIndex_Some (id : val) (ps : list obj) (i : nat) :
  findIndex id ps = Some i ↔
  ∃ p, ps !! i = Some p ∧ get p "id" = id
       ∧ ∀ j q, ps !! j = Some q → j < i → get q "id" ≠ id.
Proof.
  unfold findIndex. split.
  - destruct (list_find _ ps) as [[i' p]|] eqn:E; [|done].
    intros [= <-]. apply list_find_Some in E. by exists p.
  - intros (p & Hp & Hid & Hfirst).
    assert (list_find (λ p, get p "id" = id) ps = Some (i, p)) as ->; [|done].
    by apply list_find_Some.
Qed.

Lemma findIndex_None (id : val) (ps : list obj) :
  findIndex id ps = None ↔ ∀ p, p ∈ ps → get p "id" ≠ id.
Proof.
  unfold findIndex. rewrite fmap_None, list_find_None, Forall_forall. done.
Qed.

Lemma first_stored_found (playerId : val) (ps : list obj) (i : nat) (p : obj) :
  first_stored_under playerId ps i p → findIndex playerId ps = Some i.
Proof.
  intros (Hp & Hid & Hfirst). apply findIndex_Some. exists p. eauto.
Qed.

(** ** The star *)

Lemma convertRow_keys (now : jsstring) (row r : obj) (k : string) :
  convertRow now row = Some r →
  k ∉ ["id"; "name"; "position"; "mlbTeam"; "notes"; "fantasyOwner";
       "drafted"; "draftNotes"; "addedDate"] →
  r !! k = None.
Proof.
  unfold convertRow. destruct (toString _) as [id|]; [|done]. cbn.
  intros [= <-] Hk.
  rewrite !lookup_insert_ne; [apply lookup_empty|..];
    intros <-; apply Hk; key_listed.
Qed.

Lemma convertRow_no_star (now : jsstring) (row r : obj) :
  convertRow now row = Some r → r !! "starred" = None.
Proof.
  intros H. apply (convertRow_keys now row r "starred" H).
  rewrite !elem_of_cons, elem_of_nil. intros H'. decompose [or] H'; done.
Qed.

Lemma mergeExisting_star (p r : obj) :
  r !! "starred" = None → mergeExisting p r !! "starred" = p !! "starred".
Proof.
  intros Hr. unfold mergeExisting.
  destruct (_ && _); get_simpl; by apply lookup_assign_target.
Qed.

Lemma mergeOne_star m (ps : list obj) (r : obj) (i : nat) (p : obj) :
  r !! "starred" = None → ps !! i = Some p →
  ∃ p', mergeOne m ps r !! i = Some p' ∧ p' !! "starred" = p !! "starred".
Proof.
  intros Hr Hp. unfold mergeOne.
  destruct (isInvalidId _); [eauto|].
  destruct (m _) as [j|].
  - destruct (ps !! j) as [q|] eqn:Hq; [|eauto].
    destruct (decide (j = i)) as [->|Hne].
    + rewrite list_lookup_insert_eq by by eapply lookup_lt_Some.
      eexists. split; [done|]. rewrite mergeExisting_star by done. congruence.
    + rewrite list_lookup_insert_ne by done. eauto.
  - rewrite lookup_app_l by by eapply lookup_lt_Some. eauto.
Qed.

Lemma mergeFold_star m (s ps : list obj) (i : nat) (p : obj) :
  Forall (λ r, r !! "starred" = None) s → ps !! i = Some p →
  ∃ p', foldl (mergeOne m) ps s !! i = Some p' ∧ p' !! "starred" = p !! "starred".
Proof.
  intros Hs. revert ps p. induction Hs as [|r s Hr _ IH]; intros ps p Hp; [eauto|].
  cbn. destruct (mergeOne_star m ps r i p Hr Hp) as (p1 & Hp1 & E1).
  destruct (IH _ _ Hp1) as (p2 & Hp2 & E2). exists p2. split; [done|congruence].
Qed.

(** The collection after a bulk load: untouched, or the merge of the
    converted rows. *)
Lemma loadFromSupabase_players clock resp (st : State) :
  players (loadFromSupabase clock resp st) = players st
  ∨ ∃ data supabasePlayers,
      resp = Resolved (Some data)
      ∧ Forall2 (λ ir r, convertRow (clock ir.1) ir.2 = Some r)
          (imap pair data) supabasePlayers
      ∧ players (loadFromSupabase clock resp st)
        = mergeLoop (players st) supabasePlayers.
Proof.
  unfold loadFromSupabase. destruct (supabase st); [|by left].
  destruct resp as [[data|]| |]; try by left.
  destruct (0 <? length data); [|by left].
  destruct (mapM _ _) as [supabasePlayers|] eqn:E; [|by left].
  right. exists data, supabasePlayers. split; [done|]. split; [|done].
  by apply mapM_Some.
Qed.

Lemma converted_rows (clock : nat → jsstring) (data supabasePlayers : list obj) (r : obj) :
  Forall2 (λ ir r, convertRow (clock ir.1) ir.2 = Some r)
    (imap pair data) supabasePlayers →
  r ∈ supabasePlayers →
  ∃ j row, data !! j = Some row ∧ convertRow (clock j) row = Some r.
Proof.
  intros E Hr.
  destruct (proj1 (list_elem_of_lookup _ _) Hr) as [j Hj].
  destruct (Forall2_lookup_r _ _ _ _ _ E Hj) as ([n x] & Hx & Hconv).
  rewrite list_lookup_imap in Hx.
  apply fmap_Some in Hx as (x' & Hx' & [= -> ->]). eauto.
Qed.

Lemma loadFromSupabase_star clock resp (st : State) (i : nat) (p : obj) :
  players st !! i = Some p →
  ∃ p', players (loadFromSupabase clock resp st) !! i = Some p'
        ∧ p' !! "starred" = p !! "starred".
Proof.
  intros Hp.
  destruct (loadFromSupabase_players clock resp st)
    as [->|(data & supabasePlayers & _ & E & ->)]; [eauto|].
  apply mergeFold_star; [|done].
  apply Forall_forall. intros r Hr.
  destruct (converted_rows _ _ _ _ E Hr) as (j & row & _ & Hc).
  by eapply convertRow_no_star.
Qed.

Lemma handleRealtimeUpdate_star clock row (st : State) (i : nat) (p : obj) :
  players st !! i = Some p →
  ∃ p', players (handleRealtimeUpdate clock row st).2 !! i = Some p'
        ∧ p' !! "starred" = p !! "starred".
Proof.
  intros Hp. unfold handleRealtimeUpdate.
  destruct (convertRow _ _) as [u|] eqn:Hu; [|eauto].
  destruct (findIndex _ _) as [j|]; [|eauto].
  destruct (players st !! j) as [q|] eqn:Hq; [|eauto].
  destruct (hasChanges q u); [|eauto]. cbn.
  destruct (decide (j = i)) as [->|Hne].
  - rewrite list_lookup_insert_eq by by eapply lookup_lt_Some.
    eexists. split; [done|].
    rewrite lookup_assign_target by by eapply convertRow_no_star. congruence.
  - rewrite list_lookup_insert_ne by done. eauto.
Qed.


(** ** The draft shape *)

Lemma or_else_falsy (a b : val) : truthy a = false → or_else a b = b.
Proof. unfold or_else. by intros ->. Qed.

Lemma or_else_truthy (a b : val) : truthy a = true → or_else a b = a.
Proof. unfold or_else. by intros ->. Qed.

Lemma convertRow_shape (now : jsstring) (row r : obj) :
  convertRow now row = Some r → row_consistent row → converted_shape r.
Proof.
  intros Hc Hrow. split.
  { apply (convertRow_keys now row r "draftedDate" Hc).
    rewrite !elem_of_cons, elem_of_nil. intros H'. decompose [or] H'; done. }
  unfold convertRow in Hc. destruct (toString _) as [id|]; [|done].
  cbn in Hc. injection Hc as <-.
  destruct Hrow as [(Hd & owner & Ho & Hne)|(Hd & Ho & Hn)].
  - left. get_simpl. rewrite Hd, Ho. split; [done|].
    exists owner. split; [|done]. rewrite or_else_truthy; [done|].
    cbn. by rewrite bool_decide_eq_false_2.
  - right. get_simpl. by rewrite !or_else_falsy.
Qed.

Lemma converted_shaped (r : obj) : converted_shape r → shaped r.
Proof.
  intros (Hdate & [(Hd & owner & Ho & Hne)|(Hd & Ho & Hn)]).
  - split; [exists true|split]; unfold get; rewrite ?Hd, ?Ho; cbn; try done.
    intros _. by exists owner.
  - split; [exists false|split]; unfold get; rewrite ?Hd, ?Ho, ?Hn; cbn; done.
Qed.

Lemma mergeExisting_shaped (p r : obj) :
  shaped p → converted_shape r → shaped (mergeExisting p r).
Proof.
  intros [[b Hb] [Ht Hf]] (Hdate & Hr). unfold mergeExisting. rewrite Hb.
  destruct Hr as [(Hd & owner & Ho & Hne)|(Hd & Ho & Hn)].
  - (* the remote record is drafted: its owner stands *)
    assert (reportsNotDrafted r = false) as ->.
    { unfold reportsNotDrafted, get. by rewrite Hd. }
    rewrite andb_false_r. split; [|split].
    + exists true. by apply get_assign_source.
    + intros _. exists owner. split; [|done]. by apply get_assign_source.
    + intros E. by rewrite (get_assign_source p r "drafted" _ Hd) in E.
  - assert (reportsNotDrafted r = true) as ->.
    { unfold reportsNotDrafted, get. by rewrite Hd. }
    rewrite andb_true_r. destruct b; cbn [truthy].
    + (* precedence of the local draft *)
      split; [|split]; get_simpl.
      * by exists true.
      * intros _. by apply Ht.
      * done.
    + split; [|split].
      * exists false. by apply get_assign_source.
      * intros E. by rewrite (get_assign_source p r "drafted" _ Hd) in E.
      * intros _. rewrite (get_assign_source p r _ _ Ho).
        rewrite (get_assign_source p r _ _ Hn).
        rewrite lookup_assign_target by done.
        split; [done|]. split; [done|]. by apply Hf.
Qed.

Lemma mergeOne_shaped m (ps : list obj) (r : obj) :
  Forall shaped ps → converted_shape r → Forall shaped (mergeOne m ps r).
Proof.
  intros Hps Hr. unfold mergeOne.
  destruct (isInvalidId _); [done|].
  destruct (m _) as [i|].
  - destruct (ps !! i) as [p|] eqn:Hp; [|done].
    apply Forall_insert; [done|]. apply mergeExisting_shaped; [|done].
    by eapply Forall_lookup_1.
  - apply Forall_app. split; [done|]. apply Forall_singleton.
    by apply converted_shaped.
Qed.

Lemma mergeLoop_shaped (ps s : list obj) :
  Forall shaped ps → Forall converted_shape s → Forall shaped (mergeLoop ps s).
Proof.
  unfold mergeLoop. generalize (existingPlayerMap ps). intros m Hps Hs.
  revert ps Hps. induction Hs as [|r s Hr _ IH]; intros ps Hps; [done|].
  cbn. by apply IH, mergeOne_shaped.
Qed.

Lemma newPlayer_shaped uuid addedDate playerData :
  shaped (newPlayer uuid addedDate playerData).
Proof.
  unfold newPlayer. split; [exists false; by get_simpl|].
  split; get_simpl; [done|]. intros _. by get_simpl.
Qed.

Lemma run_op_shaped (st : State) (op : operation) :
  shape_keeping op → Forall shaped (players st) →
  Forall shaped (players (run_op st op)).
Proof.
  intros Hop Hst. destruct op as [uuid clock pd|clock pid od|clock pid|clock pid resp
    |clock resp|clock row|clock row|clock row]; cbn [run_op].
  - (* add *)
    cbn. apply Forall_app. split; [done|]. apply Forall_singleton, newPlayer_shaped.
  - (* draft *)
    unfold handleDraftPlayer.
    destruct (ownerMissing od) eqn:Hmiss; [done|].
    unfold draftPlayer. destruct (findIndex _ _) as [i|]; [|done].
    destruct (players st !! i) as [p|] eqn:Hp; [|done].
    unfold ownerMissing in Hmiss.
    destruct (od_owner od) as [owner|]; [|done].
    apply orb_false_iff in Hmiss as [_ Htrim]. apply bool_decide_eq_false in Htrim.
    cbn. apply Forall_insert; [done|].
    split; [exists true; by get_simpl|]. split; get_simpl; [|done].
    intros _. by exists (trim owner).
  - (* undraft *)
    unfold undraftPlayer. destruct (findIndex _ _) as [i|]; [|done].
    destruct (players st !! i) as [p|] eqn:Hp; [|done].
    cbn. apply Forall_insert; [done|].
    split; [exists false; by get_simpl|]. split; get_simpl; [done|].
    intros _. by get_simpl.
  - (* delete *)
    unfold deletePlayer. destruct (findIndex _ _); [|done].
    assert (Forall shaped (filter (λ p, get p "id" ≠ pid) (players st))) as H.
    { apply Forall_forall. intros p [_ Hp]%list_elem_of_filter.
      by eapply Forall_forall in Hst. }
    by destruct (supabase st).
  - (* bulk load *)
    destruct (loadFromSupabase_players clock resp st)
      as [->|(data & supabasePlayers & -> & E & ->)]; [done|].
    apply mergeLoop_shaped; [done|].
    cbn in Hop. apply Forall_forall. intros r Hr.
    destruct (converted_rows _ _ _ _ E Hr) as (j & row & Hrow & Hc).
    apply (convertRow_shape _ _ _ Hc). by eapply (Forall_lookup_1 _ _ _ _ Hop).
  - (* insert event *)
    unfold handleRealtimeInsert. destruct (convertRow _ _) as [r|] eqn:E; [|done].
    destruct (findIndex _ _); [done|]. cbn.
    apply Forall_app. split; [done|]. apply Forall_singleton.
    by eapply converted_shaped, convertRow_shape.
  - (* update event *)
    unfold handleRealtimeUpdate. destruct (convertRow _ _) as [u|] eqn:E; [|done].
    destruct (findIndex _ _) as [i|]; [|done].
    destruct (players st !! i) as [p|] eqn:Hp; [|done].
    destruct (hasChanges p u); [|done]. cbn.
    apply Forall_insert; [done|].
    destruct Hop as [Hrow Hd].
    destruct (convertRow_shape _ _ _ E Hrow) as (_ & [(Hud & owner & Ho & Hne)|(Hud & _)]).
    + split; [exists true; by apply get_assign_source|]. split.
      * intros _. exists owner. split; [|done]. by apply get_assign_source.
      * intros C. by rewrite (get_assign_source p u "drafted" _ Hud) in C.
    + exfalso. unfold convertRow in E. destruct (toString _); [|done].
      cbn in E. injection E as <-. revert Hud. get_simpl. by rewrite Hd.
  - (* delete event *)
    unfold handleRealtimeDelete. destruct (toString _); [|done].
    destruct (findIndex _ _) as [i|]; [|done]. cbn.
    by apply Forall_delete.
Qed.

(** ** Reordering the rankings *)

Lemma filter_throw_spec {A} (f : A → option bool) (l l' : list A) :
  filter_throw f l = Some l' → l' = filter (λ x, f x = Some true) l.
Proof.
  revert l'. induction l as [|x l IH]; intros l' Hl; cbn [filter_throw] in Hl.
  - by injection Hl as <-.
  - destruct (f x) as [b|] eqn:Hb; [|done]. cbn in Hl.
    destruct (filter_throw f l) as [rest|]; [|done]. cbn in Hl.
    injection Hl as <-. rewrite (IH rest eq_refl).
    destruct b.
    + by rewrite filter_cons_True.
    + rewrite filter_cons_False; [done|]. by rewrite Hb.
Qed.

Lemma filter_filter_and {A} (P Q : A → Prop) `{∀ x, Decision (P x)}
    `{∀ x, Decision (Q x)} (l : list A) :
  filter P (filter Q l) = filter (λ x, P x ∧ Q x) l.
Proof.
  induction l as [|x l IH]; [done|].
  destruct (decide (Q x)) as [HQ|HQ].
  - rewrite (filter_cons_True Q) by done.
    destruct (decide (P x)) as [HP|HP].
    + rewrite !filter_cons_True by done. by rewrite IH.
    + rewrite !filter_cons_False by tauto. done.
  - rewrite (filter_cons_False Q) by done.
    rewrite filter_cons_False by tauto. done.
Qed.

Lemma filter_ext_elem {A} (P Q : A → Prop) `{∀ x, Decision (P x)}
    `{∀ x, Decision (Q x)} (l : list A) :
  (∀ x, x ∈ l → P x ↔ Q x) → filter P l = filter Q l.
Proof.
  induction l as [|x l IH]; intros H'; [done|].
  assert (filter P l = filter Q l) as E.
  { apply IH. intros y Hy. apply H'. by right. }
  destruct (decide (P x)) as [HP|HP].
  - rewrite !filter_cons_True; [by rewrite E|by apply H'; [left|]|done].
  - rewrite !filter_cons_False; [done| |done].
    intros HQ. apply HP, H'; [by left|done].
Qed.

Lemma filter_all {A} (P : A → Prop) `{∀ x, Decision (P x)} (l : list A) :
  (∀ x, P x) → filter P l = l.
Proof.
  intros HP. induction l as [|x l IH]; [done|].
  rewrite filter_cons_True by done. by rewrite IH.
Qed.

Lemma filter_complement_length {A} (P : A → Prop) `{∀ x, Decision (P x)} (l : list A) :
  length (filter P l) + length (filter (λ x, ¬ P x) l) = length l.
Proof.
  induction l as [|x l IH]; [done|].
  destruct (decide (P x)).
  - rewrite filter_cons_True by done. rewrite filter_cons_False by tauto.
    cbn. lia.
  - rewrite filter_cons_False by done. rewrite filter_cons_True by done.
    cbn. lia.
Qed.

(** What [getFilteredRankings] keeps depends on the player of the entry
    alone. *)
Lemma getFilteredRankings_by_player toLowerCase (st : State) (visible : list ranking) :
  getFilteredRankings toLowerCase st = Some visible →
  ∃ shown : val → bool,
    visible = filter (λ r, shown (rk_player_id r) = true) (rankings st).
Proof.
  unfold getFilteredRankings.
  set (matches := λ id : val,
         match findPlayer id (players st) with
         | None => Some false
         | Some player =>
             or_throw (fieldIncludes toLowerCase player "name"
                         (toLowerCase (rankingsSearchTerm st)))
               (or_throw (fieldIncludes toLowerCase player "position"
                            (toLowerCase (rankingsSearchTerm st)))
                  (or_throw (fieldIncludes toLowerCase player "mlbTeam"
                               (toLowerCase (rankingsSearchTerm st)))
                     (fieldIncludes toLowerCase player "notes"
                        (toLowerCase (rankingsSearchTerm st)))))
         end).
  set (undrafted := λ id : val,
         match findPlayer id (players st) with
         | None => false
         | Some player => negb (truthy (get player "drafted"))
         end).
  intros Hv.
  assert (∃ searched, visible =
            (if hideDraftedInRankings st
             then filter (λ r, undrafted (rk_player_id r) = true) searched
             else searched)
          ∧ (searched = rankings st
             ∨ searched = filter (λ r, matches (rk_player_id r) = Some true)
                            (rankings st))) as (searched & -> & Hs).
  { destruct (bool_decide (rankingsSearchTerm st = [])).
    - cbn in Hv. exists (rankings st). split; [|by left].
      destruct (hideDraftedInRankings st); by injection Hv.
    - destruct (filter_throw _ (rankings st)) as [searched|] eqn:E; [|done].
      cbn in Hv. exists searched. split.
      + destruct (hideDraftedInRankings st); by injection Hv.
      + right. by apply filter_throw_spec in E. }
  destruct (hideDraftedInRankings st), Hs as [->| ->].
  - by exists undrafted.
  - exists (λ id, undrafted id && bool_decide (matches id = Some true)).
    rewrite filter_filter_and. apply filter_ext_elem. intros r _.
    rewrite andb_true_iff, bool_decide_eq_true. tauto.
  - exists (λ _, true). symmetry. by apply filter_all.
  - exists (λ id, bool_decide (matches id = Some true)).
    apply filter_ext_elem. intros r _. by rewrite bool_decide_eq_true.
Qed.

Lemma findRanking_Some (id : val) (rs : list ranking) (r : ranking) :
  findRanking id rs = Some r → r ∈ rs ∧ rk_id r = id.
Proof.
  unfold findRanking. destruct (list_find _ rs) as [[i r']|] eqn:E; [|done].
  intros [= <-]. apply list_find_Some in E as (Hi & Hid & _).
  split; [|done]. by eapply list_elem_of_lookup_2.
Qed.

Lemma findRanking_listed (id : val) (rs : list ranking) :
  id ∈ rk_id <$> rs → is_Some (findRanking id rs).
Proof.
  intros (r & -> & Hr)%list_elem_of_fmap. unfold findRanking.
  destruct (list_find (λ r0, rk_id r0 = rk_id r) rs) as [[i r']|] eqn:E; [by eexists|].
  apply list_find_None in E. by eapply Forall_forall in E.
Qed.

Lemma reorderedRankings_listed (visible : list ranking) (newOrder : list val) :
  newOrder ⊆ rk_id <$> visible →
  rk_id <$> reorderedRankings visible newOrder = newOrder
  ∧ Forall (λ r, r ∈ visible) (reorderedRankings visible newOrder).
Proof.
  unfold reorderedRankings. induction newOrder as [|id newOrder IH]; intros Hsub; [done|].
  destruct (findRanking_listed id visible) as [r Hr].
  { apply Hsub. by left. }
  cbn. rewrite Hr. cbn.
  apply findRanking_Some in Hr as [Hin Hid].
  destruct IH as [IH1 IH2].
  { intros x Hx. apply Hsub. by right. }
  split; [by rewrite Hid, IH1|by apply Forall_cons].
Qed.

Lemma fmap_NoDup_inj {A B} (f : A → B) (l : list A) (x y : A) :
  NoDup (f <$> l) → x ∈ l → y ∈ l → f x = f y → x = y.
Proof.
  induction l as [|a l IH]; intros Hnd Hx Hy Hf.
  - by apply elem_of_nil in Hx.
  - cbn in Hnd. apply NoDup_cons in Hnd as [Ha Hnd].
    apply elem_of_cons in Hx as [->|Hx], Hy as [->|Hy]; [done| | |by apply IH].
    + exfalso. apply Ha. rewrite Hf. by apply list_elem_of_fmap_2.
    + exfalso. apply Ha. rewrite <- Hf. by apply list_elem_of_fmap_2.
Qed.

Lemma nonFilteredRankings_hidden (shown : val → bool) (all reordered : list ranking) :
  let visible := filter (λ r, shown (rk_player_id r) = true) all in
  NoDup (rk_id <$> all) →
  Forall (λ r, r ∈ visible) reordered →
  nonFilteredRankings visible reordered all = filter (λ r, r ∉ visible) all.
Proof.
  intros visible Hnd Hro. unfold nonFilteredRankings.
  apply filter_ext_elem. intros r Hr. split.
  - intros [_ Hid] Hv. apply Hid, Exists_exists. by exists r.
  - intros Hv. split.
    + intros (r' & Hpid & Hr')%list_elem_of_fmap.
      eapply Forall_forall in Hro; [|done].
      apply list_elem_of_filter in Hro as [Hs _].
      apply Hv, list_elem_of_filter. split; [congruence|done].
    + intros (fr & Hfr & Hid)%Exists_exists. apply Hv.
      pose proof Hfr as [_ Hfr']%list_elem_of_filter.
      by rewrite <- (fmap_NoDup_inj rk_id all fr r Hnd Hfr' Hr Hid).
Qed.

Lemma newRankingData_ranks_from (clock : nat → jsstring) (listType : val)
    (final : list ranking) (k : nat) :
  nr_rank_index <$>
    imap (λ index ranking,
            NewRanking (rk_player_id ranking) listType (Z.of_nat (k + index) + 1)
              (Some (clock (k + index)))) final
  = Z.of_nat <$> seq (S k) (length final).
Proof.
  revert k. induction final as [|r final IH]; intros k; [done|].
  cbn. f_equal; [lia|]. rewrite <- (IH (S k)). f_equal.
  apply imap_ext. intros i x _. cbn. by rewrite Nat.add_succ_r.
Qed.

Lemma newRankingData_ranks clock listType final :
  nr_rank_index <$> newRankingData clock listType final
  = Z.of_nat <$> seq 1 (length final).
Proof. exact (newRankingData_ranks_from clock listType final 0). Qed.

Lemma newRankingData_players clock listType final :
  nr_player_id <$> newRankingData clock listType final = rk_player_id <$> final.
Proof.
  unfold newRankingData. apply list_eq. intros i.
  rewrite !list_lookup_fmap, list_lookup_imap. by destruct (final !! i).
Qed.

Lemma newRankingData_type clock listType final :
  Forall (λ row, nr_list_type row = listType) (newRankingData clock listType final).
Proof.
  apply Forall_forall. intros row (i & Hi)%list_elem_of_lookup.
  unfold newRankingData in Hi. rewrite list_lookup_imap in Hi.
  apply fmap_Some in Hi as (r & _ & ->). done.
Qed.

Lemma filter_Forall_id {A} (P : A → Prop) `{∀ x, Decision (P x)} (l : list A) :
  Forall P l → filter P l = l.
Proof.
  induction 1 as [|x l Hx _ IH]; [done|].
  rewrite filter_cons_True by done. by rewrite IH.
Qed.

Lemma hidden_length (shown : val → bool) (all : list ranking) :
  let visible := filter (λ r, shown (rk_player_id r) = true) all in
  length visible + length (filter (λ r, r ∉ visible) all) = length all.
Proof.
  intros visible.
  rewrite <- (filter_complement_length (λ r, shown (rk_player_id r) = true) all).
  f_equal. f_equal. apply filter_ext_elem. intros r Hr. unfold visible.
  rewrite list_elem_of_filter. tauto.
Qed.

(** The rows sent by a reorder, when the delete of the partition went
    through. *)
Lemma updateRankingsOrder_sent toLowerCase clock newOrder respInsert
    (st : State) (visible : list ranking) :
  supabase st = true →
  visibleRankings toLowerCase st = Some visible →
  newOrder ≠ [] →
  reorderedRankings visible newOrder ≠ [] →
  ∃ st',
    updateRankingsOrder toLowerCase clock newOrder (Resolved tt) respInsert st
    = (Normal, st')
    ∧ sent st' = sent st ++
        [DeleteRankings (rankingsView st);
         InsertRankings (newRankingData clock (rankingsView st)
                           (finalOrder st visible newOrder))].
Proof.
  intros Hs Hv Hn Hr. unfold updateRankingsOrder.
  rewrite Hs, Hv. cbn [negb orb].
  rewrite (bool_decide_eq_false_2 _ Hn), (bool_decide_eq_false_2 _ Hr).
  destruct respInsert; eexists; (split; [done|]); cbn; by rewrite <- app_assoc.
Qed.


(** ** Failing remote calls *)

Lemma last_snoc_status (l : list (jsstring * status_type)) x : last (l ++ [x]) = Some x.
Proof. apply last_snoc. Qed.

Lemma players_sends (rows : list obj) (st : State) :
  players (foldl (λ s row, send (UpsertPlayer row) s) st rows) = players st
  ∧ localStorage (foldl (λ s row, send (UpsertPlayer row) s) st rows) = localStorage st
  ∧ statusLog (foldl (λ s row, send (UpsertPlayer row) s) st rows) = statusLog st.
Proof.
  revert st. induction rows as [|row rows IH]; intros st; [done|]. cbn.
  destruct (IH (send (UpsertPlayer row) st)) as (-> & -> & ->). done.
Qed.

Lemma filter_none_found (playerId : val) (ps : list obj) :
  findIndex playerId ps = None → filter (λ p, get p "id" ≠ playerId) ps = ps.
Proof.
  intros H. apply filter_Forall_id, Forall_forall. intros p Hp.
  by eapply findIndex_None in H.
Qed.


(** ** Outbound rows *)

Lemma sent_sends (rows : list obj) (st : State) :
  sent (foldl (λ s row, send (UpsertPlayer row) s) st rows)
  = sent st ++ (UpsertPlayer <$> rows).
Proof.
  revert st. induction rows as [|row rows IH]; intros st; cbn.
  - by rewrite app_nil_r.
  - rewrite IH. cbn. by rewrite <- app_assoc.
Qed.

Lemma upserted_app (st : State) (rqs : list request) :
  omap (λ rq, match rq with UpsertPlayer row => Some row | _ => None end)
    (sent st ++ rqs)
  = upserted st ++
    omap (λ rq, match rq with UpsertPlayer row => Some row | _ => None end) rqs.
Proof. unfold upserted. apply omap_app. Qed.

Lemma omap_upserts (rows : list obj) :
  omap (λ rq, match rq with UpsertPlayer row => Some row | _ => None end)
    (UpsertPlayer <$> rows) = rows.
Proof. induction rows as [|row rows IH]; [done|]. cbn. by rewrite IH. Qed.

Lemma backupOwnerId_normalized (player : obj) :
  backupOwnerId player = normalized_owner player.
Proof.
  unfold backupOwnerId, normalized_owner.
  destruct (truthy (get player "fantasyOwner")) eqn:Ht; [done|].
  destruct (get player "fantasyOwner") as [| |b|n|s]; try done.
  cbn in Ht. apply negb_false_iff, bool_decide_eq_true in Ht. by subst s.
Qed.

Lemma backupRow_normalized (randomUUID clock : nat → jsstring) (i : nat) (player : obj) :
  is_canonical (randomUUID i) = true →
  row_normalized player (backupRow randomUUID clock i player).
Proof.
  intros Hc. unfold row_normalized, backupRow, dataToSend, backupFixId. get_simpl.
  split; [apply backupOwnerId_normalized|].
  destruct (isInvalidId (get player "id")) eqn:Hv; get_simpl.
  - split; [by apply canonical_valid|done].
  - done.
Qed.

(** The map of [backupToSupabase]. *)

Lemma backupLogThrows_false (v : val) :
  backupLogThrows v = false ↔ string_or_missing v.
Proof.
  unfold string_or_missing. destruct v as [| |b|n|s]; cbn; split; try done; eauto;
    intros [?|[?|[? ?]]]; done.
Qed.


Lemma backupMap_length (randomUUID clock : nat → jsstring) (i : nat) (ps : list obj) :
  length (backupMap randomUUID clock i ps).1 = length ps.
Proof.
  revert i. induction ps as [|p ps IH]; intros i; [done|]. cbn.
  destruct (backupLogThrows _); [done|]. cbn. by rewrite IH.
Qed.

Lemma backupMap_lookup (randomUUID clock : nat → jsstring) (i : nat) (ps : list obj)
    (j : nat) (p : obj) :
  ps !! j = Some p →
  (backupMap randomUUID clock i ps).1 !! j = Some p
  ∨ (backupMap randomUUID clock i ps).1 !! j = Some (backupFixId randomUUID (i + j) p).
Proof.
  revert i j. induction ps as [|q ps IH]; intros i j Hj; [done|]. cbn.
  destruct (backupLogThrows _); [by left|]. cbn.
  destruct j as [|j].
  - injection Hj as ->. right. by rewrite Nat.add_0_r.
  - cbn in Hj. rewrite Nat.add_succ_r. apply (IH (S i) j Hj).
Qed.

Lemma backupMap_all (randomUUID clock : nat → jsstring) (i : nat) (ps : list obj) :
  Forall (λ p, backupLogThrows (get p "id") = false) ps →
  backupMap randomUUID clock i ps
  = (imap (λ j, backupFixId randomUUID (i + j)) ps,
     Some (imap (λ j, backupRow randomUUID clock (i + j)) ps)).
Proof.
  revert i. induction ps as [|p ps IH]; intros i Hps; [done|].
  apply Forall_cons in Hps as [Hp Hps]. cbn. rewrite Hp, (IH (S i) Hps). cbn.
  rewrite !Nat.add_0_r. do 2 f_equal.
  - apply imap_ext. intros j q _. cbn. by rewrite Nat.add_succ_r.
  - f_equal. apply imap_ext. intros j q _. cbn. by rewrite Nat.add_succ_r.
Qed.

Lemma backupMap_thrown (randomUUID clock : nat → jsstring) (i : nat) (ps : list obj) :
  Exists (λ p, backupLogThrows (get p "id") = true) ps →
  (backupMap randomUUID clock i ps).2 = None.
Proof.
  revert i. induction ps as [|p ps IH]; intros i Hps; [by apply Exists_nil in Hps|].
  cbn. destruct (backupLogThrows (get p "id")) eqn:Hp; [done|]. cbn.
  apply Exists_cons in Hps as [Hps|Hps]; [congruence|]. by rewrite (IH (S i) Hps).
Qed.

Lemma backupMap_rows_length (randomUUID clock : nat → jsstring) (i : nat)
    (ps rows : list obj) :
  (backupMap randomUUID clock i ps).2 = Some rows → length rows = length ps.
Proof.
  revert i rows. induction ps as [|p ps IH]; intros i rows; cbn.
  - by intros [= <-].
  - destruct (backupLogThrows _); [done|]. cbn.
    destruct (backupMap randomUUID clock (S i) ps).2 as [rows'|] eqn:E; [|done].
    intros [= <-]. cbn. f_equal. by apply (IH (S i)).
Qed.

Lemma backupMap_repaired (randomUUID clock : nat → jsstring) (ps : list obj)
    (j : nat) (p : obj) :
  ps !! j = Some p →
  (backupMap randomUUID clock 0 ps).1 !! j = Some p
  ∨ (isInvalidId (get p "id") = true
     ∧ (backupMap randomUUID clock 0 ps).1 !! j
       = Some (<["id" := VStr (randomUUID j)]> p)).
Proof.
  intros Hj. destruct (backupMap_lookup randomUUID clock 0 ps j p Hj) as [H|H];
    [by left|]. cbn in H. unfold backupFixId in H.
  destruct (isInvalidId (get p "id")); [by right|by left].
Qed.


Lemma backupMap_strings (randomUUID clock : nat → jsstring) (ps : list obj) :
  Forall (λ p, backupLogThrows (get p "id") = false) ps →
  backupMap randomUUID clock 0 ps
  = (imap (backupFixId randomUUID) ps, Some (imap (backupRow randomUUID clock) ps)).
Proof. apply (backupMap_all randomUUID clock 0 ps). Qed.



(** ** Repairing identifiers *)

Lemma ensure_players (randomUUID clock : nat → jsstring) (st : State) :
  players (ensureAllPlayersHaveUUIDs randomUUID clock st)
  = imap (backupFixId randomUUID) (players st).
Proof. unfold ensureAllPlayersHaveUUIDs. by destruct (existsb _ _). Qed.

Lemma backupFixId_valid (randomUUID : nat → jsstring) (i : nat) (p : obj) :
  is_canonical (randomUUID i) = true →
  isInvalidId (get (backupFixId randomUUID i p) "id") = false.
Proof.
  intros Hc. unfold backupFixId. destruct (isInvalidId (get p "id")) eqn:Hv; [|done].
  get_simpl. by apply canonical_valid.
Qed.
(** C5.  The classifier accepts a candidate string exactly when it is
    non-empty, has at least 20 code units, contains a hyphen and is not made
    of letters only; so a string shorter than 20, one with no hyphen and one
    of letters only are all invalid, and every canonical 36-character
    hyphenated identifier is valid. *)
Theorem C5_identifier_classification :
  ∀ s : jsstring,
    (classify_valid s = true ↔
       s ≠ [] ∧ 20 ≤ length s ∧ hyphen ∈ s
       ∧ ¬ Forall (λ c, is_letter c = true) s)
    ∧ (length s < 20 ∨ hyphen ∉ s ∨ only_letters s = true →
       classify_valid s = false)
    ∧ (is_canonical s = true → classify_valid s = true).
Proof.
  intros s. unfold classify_valid. rewrite negb_true_iff, negb_false_iff.
  split; [apply isInvalidId_string|]. split.
  - intros H. destruct (isInvalidId (VStr s)) eqn:Hinv; [done|].
    apply isInvalidId_string in Hinv as (Hne & Hlen & Hhy & Hal).
    destruct H as [H|[H|H]]; [lia|done|].
    apply only_letters_spec in H as [_ H]. contradiction.
  - apply canonical_valid.
Qed.
(** ** Draft precedence *)

(** The merge works through the records in order, so on a list that
    carries the identifier twice, the second time as drafted by another
    owner, the owner of the local draft is lost.  No snapshot is such a
    list: the rows come from a select on the [players] table, which is
    keyed by [id] (every write to it is an upsert on [id]). *)
Lemma repeated_identifier_loses_draft : ¬ draft_precedence_every_snapshot.
Proof.
  intros H.
  destruct (H Sample.t0 (Sample.with_players [Sample.local_drafted])
              [Sample.remote_undrafted; Sample.remote_team_b]
              Sample.remote_undrafted 0 Sample.local_drafted)
    as (p' & Hp' & _ & Howner & _).
  - by left.
  - reflexivity.
  - reflexivity.
  - reflexivity.
  - reflexivity.
  - reflexivity.
  - by left.
  - assert ((λ p, get p "fantasyOwner") <$>
              players (mergeSupabaseData Sample.t0
                         [Sample.remote_undrafted; Sample.remote_team_b]
                         (Sample.with_players [Sample.local_drafted])) !! 0
            = Some (VStr (js "Team B"))) as E by decide_by_computation.
    rewrite Hp' in E. injection E as E. rewrite Howner in E.
    refute_by_computation E.
Qed.

(** C1.  When a record of the snapshot passes the validity test, matches
    by identifier a local player with [drafted = true], and reports "not
    drafted" ([drafted] is [false] or missing), the local player is still
    drafted after the merge and its owner, draft notes and draft date read
    as before the merge.  The snapshot is the rows of the [players] table,
    which is keyed by [id]: the record is the only one of the snapshot
    with its identifier. *)
Theorem C1_draft_precedence :
  ∀ (now : jsstring) (st : State) (pre post : list obj) (r : obj)
    (i : nat) (p : obj),
    (∀ r', r' ∈ pre ++ post → get r' "id" ≠ get r "id") →
    isInvalidId (get r "id") = false →
    players st !! i = Some p →
    get p "id" = get r "id" →
    get p "drafted" = VBool true →
    reports_not_drafted r →
    ∃ p', players (mergeSupabaseData now (pre ++ r :: post) st) !! i = Some p'
          ∧ draft_kept p p'.
Proof.
  intros now st pre post r i p Huniq Hv Hp Hid Hd Hr. cbn.
  by apply mergeLoop_draft_precedence.
Qed.

Lemma C1_draft_precedence_witness :
  ∃ p', players (mergeSupabaseData Sample.t0
                   ([] ++ Sample.remote_undrafted :: [])
                   (Sample.with_players [Sample.local_drafted])) !! 0 = Some p'
        ∧ draft_kept Sample.local_drafted p'.
Proof.
  apply (C1_draft_precedence Sample.t0 (Sample.with_players [Sample.local_drafted])
           [] [] Sample.remote_undrafted 0 Sample.local_drafted).
  - intros r' Hr'. by apply elem_of_nil in Hr'.
  - reflexivity.
  - reflexivity.
  - reflexivity.
  - reflexivity.
  - by left.
Defined.
(** ** Idempotence of the merge *)

(** On a list that carries an identifier twice, merged into an empty
    collection, the first merge appends both records and the second one
    finds the later of the two under the identifier and rewrites it.  No
    snapshot is such a list, the [players] table being keyed by [id]. *)
Lemma repeated_identifier_merged_twice : ¬ merge_idempotent_every_snapshot.
Proof.
  intros H.
  specialize (H Sample.t0 Sample.t1 (Sample.with_players [])
                [Sample.remote_team_b; Sample.remote_undrafted]
                ltac:(discriminate)).
  refute_by_computation H.
Qed.

(** C4.  Merging a snapshot a second time leaves the collection, and so
    what is stored of it, as the first merge made it: no row is added and
    no property of a player changes.  The snapshot is the rows of the
    [players] table, which is keyed by [id]: its records that pass the
    validity test carry pairwise distinct identifiers. *)
Theorem C4_merge_idempotent :
  ∀ (now1 now2 : jsstring) (st : State) (snapshot : list obj),
    NoDup (valid_ids snapshot) →
    let once := mergeSupabaseData now1 snapshot st in
    let twice := mergeSupabaseData now2 snapshot once in
    players twice = players once
    ∧ fst <$> localStorage twice = fst <$> localStorage once.
Proof.
  intros now1 now2 st snapshot Hnd. cbn.
  by rewrite mergeLoop_idempotent.
Qed.

Lemma C4_merge_idempotent_witness :
  let once := mergeSupabaseData Sample.t0 [Sample.remote_undrafted]
                (Sample.with_players [Sample.local_drafted]) in
  let twice := mergeSupabaseData Sample.t1 [Sample.remote_undrafted] once in
  players twice = players once
  ∧ fst <$> localStorage twice = fst <$> localStorage once.
Proof.
  apply (C4_merge_idempotent Sample.t0 Sample.t1
           (Sample.with_players [Sample.local_drafted]) [Sample.remote_undrafted]).
  unfold valid_ids. rewrite filter_cons_True by reflexivity.
  apply NoDup_singleton.
Defined.
(** ** Trimming *)

Lemma trimStart_spec (s : jsstring) :
  ∃ pre, s = pre ++ trimStart s ∧ blank pre
         ∧ ∀ c, head (trimStart s) = Some c → is_space c = false.
Proof.
  induction s as [|c s (pre & Hs & Hpre & Hhead)]; cbn.
  - exists []. split; [done|]. split; [constructor|done].
  - destruct (is_space c) eqn:Hc.
    + exists (c :: pre). split; [by rewrite Hs at 1|]. split; [|done].
      by apply Forall_cons.
    + exists []. split; [done|]. split; [constructor|].
      by intros c' [= <-].
Qed.

Lemma trimStart_blank (pre s : jsstring) :
  blank pre → trimStart (pre ++ s) = trimStart s.
Proof.
  induction 1 as [|c pre Hc _ IH]; [done|]. cbn. by rewrite Hc.
Qed.

Lemma trimStart_head (s : jsstring) :
  (∀ c, head s = Some c → is_space c = false) → trimStart s = s.
Proof.
  destruct s as [|c s]; [done|]. intros H. cbn. by rewrite (H c).
Qed.

Lemma blank_rev (s : jsstring) : blank s ↔ blank (rev s).
Proof.
  unfold blank. rewrite !Forall_forall.
  split; intros H c Hc; apply H; apply list_elem_of_In;
    apply list_elem_of_In in Hc.
  - exact (proj2 (in_rev s c) Hc).
  - exact (proj1 (in_rev s c) Hc).
Qed.

Lemma head_rev_last (s : jsstring) : head (rev s) = last s.
Proof.
  induction s as [|c s IH] using rev_ind; [done|].
  by rewrite rev_unit, last_snoc.
Qed.

Lemma last_rev_head (s : jsstring) : last (rev s) = head s.
Proof. by rewrite <- head_rev_last, rev_involutive. Qed.

(** [trim] gives the string without the white space at its ends, and
    nothing else does. *)
Lemma trim_trimmed (s core : jsstring) : trimmed_of s core → trim s = core.
Proof.
  intros (pre & post & -> & Hpre & Hpost & Hhead & Hlast). unfold trim.
  rewrite trimStart_blank by done.
  destruct core as [|c core].
  - cbn [app]. destruct (trimStart_spec post) as (pre' & Hp & _ & Hh).
    destruct (trimStart post) as [|d rest] eqn:E; [done|].
    exfalso. specialize (Hh d eq_refl).
    assert (d ∈ post) as Hd by (rewrite Hp; apply elem_of_app; right; left).
    unfold blank in Hpost. rewrite Forall_forall in Hpost. by rewrite (Hpost d Hd) in Hh.
  - rewrite (trimStart_head ((c :: core) ++ post)) by (intros d Hd; cbn in Hd; injection Hd as <-; by apply Hhead).
    rewrite rev_app_distr, trimStart_blank by exact (proj1 (blank_rev post) Hpost).
    rewrite trimStart_head, rev_involutive; [done|].
    intros d Hd. rewrite head_rev_last in Hd. by apply Hlast.
Qed.

Lemma trim_spec (s : jsstring) : trimmed_of s (trim s).
Proof.
  destruct (trimStart_spec s) as (pre & Hs & Hpre & Hhead).
  destruct (trimStart_spec (rev (trimStart s))) as (pre2 & Ht & Hpre2 & Hhead2).
  unfold trim. set (t := trimStart s) in *. set (u := trimStart (rev t)) in *.
  assert (t = rev u ++ rev pre2) as Htu.
  { by rewrite <- rev_app_distr, <- Ht, rev_involutive. }
  exists pre, (rev pre2). split; [by rewrite <- Htu|]. split; [done|].
  split; [exact (proj2 (blank_rev _) ltac:(by rewrite rev_involutive))|]. split.
  - intros c Hc. apply Hhead. rewrite Htu. by destruct (rev u).
  - intros c Hc. rewrite last_rev_head in Hc. by apply Hhead2.
Qed.

Lemma trim_blank (s : jsstring) : trim s = [] ↔ blank s.
Proof.
  split.
  - intros E. destruct (trim_spec s) as (pre & post & Hs & Hpre & Hpost & _).
    rewrite E in Hs. rewrite Hs. unfold blank in *. cbn [app].
    apply Forall_app. by split.
  - intros Hb. apply trim_trimmed. exists s, []. rewrite app_nil_r.
    split; [done|]. split; [done|]. split; [constructor|done].
Qed.

(** ** Drafting *)

Lemma ownerMissing_blank (ownerData : OwnerData) :
  ownerMissing ownerData = true ↔ owner_blank ownerData.
Proof.
  unfold ownerMissing, owner_blank. destruct (od_owner ownerData) as [owner|]; [|done].
  rewrite orb_true_iff, !bool_decide_eq_true, trim_blank. split; [|by right].
  intros [->|H]; [constructor|done].
Qed.

(** C6.  Drafting through the form requires an owner that is not blank:
    with a missing owner, or one that is nothing but white space, the
    handler only shows the dialog, and the collection, the stored snapshot,
    the page and the requests are as before; with an owner that has
    something else in it, the first player stored under the identifier
    gets [drafted = true], the owner without the white space at its ends,
    the notes without the white space at theirs (the empty string when
    there are none) and a draft date, nothing else of the player or of the
    collection changes, and the collection is persisted. *)
Theorem C6_draft_requires_owner :
  ∀ (clock : nat → jsstring) (playerId : val) (ownerData : OwnerData) (st : State),
    (owner_blank ownerData →
       ∃ st', handleDraftPlayer clock playerId ownerData st = (Normal, st')
              ∧ players st' = players st
              ∧ localStorage st' = localStorage st
              ∧ renders st' = renders st
              ∧ sent st' = sent st)
    ∧ (∀ owner core i player,
         od_owner ownerData = Some owner →
         trimmed_of owner core → core ≠ [] →
         first_stored_under playerId (players st) i player →
         ∃ st' player' notes,
           handleDraftPlayer clock playerId ownerData st = (Normal, st')
           ∧ players st' = <[i := player']> (players st)
           ∧ drafted_from player player' core notes (clock 0)
           ∧ notes_trimmed ownerData notes
           ∧ localStorage st' = Some (json <$> players st', clock 1)).
Proof.
  intros clock playerId ownerData st. split.
  - intros Hb. unfold handleDraftPlayer.
    rewrite (proj2 (ownerMissing_blank ownerData) Hb). by eexists.
  - intros owner core i player Ho Hcore Hne Hfirst. unfold handleDraftPlayer.
    assert (ownerMissing ownerData = false) as ->.
    { destruct (ownerMissing ownerData) eqn:E; [|done].
      apply ownerMissing_blank in E. unfold owner_blank in E. rewrite Ho in E.
      apply trim_blank in E. by rewrite (trim_trimmed _ _ Hcore) in E. }
    unfold draftPlayer. rewrite (first_stored_found _ _ _ _ Hfirst).
    destruct Hfirst as (Hp & _ & _). rewrite Hp, Ho.
    rewrite (trim_trimmed _ _ Hcore).
    eexists _, _, (from_option trim [] (od_notes ownerData)).
    split; [done|]. split; [done|]. split; [|split; [|done]].
    + unfold drafted_from, trim_or_empty. get_simpl. repeat split; try done.
      intros k Hk. rewrite !lookup_insert_ne; [done|..];
        intros <-; apply Hk; key_listed.
    + unfold notes_trimmed. destruct (od_notes ownerData) as [given|]; [|done].
      apply trim_spec.
Qed.

Lemma C6_draft_requires_owner_witness :
  ∃ st' player' notes,
    handleDraftPlayer Sample.clock0 (VStr Sample.uuid1) Scenario.padded
      (Sample.with_players [SampleMore.other_remote; Sample.remote_undrafted])
    = (Normal, st')
    ∧ players st'
      = <[1 := player']> (players (Sample.with_players
                                     [SampleMore.other_remote; Sample.remote_undrafted]))
    ∧ drafted_from Sample.remote_undrafted player' (js "Dodgers Fans") notes
        (Sample.clock0 0)
    ∧ notes_trimmed Scenario.padded notes
    ∧ localStorage st' = Some (json <$> players st', Sample.clock0 1).
Proof.
  destruct (C6_draft_requires_owner Sample.clock0 (VStr Sample.uuid1) Scenario.padded
              (Sample.with_players [SampleMore.other_remote; Sample.remote_undrafted]))
    as [_ H].
  apply (H (js "  Dodgers Fans ") (js "Dodgers Fans") 1 Sample.remote_undrafted).
  - reflexivity.
  - exists (js "  "), (js " "). split; [reflexivity|].
    split; [by repeat constructor|]. split; [by repeat constructor|].
    split; by intros c [= <-].
  - discriminate.
  - split; [reflexivity|]. split; [reflexivity|].
    intros [|j] q Hj Hq; [|lia]. injection Hq as <-. decide_by_computation.
Defined.
(** ** Real-time update events *)

Lemma hasChanges_false (currentPlayer playerUpdate : obj) :
  hasChanges currentPlayer playerUpdate = false ↔
  ∀ k v, playerUpdate !! k = Some v → get currentPlayer k = v.
Proof.
  unfold hasChanges, strict_eq. split.
  - intros H k v Hkv.
    destruct (decide (get currentPlayer k = v)) as [|Hne]; [done|].
    assert (existsb (λ kv, negb (bool_decide (get currentPlayer kv.1 = kv.2)))
              (map_to_list playerUpdate) = true) as E; [|congruence].
    apply existsb_exists. exists (k, v). split.
    + by apply list_elem_of_In, elem_of_map_to_list.
    + cbn. by rewrite bool_decide_eq_false_2.
  - intros H. apply not_true_is_false. intros E.
    apply existsb_exists in E as ([k v] & Hin & Hne).
    apply list_elem_of_In, elem_of_map_to_list in Hin. cbn in Hne.
    apply negb_true_iff, bool_decide_eq_false in Hne. by apply Hne, H.
Qed.

Lemma hasChanges_true (currentPlayer playerUpdate : obj) :
  hasChanges currentPlayer playerUpdate = true ↔
  ∃ k v, playerUpdate !! k = Some v ∧ get currentPlayer k ≠ v.
Proof.
  unfold hasChanges, strict_eq. rewrite existsb_exists. split.
  - intros ([k v] & Hin & Hne).
    apply list_elem_of_In, elem_of_map_to_list in Hin. cbn in Hne.
    apply negb_true_iff, bool_decide_eq_false in Hne. eauto.
  - intros (k & v & Hkv & Hne). exists (k, v). split.
    + by apply list_elem_of_In, elem_of_map_to_list.
    + cbn. by rewrite bool_decide_eq_false_2.
Qed.

(** The handler of one row, given the row of an update event whose
    identifier is that of the first player stored under it: when every
    property of the converted row reads the same on the local record, the
    handler returns the state it was given; when one differs, the local
    record is replaced by one on which every property of the converted row
    reads as in the row and every other property is as before, and the
    collection is persisted and rendered. *)
Lemma handleRealtimeUpdate_row :
  ∀ (clock : nat → jsstring) (row : obj) (st : State) (playerUpdate : obj)
    (i : nat) (currentPlayer : obj),
    convertRow (clock 0) row = Some playerUpdate →
    first_stored_under (get playerUpdate "id") (players st) i currentPlayer →
    ((∀ k v, playerUpdate !! k = Some v → get currentPlayer k = v) →
       handleRealtimeUpdate clock row st = (Normal, st))
    ∧ ((∃ k v, playerUpdate !! k = Some v ∧ get currentPlayer k ≠ v) →
       ∃ st' player',
         handleRealtimeUpdate clock row st = (Normal, st')
         ∧ players st' = <[i := player']> (players st)
         ∧ (∀ k v, playerUpdate !! k = Some v → player' !! k = Some v)
         ∧ (∀ k, playerUpdate !! k = None → player' !! k = currentPlayer !! k)
         ∧ localStorage st' = Some (json <$> players st', clock 1)
         ∧ renders st' = S (renders st)).
Proof.
  intros clock row st playerUpdate i currentPlayer Hc Hfirst.
  unfold handleRealtimeUpdate.
  rewrite Hc, (first_stored_found _ _ _ _ Hfirst).
  destruct Hfirst as (Hp & _ & _). rewrite Hp. split.
  - intros H. by rewrite (proj2 (hasChanges_false _ _) H).
  - intros H. rewrite (proj2 (hasChanges_true _ _) H).
    eexists _, _. split; [done|]. split; [done|]. split; [|split; [|done]].
    + intros k v Hk. unfold assign. by apply lookup_union_Some_l.
    + intros k Hk. unfold assign. by apply lookup_union_r.
Qed.

(** No change reaches the collection through the subscription: the
    callback hands the payload to the handler of one row, which throws on
    the [id] the payload does not have. *)
Lemma onChange_throws (clock : nat → jsstring) (c : change) (st : State) :
  onChange clock c st = (TypeError, st).
Proof. reflexivity. Qed.

(** C7.  The collection holds Mike Trout, not drafted, and the
    subscription delivers the update event of his draft by another client.
    The row of the event differs from the local record on [drafted] and on
    the owner, and the dispatcher written for the subscription would hand
    the row to the handler of one row, which replaces the record; the
    callback hands over the payload instead, the handler throws, and the
    record, the stored snapshot and the page are as before. *)
Theorem C7_update_event_at_failing_input :
  let st := Sample.with_players [Sample.remote_undrafted] in
  let event := SampleMore.drafted_elsewhere in
  let delivered := onChange Sample.clock0 event st in
  let dispatched := dispatchChange Sample.clock0 event st in
  (λ p, (get p "drafted", get p "fantasyOwner")) <$> players st
    = [(VBool false, VStr [])]
  ∧ (λ p, (get p "drafted", get p "fantasyOwner")) <$> players dispatched.2
    = [(VBool true, VStr Sample.uuid2)]
  ∧ is_Some (localStorage dispatched.2)
  ∧ delivered.1 = TypeError
  ∧ players delivered.2 = players st
  ∧ localStorage delivered.2 = None
  ∧ renders delivered.2 = renders st.
Proof.
  cbv zeta. split; [decide_by_computation|]. split; [decide_by_computation|].
  split; [by eexists|]. by rewrite onChange_throws.
Qed.
(** C10.  A converted remote record has no [starred] property, and through
    any sequence of bulk loads and update events the player at an index of
    the collection stays there with its [starred] property as it was (set
    to the same value or missing as before). *)
Theorem C10_star_survives_remote :
  (∀ now row r, convertRow now row = Some r → r !! "starred" = None)
  ∧ ∀ (events : list remote_input) (st : State) (i : nat) (p : obj),
      players st !! i = Some p →
      ∃ p', players (foldl apply_remote st events) !! i = Some p'
            ∧ p' !! "starred" = p !! "starred".
Proof.
  split; [apply convertRow_no_star|].
  induction events as [|e events IH]; intros st i p Hp; [eauto|]. cbn.
  assert (∃ p1, players (apply_remote st e) !! i = Some p1
                ∧ p1 !! "starred" = p !! "starred") as (p1 & Hp1 & E1).
  { destruct e as [clock resp|clock row]; cbn.
    - by apply loadFromSupabase_star.
    - by apply handleRealtimeUpdate_star. }
  destruct (IH _ _ _ Hp1) as (p2 & Hp2 & E2). exists p2. split; [done|congruence].
Qed.
Lemma run_ops_shaped (ops : list operation) (st : State) :
  Forall shape_keeping ops → Forall shaped (players st) →
  Forall shaped (players (foldl run_op st ops)).
Proof.
  intros Hops. revert st. induction Hops as [|op ops Hop _ IH]; intros st Hst; [done|].
  cbn. by apply IH, run_op_shaped.
Qed.

(** After the bulk load of a row that is drafted and has no owner
    reference, the player is drafted with an empty owner. *)
Lemma C2_counterexample : ¬ draft_shape_after_any_operations.
Proof.
  intros H.
  destruct (H true Scenario.load_no_owner
              (Sample.record Sample.uuid1 "Mike Trout" true "")) as [Hd _].
  - decide_by_computation.
  - destruct Hd as (owner & Ho & Hne); [decide_by_computation|].
    assert (get (Sample.record Sample.uuid1 "Mike Trout" true "") "fantasyOwner"
            = VStr []) as E by decide_by_computation.
    rewrite E in Ho. by injection Ho as <-.
Qed.

(** C2, amended.  Starting from the empty collection, through any sequence
    of add, draft (by the form), undraft, delete, bulk loads and insert
    events whose rows have agreeing draft columns, update events whose row
    agrees and reports drafted, and delete events, every player with
    [drafted = true] has a non-empty owner and every player with
    [drafted = false] has an empty owner, empty draft notes and no
    [draftedDate] property. *)
Theorem C2_draft_shape_kept :
  ∀ (configured : bool) (ops : list operation) (p : obj),
    Forall shape_keeping ops →
    p ∈ players (foldl run_op (initial configured) ops) →
    draft_shape p.
Proof.
  intros configured ops p Hops Hp.
  assert (Forall shaped (players (foldl run_op (initial configured) ops))) as H.
  { apply run_ops_shaped; [done|]. apply Forall_nil_2. }
  eapply Forall_forall in H; [|done]. apply H.
Qed.

Lemma C2_draft_shape_kept_witness :
  draft_shape (default ∅ (players Scenario.final !! 0)).
Proof.
  apply (C2_draft_shape_kept true Scenario.ops).
  - apply Forall_cons. split; [exact I|].
    apply Forall_cons. split; [exact I|].
    apply Forall_cons. split; [|apply Forall_nil_2].
    apply Forall_singleton. right. repeat split; reflexivity.
  - apply list_elem_of_lookup. exists 0. decide_by_computation.
Defined.

(** An update event that reports "not drafted" blanks the owner and the
    notes of a drafted player and leaves its [draftedDate] property. *)
Example update_event_leaves_draftedDate :
  (λ p, (get p "drafted", get p "fantasyOwner", p !! "draftedDate")) <$>
    players (handleRealtimeUpdate Sample.clock0 SampleRows.row_undrafted
               (Sample.with_players [Sample.local_drafted])).2
  = [(VBool false, VStr [], Some (VStr Sample.t1))].
Proof. decide_by_computation. Qed.

(** The scenario of the specification: the draft made locally survives the
    load that reports the player undrafted. *)
Example scenario_final :
  (λ p, (get p "drafted", get p "fantasyOwner", get p "draftNotes")) <$>
    players Scenario.final
  = [(VBool true, VStr (js "Dodgers Fans"), VStr (js "1st pick"))].
Proof. decide_by_computation. Qed.
(** ** Reordering *)

(** Two visible entries and a new order that names one of them: one row is
    stored. *)
Lemma reorder_of_a_part :  ¬ reorder_contiguous_any_subset.
Proof.
  intros H.
  destruct (H (λ s, s) Sample.clock0 [VStr (js "r1")] Rejected
              SampleRankings.two_ranked
              [SampleRankings.rank1; SampleRankings.rank2])
    as (st' & rows & Hrun & Hsent & Hranks).
  - reflexivity.
  - repeat constructor.
  - apply (bool_decide_unpack (NoDup _)). vm_compute. exact I.
  - reflexivity.
  - by left.
  - discriminate.
  - apply NoDup_singleton.
  - intros x ->%list_elem_of_singleton. vm_compute. apply list_elem_of_here.
  - vm_compute in Hrun. injection Hrun as <-. vm_compute in Hsent.
    injection Hsent as <-. vm_compute in Hranks. discriminate.
Qed.

(** With N ranking entries, all of the list type shown and
    with distinct identifiers, and a new order that is a permutation of the
    identifiers of all the visible entries (the cached list, when there is
    one, being the visible entries), the reorder deletes the partition and
    inserts N rows of that list type ranked exactly 1, ..., N: the visible
    entries in the new order, then the entries that are not visible in
    their prior relative order. *)
Lemma reorder_contiguous_full_order :
  ∀ (toLowerCase : jsstring → jsstring) (clock : nat → jsstring)
    (newOrder : list val) (respInsert : outcome (option (list ranking)))
    (st : State) (visible : list ranking),
    supabase st = true →
    Forall (λ r, rk_list_type r = rankingsView st) (rankings st) →
    NoDup (rk_id <$> rankings st) →
    getFilteredRankings toLowerCase st = Some visible →
    currentFilteredRankings st = None ∨ currentFilteredRankings st = Some visible →
    newOrder ≠ [] → newOrder ≡ₚ rk_id <$> visible →
    ∃ st' rows reordered,
      updateRankingsOrder toLowerCase clock newOrder (Resolved tt) respInsert st
      = (Normal, st')
      ∧ sent st' = sent st ++ [DeleteRankings (rankingsView st); InsertRankings rows]
      ∧ nr_rank_index <$> rows = Z.of_nat <$> seq 1 (length (rankings st))
      ∧ Forall (λ row, nr_list_type row = rankingsView st) rows
      ∧ rk_id <$> reordered = newOrder
      ∧ Forall (λ r, r ∈ visible) reordered
      ∧ nr_player_id <$> rows
        = rk_player_id <$> (reordered ++ filter (λ r, r ∉ visible) (rankings st)).
Proof.
  intros toLowerCase clock newOrder respInsert st visible
    Hs Htype Hnd Hfresh Hcache Hne Hperm.
  assert (visibleRankings toLowerCase st = Some visible) as Hv.
  { unfold visibleRankings. by destruct Hcache as [-> | ->]. }
  destruct (getFilteredRankings_by_player _ _ _ Hfresh) as [shown Hshown].
  destruct (reorderedRankings_listed visible newOrder) as [Hids Hin].
  { intros x Hx. by rewrite <- Hperm. }
  set (reordered := reorderedRankings visible newOrder) in *.
  assert (reordered ≠ []) as Hro.
  { intros E. rewrite E in Hids. by symmetry in Hids. }
  destruct (updateRankingsOrder_sent toLowerCase clock newOrder respInsert
              st visible Hs Hv Hne Hro) as (st' & Hrun & Hsent).
  assert (finalOrder st visible newOrder
          = reordered ++ filter (λ r, r ∉ visible) (rankings st)) as Hfinal.
  { unfold finalOrder. fold reordered. f_equal.
    rewrite (filter_Forall_id _ _ Htype). subst visible.
    by apply nonFilteredRankings_hidden. }
  exists st', (newRankingData clock (rankingsView st)
                 (finalOrder st visible newOrder)), reordered.
  split; [done|]. split; [done|]. split.
  { rewrite newRankingData_ranks, Hfinal, length_app. do 2 f_equal.
    assert (length reordered = length visible) as ->.
    { rewrite <- (length_fmap rk_id reordered), Hids, Hperm. apply length_fmap. }
    subst visible. apply hidden_length. }
  split; [apply newRankingData_type|]. split; [done|]. split; [done|].
  by rewrite newRankingData_players, Hfinal.
Qed.

Lemma reorder_contiguous_full_order_witness :
  ∃ st' rows reordered,
    updateRankingsOrder (λ s, s) Sample.clock0 [VStr (js "r2"); VStr (js "r1")]
      (Resolved tt) Rejected SampleRankings.two_ranked = (Normal, st')
    ∧ sent st' = sent SampleRankings.two_ranked ++
        [DeleteRankings (rankingsView SampleRankings.two_ranked); InsertRankings rows]
    ∧ nr_rank_index <$> rows
      = Z.of_nat <$> seq 1 (length (rankings SampleRankings.two_ranked))
    ∧ Forall (λ row, nr_list_type row = rankingsView SampleRankings.two_ranked) rows
    ∧ rk_id <$> reordered = [VStr (js "r2"); VStr (js "r1")]
    ∧ Forall (λ r, r ∈ [SampleRankings.rank1; SampleRankings.rank2]) reordered
    ∧ nr_player_id <$> rows
      = rk_player_id <$>
          (reordered ++ filter (λ r, r ∉ [SampleRankings.rank1; SampleRankings.rank2])
                          (rankings SampleRankings.two_ranked)).
Proof.
  apply (reorder_contiguous_full_order (λ s, s) Sample.clock0
           [VStr (js "r2"); VStr (js "r1")] Rejected SampleRankings.two_ranked
           [SampleRankings.rank1; SampleRankings.rank2]).
  - reflexivity.
  - repeat constructor.
  - apply (bool_decide_unpack (NoDup _)). vm_compute. exact I.
  - reflexivity.
  - by left.
  - discriminate.
  - vm_compute. apply perm_swap.
Defined.

(** An entry of the list the reorder works from that the new order does not
    name is in no row the reorder inserts: it is not reordered, and it is
    not among the entries taken from outside that list. *)
Lemma unnamed_entry_dropped (st : State) (filteredRankings : list ranking)
    (newOrder : list val) (r : ranking) :
  r ∈ filteredRankings → rk_id r ∉ newOrder →
  r ∉ finalOrder st filteredRankings newOrder.
Proof.
  intros Hin Hid. unfold finalOrder. rewrite elem_of_app. intros [Hr|Hr].
  - unfold reorderedRankings in Hr. apply list_elem_of_omap in Hr as (id & Hnew & Hf).
    apply findRanking_Some in Hf. destruct Hf as [_ Hf]. by rewrite Hf in Hid.
  - unfold nonFilteredRankings in Hr. apply list_elem_of_filter in Hr as [[_ Hr] _].
    apply Hr, Exists_exists. by exists r.
Qed.

(** C3.  Three entries are ranked and the collection holds the players of
    the first two only.  The page renders two items, one per entry whose
    player is known, while the list kept for the drags holds all three
    entries; after a drag that swaps the two items the partition is deleted
    and two rows are inserted, ranked 1 and 2: the third entry is gone and
    the ranks are not 1 to 3. *)
Theorem C3_reorder_at_failing_input :
  ∀ (toLowerCase : jsstring → jsstring),
    let st := SampleMore.ranked_stranger in
    let page := (renderRankingsView toLowerCase st).2 in
    let dragged :=
      (onEnd toLowerCase Sample.clock0 [SampleRankings.rank2; SampleRankings.rank1]
         (Resolved tt) (Resolved None) page).2 in
    length (rankings st) = 3
    ∧ Forall (λ r, rk_list_type r = rankingsView st) (rankings st)
    ∧ rankingsItems toLowerCase st = Some [SampleRankings.rank1; SampleRankings.rank2]
    ∧ currentFilteredRankings page
      = Some [SampleRankings.rank1; SampleRankings.rank2; SampleMore.rank3]
    ∧ deleted_rankings dragged = [SampleRankings.overall]
    ∧ (λ rows : list new_ranking,
         (λ row, (nr_player_id row, nr_rank_index row)) <$> rows)
        <$> inserted_rankings dragged
      = [[(VStr Sample.uuid2, 1%Z); (VStr Sample.uuid1, 2%Z)]].
Proof.
  intros toLowerCase. cbv zeta.
  split; [reflexivity|]. split; [by repeat constructor|].
  split; [decide_by_computation|]. split; [decide_by_computation|].
  split; decide_by_computation.
Qed.
(** Deleting a player while the remote delete is rejected: the player is
    gone from the collection all the same. *)
Lemma C8_counterexample : ¬ remote_failure_atomic.
Proof.
  intros H.
  destruct (H (λ s, s) (λ ps, Some ps) (Sample.with_players [Sample.local_drafted])
              (CallDelete Sample.clock0 (VStr Sample.uuid1) Rejected))
    as [Hplayers _]; [reflexivity|exact I|].
  refute_by_computation Hplayers.
Qed.

(** C8, amended.  When the remote call of an operation fails: a bulk load
    leaves the collection and the stored snapshot as they were and reports
    an error; initialize, reorder and clear of the rankings leave the
    collection, the rankings and the stored snapshot as they were and
    report an error whenever a request was made; a load of the rankings
    leaves the collection as it was, empties the rankings and reports
    nothing on the status channel; a backup has changed nothing of the
    collection but identifiers that fail the validity test, replaced in
    memory before sending, has left the stored snapshot as it was and
    reports an error; a delete has removed the player and persisted the removal
    before the call, and reports nothing on the status channel. *)
Theorem C8_remote_failure :
  ∀ (toLowerCase : jsstring → jsstring) (sortByName : list obj → option (list obj))
    (st : State) (call : remote_call),
    supabase st = true → call_fails st call →
    after_failure st call (run_call toLowerCase sortByName st call).
Proof.
  intros toLowerCase sortByName st call Hs Hfail.
  destruct call as [clock resp|randomUUID clock resp|clock playerId resp
    |listType resp|listType respInsert respLoad
    |clock newOrder respDelete respInsert|listType resp];
    cbn [run_call after_failure call_fails] in *.
  - (* load *)
    unfold loadFromSupabase. rewrite Hs. cbn [negb].
    destruct resp; [done|..]; (repeat split; [eexists; apply last_snoc]).
  - (* backup *)
    unfold backupToSupabase. rewrite Hs. cbn [negb].
    pose proof (backupMap_length randomUUID clock 0 (players st)) as Hlen.
    pose proof (backupMap_repaired randomUUID clock (players st)) as Hrep.
    pose proof (backupMap_rows_length randomUUID clock 0 (players st)) as Hrows.
    destruct (backupMap randomUUID clock 0 (players st)) as [ps' [rows|]];
      cbn [fst snd] in *.
    + set (st2 := set_players _ _).
      destruct (players_sends rows st2) as (Hp & Hl & _).
      destruct (_ =? 0) eqn:Hcount.
      * exfalso. apply Nat.eqb_eq in Hcount. destruct Hfail as (i & Hi & Hf).
        apply length_zero_iff_nil in Hcount.
        assert (i ∈ filter (λ i, match resp i with Resolved _ => true | _ => false end = false)
                    (seq 0 (length rows))) as Hin.
        { apply list_elem_of_filter. split.
          - by destruct (resp i).
          - apply elem_of_seq. rewrite (Hrows rows eq_refl). lia. }
        rewrite Hcount in Hin. by apply elem_of_nil in Hin.
      * cbn [players localStorage setSyncStatus]. rewrite Hp, Hl.
        split; [exact Hlen|]. split; [exact Hrep|]. split; [done|].
        eexists. apply last_snoc.
    + split; [exact Hlen|]. split; [exact Hrep|]. split; [done|].
      eexists. apply last_snoc.
  - (* delete *)
    unfold deletePlayer. destruct (findIndex playerId (players st)) eqn:Hf.
    + rewrite Hs. by repeat split.
    + split; [by rewrite filter_none_found|]. split; [done|]. by intros [? ?].
  - (* load of the rankings *)
    unfold loadRankings. rewrite Hs. by destruct resp.
  - (* initialize *)
    unfold initializeRankings. rewrite Hs. cbn [negb].
    destruct (_ ≫= sortByName); [|by repeat split; try left].
    destruct respInsert; [done|..];
      (repeat split; right; eexists; apply last_snoc).
  - (* reorder *)
    unfold updateRankingsOrder. rewrite Hs. cbn [negb orb].
    destruct (bool_decide (newOrder = [])); [by repeat split; try left|].
    destruct (visibleRankings toLowerCase st); [|by repeat split; try left].
    destruct (bool_decide (reorderedRankings _ _ = [])).
    { repeat split. right. eexists. apply last_snoc. }
    destruct respDelete; [|repeat split; right; eexists; apply last_snoc..].
    destruct Hfail as [[]|Hfail].
    destruct respInsert; [done|..];
      (repeat split; right; eexists; apply last_snoc).
  - (* clear *)
    unfold clearRankings. rewrite Hs. cbn [negb].
    destruct resp; [done|..];
      (repeat split; right; eexists; apply last_snoc).
Qed.

Lemma C8_remote_failure_witness :
  after_failure (Sample.with_players [Sample.local_drafted])
    (CallLoad Sample.clock0 Rejected)
    (run_call (λ s, s) (λ ps, Some ps) (Sample.with_players [Sample.local_drafted])
       (CallLoad Sample.clock0 Rejected)).
Proof.
  apply (C8_remote_failure (λ s, s) (λ ps, Some ps)
           (Sample.with_players [Sample.local_drafted])
           (CallLoad Sample.clock0 Rejected)).
  - reflexivity.
  - exact I.
Defined.
(** ** Outbound rows *)

(** *** The identifiers stay valid *)












(** *** The rows sent *)






(** *** The invariant of a session *)








(** The session of the sample, row by row: the player kept under "mets"
    is sent under the identifier [init] gave it, and the two players
    drafted by a team name are sent with no owner reference. *)
Example session_rows :
  let started := init true SampleMore.stored_legacy SampleOutbound.fresh Sample.clock0 in
  (λ row, (get row "id", get row "owner_id", get row "drafted"))
    <$> upserted (foldl (handle (λ s, s) (λ ps, Some ps)) started SampleMore.session)
  = [ (VStr Sample.uuid2, VNull, VBool false);
      (VStr Sample.uuid1, VNull, VBool true);
      (VStr SampleMore.uuid3, VNull, VBool true) ].
Proof. cbv zeta. decide_by_computation. Qed.

(** ** The subscription callback *)

(** X22.  The callback hands the whole payload to the handler of one row: a
    payload has no [id] of its own, so the handler throws before it looks
    at the collection and no real-time event is applied. *)
Lemma onPostgresChanges_throws (clock : nat → jsstring) (payload : obj) (st : State) :
  payload !! "id" = None →
  onPostgresChanges clock payload st = (TypeError, st).
Proof.
  intros Hid. unfold onPostgresChanges, handleRealtimeUpdate, convertRow, get.
  by rewrite Hid.
Qed.

(** ** The scenarios of the specification *)

(** Adding "Mike Trout" to an empty tracker: one undrafted player with a
    valid identifier and no owner. *)
Example scenario_add :
  (λ p, (get p "drafted", isInvalidId (get p "id"), get p "fantasyOwner")) <$>
    players (addPlayer Sample.uuid1 Sample.clock0 Scenario.trout (initial true))
  = [(VBool false, false, VStr [])].
Proof. decide_by_computation. Qed.

(** A remote record stored under "mets" is skipped by the merge. *)
Example scenario_invalid_remote_id :
  mergeLoop [Sample.local_drafted] [SampleOutbound.legacy_id] = [Sample.local_drafted].
Proof. decide_by_computation. Qed.

(** Draft, then undraft: the owner and the notes are empty and the
    [draftedDate] property is gone. *)
Example scenario_undraft :
  (λ p, (get p "fantasyOwner", get p "draftNotes", p !! "draftedDate")) <$>
    players (undraftPlayer Sample.clock0 (VStr Sample.uuid1)
               (foldl run_op (initial true) (take 2 Scenario.ops)))
  = [(VStr [], VStr [], None)].
Proof. decide_by_computation. Qed.
(** * Further properties of the code *)

(** * Further properties of the code *)

(** ** The merge is additive *)

(** X1.  A bulk merge keeps every local player at its index with its
    identifier: the collection is never shortened or reordered, and what a
    merge adds comes after the players that were there. *)
Theorem merge_keeps_local_players :
  ∀ (now : jsstring) (snapshot : list obj) (st : State),
    let st' := mergeSupabaseData now snapshot st in
    length (players st) ≤ length (players st')
    ∧ ids (take (length (players st)) (players st')) = ids (players st).
Proof.
  intros now snapshot st. cbn. split.
  - apply mergeFold_length.
  - apply mergeFold_ids. by rewrite firstn_all.
Qed.

(** X2.  A local player whose identifier no valid record of the snapshot
    carries comes out of the merge unchanged: a player missing from the
    remote snapshot is neither removed nor rewritten. *)
Theorem merge_leaves_unmatched_player :
  ∀ (now : jsstring) (snapshot : list obj) (st : State) (i : nat) (p : obj),
    players st !! i = Some p →
    (∀ r, r ∈ snapshot → isInvalidId (get r "id") = false →
          get r "id" ≠ get p "id") →
    players (mergeSupabaseData now snapshot st) !! i = Some p.
Proof.
  intros now snapshot st i p Hp Hno. cbn. unfold mergeLoop.
  rewrite mergeFold_untouched; [done|by eapply lookup_lt_Some|].
  intros r Hr Hv Hm.
  apply existingPlayerMap_Some in Hm as [(q & Hq & Hid) _].
  apply (Hno r Hr Hv). congruence.
Qed.

Lemma merge_leaves_unmatched_player_witness :
  players (mergeSupabaseData Sample.t0 [SampleMore.other_remote]
             (Sample.with_players [Sample.local_drafted])) !! 0
  = Some Sample.local_drafted.
Proof.
  apply merge_leaves_unmatched_player.
  - reflexivity.
  - intros r ->%list_elem_of_singleton _ E. refute_by_computation E.
Defined.

(** X3.  When several local players are stored under one identifier, the
    merge writes to the last of them only: a player that has a later
    namesake is never touched, whatever the snapshot. *)
Theorem merge_never_writes_earlier_duplicate :
  ∀ (now : jsstring) (snapshot : list obj) (st : State) (i j : nat) (p q : obj),
    players st !! i = Some p →
    players st !! j = Some q →
    i < j →
    get q "id" = get p "id" →
    players (mergeSupabaseData now snapshot st) !! i = Some p.
Proof.
  intros now snapshot st i j p q Hp Hq Hij Hid. cbn. unfold mergeLoop.
  rewrite mergeFold_untouched; [done|by eapply lookup_lt_Some|].
  intros r _ _ Hm.
  apply existingPlayerMap_Some in Hm as [(p' & Hp' & Hid') Hlast].
  apply (Hlast j q Hij Hq). congruence.
Qed.

Lemma merge_never_writes_earlier_duplicate_witness :
  players (mergeSupabaseData Sample.t0 [Sample.remote_team_b]
             (Sample.with_players SampleMore.twins)) !! 0
  = Some (Sample.record Sample.uuid1 "Mike Trout" true "Team A").
Proof.
  apply (merge_never_writes_earlier_duplicate Sample.t0 [Sample.remote_team_b]
           (Sample.with_players SampleMore.twins) 0 1 _
           (Sample.record Sample.uuid1 "Mike Trout" false "")).
  - reflexivity.
  - reflexivity.
  - lia.
  - reflexivity.
Defined.

Lemma mergeFold_append m (l ps : list obj) :
  (∀ r, r ∈ l → isInvalidId (get r "id") = false → m (get r "id") = None) →
  foldl (mergeOne m) ps l = ps ++ filter (λ r, isInvalidId (get r "id") = false) l.
Proof.
  revert ps. induction l as [|r l IH]; intros ps Hl.
  - by rewrite app_nil_r.
  - cbn [foldl]. rewrite IH by (intros r' Hr'; apply Hl; by right).
    unfold mergeOne. destruct (isInvalidId (get r "id")) eqn:Hv.
    + by rewrite filter_cons_False by by rewrite Hv.
    + rewrite (Hl r) by (done || by left).
      rewrite filter_cons_True by done. by rewrite <- app_assoc.
Qed.

(** X4.  When no local player carries the identifier of any valid record
    of the snapshot, the merge appends the valid records in snapshot order
    and drops the others: records with an invalid identifier are skipped,
    and a record listed twice is appended twice, the lookup of local
    players not being extended by what the merge appends. *)
Theorem merge_appends_unknown_records :
  ∀ (now : jsstring) (snapshot : list obj) (st : State),
    (∀ r p, r ∈ snapshot → p ∈ players st →
            isInvalidId (get r "id") = false → get p "id" ≠ get r "id") →
    players (mergeSupabaseData now snapshot st)
    = players st ++ filter (λ r, isInvalidId (get r "id") = false) snapshot.
Proof.
  intros now snapshot st Hnew. cbn. unfold mergeLoop.
  apply mergeFold_append. intros r Hr Hv.
  apply existingPlayerMap_None. intros p Hp. by apply (Hnew r p).
Qed.

Lemma merge_appends_unknown_records_witness :
  players (mergeSupabaseData Sample.t0
             [Sample.remote_team_b; SampleOutbound.legacy_id; Sample.remote_team_b]
             (Sample.with_players []))
  = players (Sample.with_players [])
    ++ filter (λ r, isInvalidId (get r "id") = false)
         [Sample.remote_team_b; SampleOutbound.legacy_id; Sample.remote_team_b].
Proof.
  apply merge_appends_unknown_records.
  intros r p _ Hp. by apply elem_of_nil in Hp.
Defined.

(** ** Identifiers stay unique *)

Lemma NoDup_fmap_filter {A B} (f : A → B) (P : A → Prop) `{∀ x, Decision (P x)}
    (l : list A) :
  NoDup (f <$> l) → NoDup (f <$> filter P l).
Proof.
  induction l as [|x l IH]; [done|]. rewrite fmap_cons.
  intros [Hx Hl]%NoDup_cons.
  destruct (decide (P x)).
  - rewrite filter_cons_True by done. rewrite fmap_cons.
    apply NoDup_cons. split; [|by apply IH].
    intros (y & Hy & Hin)%list_elem_of_fmap. apply Hx.
    apply list_elem_of_filter in Hin as [_ Hin].
    rewrite Hy. by apply list_elem_of_fmap_2.
  - rewrite filter_cons_False by done. by apply IH.
Qed.

(** What the loop leaves beyond the first [n] players, [n] bounding the
    lookup: what was there, then the valid records the lookup does not
    know, in snapshot order. *)
Lemma mergeFold_drop m (n : nat) (l ps : list obj) :
  (∀ k i, m k = Some i → i < n) → n ≤ length ps →
  drop n (foldl (mergeOne m) ps l)
  = drop n ps ++ filter (λ r, isInvalidId (get r "id") = false
                              ∧ m (get r "id") = None) l.
Proof.
  intros Hm. revert ps. induction l as [|r l IH]; intros ps Hn.
  - by rewrite app_nil_r.
  - cbn [foldl]. rewrite IH by (pose proof (mergeOne_length m ps r); lia).
    unfold mergeOne. destruct (isInvalidId (get r "id")) eqn:Hv.
    + rewrite filter_cons_False; [done|]. rewrite Hv. by intros [? _].
    + destruct (m (get r "id")) as [i|] eqn:Hmr.
      * rewrite filter_cons_False by (intros [_ ?]; congruence).
        destruct (ps !! i); [|done].
        rewrite drop_insert_lt by by eapply Hm. done.
      * rewrite filter_cons_True by done.
        rewrite drop_app_le by done. by rewrite <- app_assoc.
Qed.

(** X5.  When the identifiers of the local players are pairwise distinct
    and so are those of the valid records of the snapshot, the identifiers
    are pairwise distinct after the merge. *)
Theorem merge_keeps_ids_unique :
  ∀ (now : jsstring) (snapshot : list obj) (st : State),
    NoDup (ids (players st)) →
    NoDup (valid_ids snapshot) →
    NoDup (ids (players (mergeSupabaseData now snapshot st))).
Proof.
  intros now snapshot st Hps Hs. cbn. unfold mergeLoop.
  set (ps := players st) in *. set (m := existingPlayerMap ps).
  set (F := foldl (mergeOne m) ps snapshot).
  rewrite <- (take_drop (length ps) F). unfold ids. rewrite fmap_app.
  assert (ids (take (length ps) F) = ids ps) as Htake.
  { apply mergeFold_ids. by rewrite firstn_all. }
  unfold ids in Htake. rewrite Htake.
  unfold F. rewrite (mergeFold_drop m (length ps)); [|apply existingPlayerMap_lt|done].
  rewrite drop_all, app_nil_l.
  apply NoDup_app. split; [done|]. split.
  - intros k (p & -> & Hp)%list_elem_of_fmap (r & Hk & Hr)%list_elem_of_fmap.
    apply list_elem_of_filter in Hr as [[_ Hnone] _].
    eapply existingPlayerMap_None in Hnone; [|done]. congruence.
  - rewrite <- (list_filter_filter_l _ (λ r, isInvalidId (get r "id") = false));
      [|tauto].
    by apply NoDup_fmap_filter.
Qed.

Lemma merge_keeps_ids_unique_witness :
  NoDup (ids (players (mergeSupabaseData Sample.t0
                         [Sample.remote_undrafted; SampleMore.other_remote]
                         (Sample.with_players [Sample.local_drafted])))).
Proof.
  apply merge_keeps_ids_unique; decide_by_computation.
Defined.

(** X6.  The insert handler, given a row whose [id] renders as [id]: when
    a local player is stored under [id] the state is returned as it was;
    when none is, the converted row is appended as the last player, stored
    under [id], and the collection is persisted and rendered; either way,
    identifiers that were pairwise distinct stay so. *)
Theorem insert_event_appends_unknown :
  ∀ (clock : nat → jsstring) (row : obj) (st : State) (id : jsstring),
    toString (get row "id") = Some id →
    let st' := (handleRealtimeInsert clock row st).2 in
    ((∃ p, p ∈ players st ∧ get p "id" = VStr id) → st' = st)
    ∧ ((∀ p, p ∈ players st → get p "id" ≠ VStr id) →
         ∃ r, convertRow (clock 0) row = Some r
           ∧ get r "id" = VStr id
           ∧ players st' = players st ++ [r]
           ∧ localStorage st' = Some (json <$> players st', clock 1)
           ∧ renders st' = S (renders st))
    ∧ (NoDup (ids (players st)) → NoDup (ids (players st'))).
Proof.
  intros clock row st id Hid. cbn zeta. unfold handleRealtimeInsert.
  assert (∃ r, convertRow (clock 0) row = Some r ∧ get r "id" = VStr id)
    as (r & Hr & Hrid).
  { unfold convertRow. rewrite Hid. cbn. eexists. split; [done|]. by get_simpl. }
  rewrite Hr, Hrid. split; [|split].
  - intros (p & Hp & Hpid).
    destruct (findIndex (VStr id) (players st)) eqn:Hf; [done|].
    by destruct (proj1 (findIndex_None _ _) Hf p Hp).
  - intros Hnone. rewrite (proj2 (findIndex_None _ _) Hnone). by exists r.
  - intros Hnd. destruct (findIndex _ _) eqn:Hf; [done|]. cbn.
    unfold ids. rewrite fmap_app. apply NoDup_app. split; [done|]. split.
    + intros k (p & -> & Hp)%list_elem_of_fmap Hk.
      apply list_elem_of_singleton in Hk. rewrite Hrid in Hk.
      exact (proj1 (findIndex_None _ _) Hf p Hp Hk).
    + apply NoDup_singleton.
Qed.

Lemma insert_event_appends_unknown_witness :
  let st := Sample.with_players [SampleMore.other_remote] in
  let st' := (handleRealtimeInsert Sample.clock0 SampleRows.row_undrafted st).2 in
  ((∃ p, p ∈ players st ∧ get p "id" = VStr Sample.uuid1) → st' = st)
  ∧ ((∀ p, p ∈ players st → get p "id" ≠ VStr Sample.uuid1) →
       ∃ r, convertRow (Sample.clock0 0) SampleRows.row_undrafted = Some r
         ∧ get r "id" = VStr Sample.uuid1
         ∧ players st' = players st ++ [r]
         ∧ localStorage st' = Some (json <$> players st', Sample.clock0 1)
         ∧ renders st' = S (renders st))
  ∧ (NoDup (ids (players st)) → NoDup (ids (players st'))).
Proof.
  apply (insert_event_appends_unknown Sample.clock0 SampleRows.row_undrafted
           (Sample.with_players [SampleMore.other_remote]) Sample.uuid1).
  reflexivity.
Defined.

(** The row of the sample is appended after the player already there. *)
Example insert_event_sample :
  ids (players (handleRealtimeInsert Sample.clock0 SampleRows.row_undrafted
                  (Sample.with_players [SampleMore.other_remote])).2)
  = [VStr Sample.uuid2; VStr Sample.uuid1].
Proof. decide_by_computation. Qed.

Lemma convertRow_id (now : jsstring) (row r : obj) :
  convertRow now row = Some r → ∃ id, r !! "id" = Some (VStr id).
Proof.
  unfold convertRow. destruct (toString _) as [id|]; [|done]. cbn.
  intros [= <-]. exists id. by get_simpl.
Qed.

(** X7.  An update event never adds, removes or moves a player and never
    changes an identifier: the identifiers of the collection read the same
    before and after, whatever the row. *)
Theorem update_event_keeps_ids :
  ∀ (clock : nat → jsstring) (row : obj) (st : State),
    ids (players (handleRealtimeUpdate clock row st).2) = ids (players st).
Proof.
  intros clock row st. unfold handleRealtimeUpdate.
  destruct (convertRow _ _) as [u|] eqn:Hu; [|done].
  destruct (findIndex _ _) as [i|] eqn:Hf; [|done].
  destruct (players st !! i) as [p|] eqn:Hp; [|done].
  destruct (hasChanges p u); [|done]. cbn.
  unfold ids. rewrite list_fmap_insert. apply list_insert_id.
  rewrite list_lookup_fmap, Hp. cbn. f_equal.
  apply findIndex_Some in Hf as (p' & Hp' & Hid & _).
  assert (p' = p) as -> by congruence.
  destruct (convertRow_id _ _ _ Hu) as [id Hidk].
  rewrite (get_assign_source p u "id" _ Hidk).
  rewrite Hid. unfold get. by rewrite Hidk.
Qed.

(** ** Removing a player *)

(** X8.  [deletePlayer] removes every player stored under the identifier,
    keeps the others in order, and does so whatever the backend answers;
    when a player was found the removal is persisted before the remote
    delete is requested, and when none was found nothing happens at all. *)
Theorem deletePlayer_removes_every_namesake :
  ∀ (clock : nat → jsstring) (playerId : val) (resp : outcome unit) (st : State),
    let st' := deletePlayer clock playerId resp st in
    players st' = filter (λ p, get p "id" ≠ playerId) (players st)
    ∧ (∀ p, p ∈ players st' → get p "id" ≠ playerId)
    ∧ (findIndex playerId (players st) = None → st' = st)
    ∧ (is_Some (findIndex playerId (players st)) →
       localStorage st' = Some (json <$> players st', clock 0)
       ∧ sent st' = sent st ++ (if supabase st then [DeletePlayer playerId] else [])).
Proof.
  intros clock playerId resp st. cbn zeta.
  assert (players (deletePlayer clock playerId resp st)
          = filter (λ p, get p "id" ≠ playerId) (players st)) as Hp.
  { unfold deletePlayer. destruct (findIndex playerId (players st)) eqn:Hf.
    - by destruct (supabase st).
    - by rewrite filter_none_found. }
  split; [done|]. split; [|split].
  - rewrite Hp. by intros p [? _]%list_elem_of_filter.
  - intros Hf. unfold deletePlayer. by rewrite Hf.
  - intros [i Hf]. unfold deletePlayer. rewrite Hf.
    destruct (supabase st); cbn; [done|]. by rewrite app_nil_r.
Qed.

Lemma filter_delete_first (id : val) (ps : list obj) (i : nat) :
  NoDup (ids ps) → findIndex id ps = Some i →
  delete i ps = filter (λ p, get p "id" ≠ id) ps.
Proof.
  revert i. induction ps as [|p ps IH]; intros i Hnd Hf.
  - by apply findIndex_Some in Hf as (? & ? & _).
  - cbn in Hnd. apply NoDup_cons in Hnd as [Hp Hnd].
    apply findIndex_Some in Hf as (q & Hq & Hid & Hfirst).
    destruct i as [|i].
    + cbn in Hq. injection Hq as ->. cbn [delete list_delete].
      rewrite filter_cons_False by tauto.
      symmetry. apply filter_Forall_id, Forall_forall. intros p' Hp' E.
      apply Hp. rewrite Hid, <- E.
      by apply (list_elem_of_fmap_2 (λ p0 : obj, get p0 "id")).
    + cbn in Hq. cbn [delete list_delete].
      rewrite filter_cons_True by (apply (Hfirst 0 p); [done|lia]).
      f_equal. apply IH; [done|]. apply findIndex_Some.
      exists q. split; [done|]. split; [done|].
      intros j q' Hq' Hj. apply (Hfirst (S j) q'); [done|lia].
Qed.

(** X9.  A delete event removes the first player stored under the
    identifier of the row; when the identifiers of the collection are
    pairwise distinct this is every such player, as [deletePlayer] does,
    and an event for an unknown identifier changes nothing. *)
Theorem delete_event_removes_player :
  ∀ (clock : nat → jsstring) (row : obj) (st : State) (id : jsstring),
    toString (get row "id") = Some id →
    NoDup (ids (players st)) →
    players (handleRealtimeDelete clock row st).2
    = filter (λ p, get p "id" ≠ VStr id) (players st).
Proof.
  intros clock row st id Hid Hnd. unfold handleRealtimeDelete. rewrite Hid.
  destruct (findIndex _ _) as [i|] eqn:Hf; cbn.
  - by apply filter_delete_first.
  - by rewrite filter_none_found.
Qed.

Lemma delete_event_removes_player_witness :
  players (handleRealtimeDelete Sample.clock0 SampleRows.row_undrafted
             (Sample.with_players [Sample.local_drafted])).2
  = filter (λ p, get p "id" ≠ VStr Sample.uuid1)
      (players (Sample.with_players [Sample.local_drafted])).
Proof.
  apply delete_event_removes_player; decide_by_computation.
Defined.

(** ** Repairing identifiers *)

Lemma imap_fix_valid (randomUUID : nat → jsstring) (ps : list obj) :
  Forall (λ p, isInvalidId (get p "id") = false) ps →
  imap (backupFixId randomUUID) ps = ps.
Proof.
  intros Hv. apply list_eq. intros i. rewrite list_lookup_imap.
  destruct (ps !! i) as [p|] eqn:Hp; [|done]. cbn. f_equal.
  unfold backupFixId. by rewrite (Forall_lookup_1 _ _ _ _ Hv Hp).
Qed.

Lemma existsb_invalid_false (ps : list obj) :
  Forall (λ p, isInvalidId (get p "id") = false) ps →
  existsb (λ player, isInvalidId (get player "id")) ps = false.
Proof.
  induction 1 as [|p ps Hp _ IH]; [done|]. cbn. by rewrite Hp, IH.
Qed.

Lemma set_players_same (st : State) : set_players (players st) st = st.
Proof. by destruct st. Qed.

Lemma ensure_valid_noop (randomUUID clock : nat → jsstring) (st : State) :
  Forall (λ p, isInvalidId (get p "id") = false) (players st) →
  ensureAllPlayersHaveUUIDs randomUUID clock st = st.
Proof.
  intros Hv. unfold ensureAllPlayersHaveUUIDs.
  rewrite existsb_invalid_false by done.
  change (λ i player, if isInvalidId (get player "id")
                       then <["id" := VStr (randomUUID i)]> player else player)
    with (backupFixId randomUUID).
  rewrite imap_fix_valid by done. apply set_players_same.
Qed.

(** X10.  With canonical identifiers drawn, [ensureAllPlayersHaveUUIDs]
    leaves every player with an identifier that passes the validity test:
    a player whose identifier was valid is untouched, one whose identifier
    was not gets the identifier drawn for its index and keeps its other
    properties, no player is added or removed, the collection is persisted
    exactly when some identifier was replaced, and a second run changes
    nothing. *)
Theorem ensureAllPlayersHaveUUIDs_repairs :
  ∀ (randomUUID clock : nat → jsstring) (st : State),
    (∀ i, is_canonical (randomUUID i) = true) →
    let st' := ensureAllPlayersHaveUUIDs randomUUID clock st in
    length (players st') = length (players st)
    ∧ Forall (λ p, isInvalidId (get p "id") = false) (players st')
    ∧ (∀ i p, players st !! i = Some p →
         players st' !! i
         = Some (if isInvalidId (get p "id")
                 then <["id" := VStr (randomUUID i)]> p else p))
    ∧ (Forall (λ p, isInvalidId (get p "id") = false) (players st) → st' = st)
    ∧ (Exists (λ p, isInvalidId (get p "id") = true) (players st) →
       localStorage st' = Some (json <$> players st', clock 0))
    ∧ ∀ randomUUID' clock', ensureAllPlayersHaveUUIDs randomUUID' clock' st' = st'.
Proof.
  intros randomUUID clock st Hc. cbn zeta.
  assert (Forall (λ p, isInvalidId (get p "id") = false)
            (players (ensureAllPlayersHaveUUIDs randomUUID clock st))) as Hvalid.
  { rewrite ensure_players. apply Forall_forall.
    intros p (i & Hi)%list_elem_of_lookup. rewrite list_lookup_imap in Hi.
    apply fmap_Some in Hi as (q & _ & ->). by apply backupFixId_valid. }
  split; [by rewrite ensure_players, length_imap|]. split; [done|].
  split; [|split; [|split]].
  - intros i p Hp. by rewrite ensure_players, list_lookup_imap, Hp.
  - apply ensure_valid_noop.
  - intros Hex. unfold ensureAllPlayersHaveUUIDs.
    assert (existsb (λ player, isInvalidId (get player "id")) (players st) = true) as ->.
    { apply existsb_exists. apply Exists_exists in Hex as (p & Hp & Hinv).
      exists p. split; [by apply list_elem_of_In|done]. }
    done.
  - intros randomUUID' clock'. by apply ensure_valid_noop.
Qed.

Lemma ensureAllPlayersHaveUUIDs_repairs_witness :
  let st := Sample.with_players [SampleOutbound.legacy_id; Sample.local_drafted] in
  let st' := ensureAllPlayersHaveUUIDs SampleOutbound.fresh Sample.clock0 st in
  length (players st') = length (players st)
  ∧ Forall (λ p, isInvalidId (get p "id") = false) (players st')
  ∧ (∀ i p, players st !! i = Some p →
       players st' !! i
       = Some (if isInvalidId (get p "id")
               then <["id" := VStr (SampleOutbound.fresh i)]> p else p))
  ∧ (Forall (λ p, isInvalidId (get p "id") = false) (players st) → st' = st)
  ∧ (Exists (λ p, isInvalidId (get p "id") = true) (players st) →
     localStorage st' = Some (json <$> players st', Sample.clock0 0))
  ∧ ∀ randomUUID' clock', ensureAllPlayersHaveUUIDs randomUUID' clock' st' = st'.
Proof.
  apply (ensureAllPlayersHaveUUIDs_repairs SampleOutbound.fresh Sample.clock0
           (Sample.with_players [SampleOutbound.legacy_id; Sample.local_drafted])).
  intros i. decide_by_computation.
Defined.

(** ** Local storage *)

Lemma get_json (o : obj) (k : string) : get (json o) k = get o k.
Proof.
  unfold get, json. rewrite map_lookup_filter.
  destruct (o !! k) as [v|]; [|done]. cbn.
  case_guard as Hv; [done|]. cbn in Hv.
  destruct (decide (v = VUndefined)) as [->|]; [done|contradiction].
Qed.

Lemma json_json (o : obj) : json (json o) = json o.
Proof.
  apply map_eq. intros k. unfold json. rewrite !map_lookup_filter.
  destruct (o !! k) as [v|]; [|done]. cbn.
  case_guard as Hv; cbn; [|done]. by rewrite option_guard_True.
Qed.

(** X11.  What [saveToStorage] writes and [loadFromStorage] reads back in
    the next session is the same collection as far as any property read
    can tell: as many players, in the same order, every property reading
    the same on the reloaded player (the properties holding [undefined] are
    the only ones lost); and saving the reloaded collection writes the same
    players again. *)
Theorem storage_round_trip :
  ∀ (now now' : jsstring) (st st0 : State),
    let reloaded := loadFromStorage (stored_item_of (saveToStorage now st)) st0 in
    length (players reloaded) = length (players st)
    ∧ (∀ i p, players st !! i = Some p →
         ∃ p', players reloaded !! i = Some p' ∧ ∀ k, get p' k = get p k)
    ∧ fst <$> localStorage (saveToStorage now' reloaded)
      = fst <$> localStorage (saveToStorage now st).
Proof.
  intros now now' st st0. cbn. split; [by rewrite length_fmap|]. split.
  - intros i p Hp. exists (json p). rewrite list_lookup_fmap, Hp.
    split; [done|]. apply get_json.
  - f_equal. rewrite <- list_fmap_compose. apply list_fmap_ext.
    intros i p _. apply json_json.
Qed.

(** ** Backing up *)

Lemma not_string_thrown (v : val) : ¬ string_or_missing v → backupLogThrows v = true.
Proof.
  intros H. destruct (backupLogThrows v) eqn:E; [done|].
  by apply backupLogThrows_false in E.
Qed.

(** X12.  What a configured [backupToSupabase] sends and what it leaves
    behind, with canonical identifiers drawn.  When every player's
    identifier is a string or is missing: one normalized row per player, in
    order, the identifiers that fail the validity test replaced in memory
    and nothing else of a player changed, the stored snapshot as it was (the
    replacement is not persisted).  When some player's identifier is a
    number or a boolean, the diagnostic log of the map throws: no row is
    sent, the stored snapshot is as it was, and an error is reported. *)
Theorem backupToSupabase_rows :
  ∀ (randomUUID clock : nat → jsstring) (resp : nat → outcome unit) (st : State),
    supabase st = true →
    (∀ i, is_canonical (randomUUID i) = true) →
    let st' := backupToSupabase randomUUID clock resp st in
    (Forall (λ p, string_or_missing (get p "id")) (players st) →
       ∃ rows, upserted st' = upserted st ++ rows
         ∧ Forall2 row_normalized (players st) rows
         ∧ (∀ i p, players st !! i = Some p →
              players st' !! i
              = Some (if isInvalidId (get p "id")
                      then <["id" := VStr (randomUUID i)]> p else p))
         ∧ localStorage st' = localStorage st)
    ∧ (Exists (λ p, ¬ string_or_missing (get p "id")) (players st) →
         upserted st' = upserted st
         ∧ localStorage st' = localStorage st
         ∧ reports_error st').
Proof.
  intros randomUUID clock resp st Hs Hc. cbn zeta.
  unfold backupToSupabase. rewrite Hs. cbn [negb]. split.
  - intros Hstr.
    rewrite backupMap_strings
      by (eapply Forall_impl; [exact Hstr|]; intros p; apply backupLogThrows_false).
    cbn [fst snd].
    set (rows := imap (backupRow randomUUID clock) (players st)).
    set (st2 := set_players _ _).
    destruct (players_sends rows st2) as (Hp & Hl & _).
    pose proof (sent_sends rows st2) as Hsent.
    exists rows. split; [|split; [|split]].
    + destruct (_ =? 0); unfold upserted; cbn [sent setSyncStatus];
        rewrite Hsent; unfold st2; cbn [sent set_players setSyncStatus];
        by rewrite upserted_app, omap_upserts.
    + apply Forall2_same_length_lookup. split; [by unfold rows; rewrite length_imap|].
      intros i player row Hp' Hrow. unfold rows in Hrow.
      rewrite list_lookup_imap, Hp' in Hrow. injection Hrow as <-.
      by apply backupRow_normalized.
    + intros i p Hi.
      destruct (_ =? 0); cbn [players setSyncStatus]; rewrite Hp; unfold st2;
        cbn [players set_players]; by rewrite list_lookup_imap, Hi.
    + by destruct (_ =? 0).
  - intros Hex.
    rewrite backupMap_thrown.
    + split; [done|]. split; [done|]. eexists. apply last_snoc.
    + eapply Exists_impl; [exact Hex|]. intros p. apply not_string_thrown.
Qed.

Lemma backupToSupabase_rows_witness :
  let st := Sample.with_players [SampleOutbound.drafted_by_name;
                                 SampleOutbound.legacy_id] in
  let st' := backupToSupabase SampleOutbound.fresh Sample.clock0
               SampleOutbound.all_ok st in
  (Forall (λ p, string_or_missing (get p "id")) (players st) →
     ∃ rows, upserted st' = upserted st ++ rows
       ∧ Forall2 row_normalized (players st) rows
       ∧ (∀ i p, players st !! i = Some p →
            players st' !! i
            = Some (if isInvalidId (get p "id")
                    then <["id" := VStr (SampleOutbound.fresh i)]> p else p))
       ∧ localStorage st' = localStorage st)
  ∧ (Exists (λ p, ¬ string_or_missing (get p "id")) (players st) →
       upserted st' = upserted st
       ∧ localStorage st' = localStorage st
       ∧ reports_error st').
Proof.
  apply (backupToSupabase_rows SampleOutbound.fresh Sample.clock0 SampleOutbound.all_ok
           (Sample.with_players [SampleOutbound.drafted_by_name;
                                 SampleOutbound.legacy_id])).
  - reflexivity.
  - intros i. decide_by_computation.
Defined.

(** A player stored under a number stops the backup of the players listed
    before and after it: nothing is sent and an error is reported, while the
    identifier of the player before it has been replaced in memory. *)
Example backup_of_numbered_player :
  let st := Sample.with_players [SampleOutbound.legacy_id; SampleOutbound.numbered;
                                 SampleOutbound.drafted_by_name] in
  let st' := backupToSupabase SampleOutbound.fresh Sample.clock0
               SampleOutbound.all_ok st in
  (upserted st', ids (players st'),
   (λ s, match s.2 with StError => true | _ => false end) <$> statusLog st')
  = ([], [VStr Sample.uuid2; VNum 1700000000000; VStr Sample.uuid1],
     [false; true]).
Proof. cbv zeta. decide_by_computation. Qed.

Lemma filter_nil_iff {A} (P : A → Prop) `{∀ x, Decision (P x)} (l : list A) :
  filter P l = [] ↔ Forall (λ x, ¬ P x) l.
Proof.
  induction l as [|x l IH]; [by split|].
  destruct (decide (P x)).
  - rewrite filter_cons_True by done. split; [done|].
    intros [? _]%Forall_cons. contradiction.
  - rewrite filter_cons_False by done. rewrite IH, Forall_cons. tauto.
Qed.

(** X13.  A configured backup ends with exactly one final report on the
    status channel: a success when every player's identifier is a string
    or is missing and the upsert of every player resolved without error; an
    error when some identifier is a number or a boolean (the map throws
    before any upsert) or when one upsert was answered with an error or
    rejected. *)
Theorem backupToSupabase_status :
  ∀ (randomUUID clock : nat → jsstring) (resp : nat → outcome unit) (st : State),
    supabase st = true →
    ∃ message type,
      last (statusLog (backupToSupabase randomUUID clock resp st))
      = Some (message, type)
      ∧ (type = StSuccess ∨ type = StError)
      ∧ (type = StSuccess ↔
         Forall (λ p, string_or_missing (get p "id")) (players st)
         ∧ ∀ i, i < length (players st) → ∃ u, resp i = Resolved u).
Proof.
  intros randomUUID clock resp st Hs. unfold backupToSupabase. rewrite Hs. cbn [negb].
  destruct (decide (Forall (λ p, backupLogThrows (get p "id") = false) (players st)))
    as [Hstr|Hthrow].
  - assert (Forall (λ p, string_or_missing (get p "id")) (players st)) as Hstr'.
    { eapply Forall_impl; [exact Hstr|]. intros p. apply backupLogThrows_false. }
    rewrite backupMap_strings by done. cbn [fst snd]. rewrite length_imap.
    match goal with
    | |- context [if ?c then _ else _] => destruct c eqn:Hcount
    end.
    + eexists _, StSuccess. split; [apply last_snoc|]. split; [by left|].
      split; [|done]. intros _. split; [done|]. intros i Hi.
      apply Nat.eqb_eq, length_zero_iff_nil, filter_nil_iff in Hcount.
      rewrite Forall_forall in Hcount.
      specialize (Hcount i ltac:(apply elem_of_seq; lia)). cbn beta in Hcount.
      destruct (resp i) as [u| |]; [by exists u|done..].
    + eexists _, StError. split; [apply last_snoc|]. split; [by right|].
      split; [done|]. intros [_ Hall]. exfalso.
      apply Nat.eqb_neq in Hcount. apply Hcount, length_zero_iff_nil, filter_nil_iff.
      apply Forall_forall. intros i Hi%elem_of_seq.
      destruct (Hall i) as [u Hu]; [lia|]. by rewrite Hu.
  - apply not_Forall_Exists in Hthrow; [|apply _].
    rewrite backupMap_thrown.
    + eexists _, StError. split; [apply last_snoc|]. split; [by right|].
      split; [done|]. intros [Hstr _]. exfalso.
      apply Exists_exists in Hthrow as (p & Hp & Hthrow). cbn in Hthrow.
      rewrite Forall_forall in Hstr. apply Hthrow, backupLogThrows_false, Hstr, Hp.
    + eapply Exists_impl; [exact Hthrow|]. intros p Hp. cbn in Hp.
      by destruct (backupLogThrows (get p "id")).
Qed.

Lemma backupToSupabase_status_witness :
  ∃ message type,
    last (statusLog (backupToSupabase SampleOutbound.fresh Sample.clock0
                       SampleOutbound.all_ok
                       (Sample.with_players [SampleOutbound.drafted_by_name])))
    = Some (message, type)
    ∧ (type = StSuccess ∨ type = StError)
    ∧ (type = StSuccess ↔
       Forall (λ p, string_or_missing (get p "id"))
         (players (Sample.with_players [SampleOutbound.drafted_by_name]))
       ∧ ∀ i, i < length (players (Sample.with_players [SampleOutbound.drafted_by_name])) →
              ∃ u, SampleOutbound.all_ok i = Resolved u).
Proof.
  apply (backupToSupabase_status SampleOutbound.fresh Sample.clock0
           SampleOutbound.all_ok
           (Sample.with_players [SampleOutbound.drafted_by_name])).
  reflexivity.
Defined.

Lemma valid_is_string (v : val) : isInvalidId v = false → ∃ s, v = VStr s.
Proof.
  destruct v as [| |b|n|s]; try done.
  - by destruct b.
  - unfold isInvalidId. cbn. by destruct (n =? 0)%Z.
  - by exists s.
Qed.

(** X14.  A drafted player with a valid identifier that is backed up and
    then merged back from the row that was sent keeps its owner only when
    the owner passes the validity test: the backup sends [null] for any
    other owner (a team name), the remote row still reports drafted, so
    the merge copies the empty owner over the local one and draft
    precedence does not apply. *)
Theorem backup_then_merge_owner :
  ∀ (randomUUID clock : nat → jsstring) (i : nat) (now : jsstring) (p : obj),
    isInvalidId (get p "id") = false →
    truthy (get p "drafted") = true →
    ∃ r, convertRow now (backupRow randomUUID clock i p) = Some r
      ∧ get r "id" = get p "id"
      ∧ get (mergeExisting p r) "drafted" = get p "drafted"
      ∧ get (mergeExisting p r) "fantasyOwner"
        = if isValidOwnerId (get p "fantasyOwner")
          then get p "fantasyOwner" else VStr [].
Proof.
  intros randomUUID clock i now p Hv Hd.
  unfold backupRow, backupFixId. rewrite Hv.
  destruct (valid_is_string _ Hv) as [id Hid]. rewrite Hid.
  unfold convertRow, dataToSend. get_simpl. cbn [toString mbind option_bind].
  eexists. split; [done|]. get_simpl. split; [done|].
  rewrite backupOwnerId_normalized. unfold normalized_owner.
  rewrite (or_else_truthy (get p "drafted")) by done.
  rewrite (or_else_truthy (get p "drafted")) by done.
  unfold mergeExisting. rewrite Hd.
  assert (∀ (o : obj) v, reportsNotDrafted (<["id" := v]> o) = reportsNotDrafted o)
    as Hrep by (intros; unfold reportsNotDrafted; by get_simpl).
  set (r := <["id" := _]> _).
  assert (r !! "drafted" = Some (get p "drafted")) as Hrd
    by (unfold r; by get_simpl).
  assert (reportsNotDrafted r = false) as ->.
  { unfold reportsNotDrafted, get. rewrite Hrd. cbn. rewrite Hd. cbn.
    unfold strict_eq. apply bool_decide_eq_false. intros E. rewrite E in Hd. done. }
  cbn [andb]. split; [by apply get_assign_source|].
  destruct (isValidOwnerId (get p "fantasyOwner")) eqn:Ho.
  - apply get_assign_source. unfold r. get_simpl.
    rewrite or_else_truthy; [done|].
    destruct (get p "fantasyOwner") as [| | | |o]; try done.
    destruct o; done.
  - apply get_assign_source. unfold r. by get_simpl.
Qed.

Lemma backup_then_merge_owner_witness :
  ∃ r, convertRow Sample.t0
         (backupRow SampleOutbound.fresh Sample.clock0 0 SampleOutbound.drafted_by_name)
       = Some r
    ∧ get r "id" = get SampleOutbound.drafted_by_name "id"
    ∧ get (mergeExisting SampleOutbound.drafted_by_name r) "drafted"
      = get SampleOutbound.drafted_by_name "drafted"
    ∧ get (mergeExisting SampleOutbound.drafted_by_name r) "fantasyOwner"
      = if isValidOwnerId (get SampleOutbound.drafted_by_name "fantasyOwner")
        then get SampleOutbound.drafted_by_name "fantasyOwner" else VStr [].
Proof.
  apply backup_then_merge_owner; decide_by_computation.
Defined.

(** ** Local mutations *)

Lemma findIndex_insert (id : val) (ps : list obj) (i : nat) (q : obj) :
  findIndex id ps = Some i → get q "id" = id →
  findIndex id (<[i := q]> ps) = Some i.
Proof.
  intros (p & Hp & Hid & Hfirst)%findIndex_Some Hq. apply findIndex_Some.
  exists q. split; [|split; [done|]].
  - apply list_lookup_insert_eq. by eapply lookup_lt_Some.
  - intros j q' Hq' Hj. rewrite list_lookup_insert_ne in Hq' by lia.
    by eapply Hfirst.
Qed.

Lemma findIndex_lookup (id : val) (ps : list obj) (i : nat) (p : obj) :
  findIndex id ps = Some i → ps !! i = Some p → get p "id" = id.
Proof. intros (p' & Hp' & Hid & _)%findIndex_Some Hp. congruence. Qed.

(** X15.  [toggleStar] flips the star of the first player stored under the
    identifier and touches nothing else of the collection; on a player
    whose [starred] is a boolean, toggling twice gives the collection back
    as it was. *)
Theorem toggleStar_flips :
  ∀ (clock1 clock2 : nat → jsstring) (playerId : val) (st : State)
    (i : nat) (p : obj),
    findIndex playerId (players st) = Some i →
    players st !! i = Some p →
    let once := toggleStar clock1 playerId st in
    let twice := toggleStar clock2 playerId once in
    players once
    = <[i := <["starred" := VBool (negb (truthy (get p "starred")))]> p]> (players st)
    ∧ (∀ b, p !! "starred" = Some (VBool b) → players twice = players st).
Proof.
  intros clock1 clock2 playerId st i p Hf Hp. cbn zeta.
  assert (players (toggleStar clock1 playerId st)
          = <[i := <["starred" := VBool (negb (truthy (get p "starred")))]> p]>
              (players st)) as Honce.
  { unfold toggleStar. by rewrite Hf, Hp. }
  split; [done|]. intros b Hb.
  pose proof (lookup_lt_Some _ _ _ Hp) as Hi.
  unfold toggleStar at 1. rewrite Honce.
  rewrite (findIndex_insert playerId (players st) i _ Hf)
    by (get_simpl; by eapply findIndex_lookup).
  rewrite list_lookup_insert_eq by done. cbn.
  rewrite list_insert_insert_eq. apply list_insert_id. rewrite Hp. f_equal.
  get_simpl. rewrite insert_insert_eq.
  unfold get. rewrite Hb. cbn. rewrite negb_involutive. by rewrite insert_id.
Qed.

Lemma toggleStar_flips_witness :
  let st := Sample.with_players [SampleMore.starred_player] in
  let once := toggleStar Sample.clock0 (VStr Sample.uuid1) st in
  let twice := toggleStar Sample.clock0 (VStr Sample.uuid1) once in
  players once
  = <[0 := <["starred" := VBool (negb (truthy (get SampleMore.starred_player "starred")))]>
             SampleMore.starred_player]> (players st)
  ∧ (∀ b, SampleMore.starred_player !! "starred" = Some (VBool b) →
          players twice = players st).
Proof.
  apply (toggleStar_flips Sample.clock0 Sample.clock0 (VStr Sample.uuid1)
           (Sample.with_players [SampleMore.starred_player]) 0
           SampleMore.starred_player).
  - decide_by_computation.
  - reflexivity.
Defined.


Lemma undraft_erases (p : obj) (owner notes date : val) :
  delete "draftedDate"
    (<["draftNotes" := VStr []]> (<["fantasyOwner" := VStr []]>
       (<["drafted" := VBool false]>
          (<["draftedDate" := date]> (<["draftNotes" := notes]>
             (<["fantasyOwner" := owner]> (<["drafted" := VBool true]> p)))))))
  = delete "draftedDate"
      (<["draftNotes" := VStr []]> (<["fantasyOwner" := VStr []]>
         (<["drafted" := VBool false]> p))).
Proof.
  apply map_eq. intros k.
  destruct (decide (k = "draftedDate")) as [->|?]; [by get_simpl|].
  rewrite !lookup_delete_ne by done.
  destruct (decide (k = "draftNotes")) as [->|?]; [by get_simpl|].
  destruct (decide (k = "fantasyOwner")) as [->|?]; [by get_simpl|].
  destruct (decide (k = "drafted")) as [->|?]; [by get_simpl|].
  by rewrite !lookup_insert_ne by done.
Qed.

(** X17.  Undrafting erases a draft completely: drafting a player through
    the form and then undrafting it gives the same collection as
    undrafting it directly, so no property set by the draft survives. *)
Theorem draft_then_undraft :
  ∀ (clock1 clock2 : nat → jsstring) (playerId : val) (ownerData : OwnerData)
    (st : State),
    players (undraftPlayer clock2 playerId
               (handleDraftPlayer clock1 playerId ownerData st).2)
    = players (undraftPlayer clock2 playerId st).
Proof.
  intros clock1 clock2 playerId ownerData st. unfold handleDraftPlayer.
  destruct (ownerMissing ownerData) eqn:Hmiss.
  { cbn [snd]. unfold undraftPlayer. cbn [players alert].
    destruct (findIndex _ _) as [i|]; [|done]. by destruct (players st !! i). }
  unfold draftPlayer. destruct (findIndex playerId (players st)) as [i|] eqn:Hf; [|done].
  destruct (players st !! i) as [p|] eqn:Hp; [|done].
  unfold ownerMissing in Hmiss. destruct (od_owner ownerData) as [owner|]; [|done].
  cbn [snd]. unfold undraftPlayer at 1. cbn [players render saveToStorage set_players].
  pose proof (lookup_lt_Some _ _ _ Hp) as Hi.
  rewrite (findIndex_insert playerId (players st) i _ Hf)
    by (get_simpl; by eapply findIndex_lookup).
  rewrite list_lookup_insert_eq by done.
  cbn [players render saveToStorage set_players].
  rewrite list_insert_insert_eq. unfold undraftPlayer. rewrite Hf, Hp.
  cbn [players render saveToStorage set_players]. f_equal.
  unfold trim_or_empty. apply undraft_erases.
Qed.

(** X18.  [draftPlayer] called with a payload that has no owner throws
    after it has set [drafted] on the player it found: the player is left
    drafted with the owner it had, and nothing is persisted or rendered.
    The form handler never makes this call. *)
Theorem draftPlayer_without_owner :
  ∀ (clock : nat → jsstring) (playerId : val) (notes : option jsstring)
    (st : State) (i : nat),
    findIndex playerId (players st) = Some i →
    ∃ player st',
      players st !! i = Some player
      ∧ draftPlayer clock playerId (mkOwnerData None notes) st = (TypeError, st')
      ∧ players st' = <[i := <["drafted" := VBool true]> player]> (players st)
      ∧ localStorage st' = localStorage st
      ∧ renders st' = renders st
      ∧ ∀ st'', handleDraftPlayer clock playerId (mkOwnerData None notes) st
               ≠ (TypeError, st'').
Proof.
  intros clock playerId notes st i Hf. unfold draftPlayer. rewrite Hf.
  apply findIndex_Some in Hf as (player & Hp & _). rewrite Hp. cbn.
  eexists player, _. repeat split; done.
Qed.

Lemma draftPlayer_without_owner_witness :
  ∃ player st',
    players (Sample.with_players [Sample.remote_undrafted]) !! 0 = Some player
    ∧ draftPlayer Sample.clock0 (VStr Sample.uuid1) (mkOwnerData None None)
        (Sample.with_players [Sample.remote_undrafted]) = (TypeError, st')
    ∧ players st'
      = <[0 := <["drafted" := VBool true]> player]>
          (players (Sample.with_players [Sample.remote_undrafted]))
    ∧ localStorage st' = localStorage (Sample.with_players [Sample.remote_undrafted])
    ∧ renders st' = renders (Sample.with_players [Sample.remote_undrafted])
    ∧ ∀ st'', handleDraftPlayer Sample.clock0 (VStr Sample.uuid1)
               (mkOwnerData None None)
               (Sample.with_players [Sample.remote_undrafted])
             ≠ (TypeError, st'').
Proof.
  apply (draftPlayer_without_owner Sample.clock0 (VStr Sample.uuid1) None
           (Sample.with_players [Sample.remote_undrafted]) 0).
  decide_by_computation.
Defined.



(** ** Loading from the backend *)

Lemma mapM_convert_None (clock : nat → jsstring) (data : list obj) :
  Exists (λ row, toString (get row "id") = None) data →
  mapM (λ ir, convertRow (clock ir.1) ir.2) (imap pair data) = None.
Proof.
  intros Hex. destruct (mapM _ _) as [rs|] eqn:E; [|done]. exfalso.
  apply mapM_Some in E. apply Exists_exists in Hex as (row & Hrow & Hid).
  apply list_elem_of_lookup in Hrow as [j Hj].
  destruct (Forall2_lookup_l _ _ _ j (j, row) E) as (r & _ & Hc).
  { by rewrite list_lookup_imap, Hj. }
  cbn in Hc. unfold convertRow in Hc. by rewrite Hid in Hc.
Qed.

(** X20.  A bulk load changes the collection, the stored snapshot and the
    page only when the backend answered with a non-empty array in which
    every row has an identifier: without configuration, on an error, on
    [null] or an empty array, and when a single row has a [null] or
    missing [id] (the conversion throws before the merge starts, so the
    other rows are not merged either), the three stay as they were and the
    last report on the status channel is an error. *)
Theorem loadFromSupabase_all_or_nothing :
  ∀ (clock : nat → jsstring) (resp : outcome (option (list obj))) (st : State),
    supabase st = false
    ∨ failed resp
    ∨ resp = Resolved None
    ∨ resp = Resolved (Some [])
    ∨ (∃ data, resp = Resolved (Some data)
               ∧ Exists (λ row, toString (get row "id") = None) data) →
    let st' := loadFromSupabase clock resp st in
    players st' = players st
    ∧ localStorage st' = localStorage st
    ∧ renders st' = renders st
    ∧ reports_error st'.
Proof.
  intros clock resp st H. cbn zeta. unfold loadFromSupabase, reports_error.
  destruct (supabase st); cbn [negb].
  2:{ repeat split. eexists. apply last_snoc. }
  destruct H as [H|[H|[->|[->|(data & -> & Hex)]]]]; [done|..].
  - destruct resp; [done|..]; (repeat split; eexists; apply last_snoc).
  - repeat split. eexists. apply last_snoc.
  - repeat split. eexists. apply last_snoc.
  - destruct (0 <? length data); [|repeat split; eexists; apply last_snoc].
    rewrite mapM_convert_None by done.
    repeat split. eexists. apply last_snoc.
Qed.

Lemma loadFromSupabase_all_or_nothing_witness :
  let st := Sample.with_players [Sample.local_drafted] in
  let resp := Resolved (Some [SampleRows.row_drafted (js "x");
                              delete "id" SampleRows.row_undrafted]) in
  let st' := loadFromSupabase Sample.clock0 resp st in
  players st' = players st
  ∧ localStorage st' = localStorage st
  ∧ renders st' = renders st
  ∧ reports_error st'.
Proof.
  apply (loadFromSupabase_all_or_nothing Sample.clock0
           (Resolved (Some [SampleRows.row_drafted (js "x");
                            delete "id" SampleRows.row_undrafted]))
           (Sample.with_players [Sample.local_drafted])).
  do 4 right. eexists. split; [reflexivity|].
  apply Exists_cons_tl, Exists_cons_hd. decide_by_computation.
Defined.

Lemma or_else_defined (a b : val) :
  b ≠ VUndefined → b ≠ VNull → or_else a b ≠ VUndefined ∧ or_else a b ≠ VNull.
Proof.
  intros Hb1 Hb2. unfold or_else. destruct (truthy a) eqn:E; [|done].
  split; intros ->; done.
Qed.

(** The numbers a row may carry as its [id], as JavaScript prints them:
    digit by digit while every digit counts, with the fewest digits that
    give the Number back beyond that, and in exponent form from 1e21 on. *)
Example numbers_print :
  Number_toString <$>
    [0; -42; 1700000000000; 2 ^ 53; 2 ^ 64; 10 ^ 21; 2 ^ 70; 10 ^ 23]%Z
  = js <$> ["0"; "-42"; "1700000000000"; "9007199254740992";
            "18446744073709552000"; "1e+21"; "1.1805916207174113e+21";
            "1e+23"]%string.
Proof. decide_by_computation. Qed.

(** X21.  The conversion of a remote row fails exactly when the row's [id]
    is [null] or missing; otherwise the record has the nine local
    properties and no other, its [id] is a string (the row's own when that
    is a string, the printed number or boolean otherwise), and none of its
    values is [undefined] or [null]: a missing column becomes an empty
    string, [false] for [drafted], the clock for [addedDate]. *)
Theorem convertRow_total_shape :
  ∀ (now : jsstring) (row : obj),
    (convertRow now row = None ↔ get row "id" = VUndefined ∨ get row "id" = VNull)
    ∧ ∀ r, convertRow now row = Some r →
        (∀ k, is_Some (r !! k) ↔ k ∈ local_keys)
        ∧ (VStr <$> toString (get row "id")) = r !! "id"
        ∧ (∀ s, get row "id" = VStr s → r !! "id" = Some (VStr s))
        ∧ (∀ n, get row "id" = VNum n →
             r !! "id" = Some (VStr (Number_toString n)))
        ∧ (∀ b, get row "id" = VBool b →
             r !! "id" = Some (VStr (js (if b then "true" else "false"))))
        ∧ ∀ k v, r !! k = Some v → v ≠ VUndefined ∧ v ≠ VNull.
Proof.
  intros now row. split.
  - unfold convertRow. destruct (toString (get row "id")) eqn:E; cbn.
    + split; [done|]. intros [H|H]; by rewrite H in E.
    + split; [intros _|done].
      destruct (get row "id") as [| |[]|n|s]; try done; auto.
  - intros r Hr.
    assert ((VStr <$> toString (get row "id")) = r !! "id") as Hid.
    { unfold convertRow in Hr. destruct (toString _); [|done]. cbn in Hr.
      injection Hr as <-. by get_simpl. }
    split; [|split; [done|split; [|split; [|split]]]].
    + intros k. split.
      * intros [v Hv]. destruct (decide (k ∈ local_keys)) as [|Hk]; [done|].
        by rewrite (convertRow_keys now row r k Hr Hk) in Hv.
      * unfold convertRow in Hr. destruct (toString _); [|done]. cbn in Hr.
        injection Hr as <-. unfold local_keys. rewrite !elem_of_cons, elem_of_nil.
        intros Hk. decompose [or] Hk; try done; subst k; get_simpl; by eexists.
    + intros s Hs. by rewrite <- Hid, Hs.
    + intros n Hn. by rewrite <- Hid, Hn.
    + intros b Hb. rewrite <- Hid, Hb. by destruct b.
    + intros k v Hv. unfold convertRow in Hr. destruct (toString _); [|done].
      cbn in Hr. injection Hr as <-.
      repeat (apply lookup_insert_Some in Hv as [[_ <-]|[_ Hv]];
              [first [done | by apply or_else_defined]|]).
      by rewrite lookup_empty in Hv.
Qed.

(** ** The subscription callback: a payload *)

Lemma onPostgresChanges_throws_witness :
  onPostgresChanges Sample.clock0 SampleMore.payload
    (Sample.with_players [Sample.local_drafted])
  = (TypeError, Sample.with_players [Sample.local_drafted]).
Proof.
  apply onPostgresChanges_throws. decide_by_computation.
Defined.

(** ** The validity test, once more *)

(** X23.  The test [backupToSupabase] applies to an owner reference is the
    negation of the identifier test on every value, and whatever
    [autoSyncToSupabase] would replace (a missing identifier or a string of
    digits) is invalid for the identifier test as well, which also rejects
    strings the other lets through. *)
Theorem validity_tests_agree :
  (∀ v, isValidOwnerId v = negb (isInvalidId v))
  ∧ (∀ v, autoSyncNeedsId v = true → isInvalidId v = true)
  ∧ ∃ v, isInvalidId v = true ∧ autoSyncNeedsId v = false.
Proof.
  split; [|split].
  - intros v. destruct (isValidOwnerId_isInvalidId v) as [H| ->]; done.
  - intros v. destruct v as [| |b|n|s]; try done.
    + by destruct b.
    + unfold isInvalidId. cbn. by destruct (n =? 0)%Z.
    + unfold autoSyncNeedsId, isInvalidId. cbn [truthy is_string negb].
      destruct s as [|c s]; [done|].
      rewrite bool_decide_eq_false_2 by done. cbn [negb orb andb].
      unfold only_digits. rewrite bool_decide_eq_false_2 by done. cbn [negb andb].
      intros Hd.
      assert (includes_hyphen (c :: s) = false) as ->; [|by rewrite orb_true_r].
      apply not_true_is_false. intros Hh.
      apply includes_hyphen_spec, list_elem_of_In in Hh.
      rewrite forallb_forall in Hd. by apply Hd in Hh.
  - exists (VStr (js "mets")). split; reflexivity.
Qed.

(** ** Rankings: the other calls *)

Lemma inserted_rankings_send (st : State) (rq : request) :
  inserted_rankings (send rq st)
  = inserted_rankings st
    ++ match rq with InsertRankings rows => [rows] | _ => [] end.
Proof. unfold inserted_rankings. cbn [sent send]. rewrite omap_app. by destruct rq. Qed.

(** X24.  When the delete of the partition fails, the reorder stops there:
    no insert is requested, and the rankings and the collection stay as
    they were. *)
Theorem reorder_aborts_on_delete_failure :
  ∀ (toLowerCase : jsstring → jsstring) (clock : nat → jsstring)
    (newOrder : list val) (respDelete : outcome unit)
    (respInsert : outcome (option (list ranking))) (st : State),
    failed respDelete →
    let st' := (updateRankingsOrder toLowerCase clock newOrder respDelete
                  respInsert st).2 in
    inserted_rankings st' = inserted_rankings st
    ∧ rankings st' = rankings st
    ∧ players st' = players st.
Proof.
  intros toLowerCase clock newOrder respDelete respInsert st Hfail. cbn zeta.
  unfold updateRankingsOrder.
  destruct (negb (supabase st) || bool_decide (newOrder = [])); [done|].
  destruct (visibleRankings toLowerCase st); [|done].
  destruct (bool_decide _); [done|].
  destruct respDelete; [done|..]; cbn [snd];
    (split; [|done]); unfold inserted_rankings; cbn [sent setSyncStatus send];
    rewrite omap_app; cbn; by rewrite app_nil_r.
Qed.

Lemma reorder_aborts_on_delete_failure_witness :
  let st' := (updateRankingsOrder (λ s, s) Sample.clock0
                [VStr (js "r2"); VStr (js "r1")] Rejected (Resolved None)
                SampleRankings.two_ranked).2 in
  inserted_rankings st' = inserted_rankings SampleRankings.two_ranked
  ∧ rankings st' = rankings SampleRankings.two_ranked
  ∧ players st' = players SampleRankings.two_ranked.
Proof.
  apply (reorder_aborts_on_delete_failure (λ s, s) Sample.clock0
           [VStr (js "r2"); VStr (js "r1")] Rejected (Resolved None)
           SampleRankings.two_ranked).
  exact I.
Defined.

Lemma insert_by_rank_perm (r : ranking) (rs : list ranking) :
  insert_by_rank r rs ≡ₚ r :: rs.
Proof.
  induction rs as [|r' rs IH]; [done|]. cbn.
  destruct (_ <? _)%Z; [|done]. rewrite IH. apply perm_swap.
Qed.

Lemma sort_by_rank_perm (rs : list ranking) : sort_by_rank rs ≡ₚ rs.
Proof.
  induction rs as [|r rs IH]; [done|]. cbn.
  by rewrite insert_by_rank_perm, IH.
Qed.

Lemma rank_ascending_cons (r : ranking) (rs : list ranking) :
  rank_ascending (r :: rs) ↔
  (∀ y, rs !! 0 = Some y → (rk_rank_index r ≤ rk_rank_index y)%Z)
  ∧ rank_ascending rs.
Proof.
  unfold rank_ascending. split.
  - intros H. split.
    + intros y Hy. by apply (H 0 r y).
    + intros i x y Hx Hy. by apply (H (S i) x y).
  - intros [H0 H] [|i] x y Hx Hy.
    + cbn in Hx. injection Hx as <-. by apply H0.
    + by apply (H i x y).
Qed.

Lemma insert_by_rank_ascending (r : ranking) (rs : list ranking) :
  rank_ascending rs → rank_ascending (insert_by_rank r rs).
Proof.
  induction rs as [|r' rs IH]; intros Hrs.
  - cbn. apply rank_ascending_cons. split; [done|]. by intros [|?] ???.
  - cbn. destruct (rk_rank_index r' <? rk_rank_index r)%Z eqn:Hlt.
    + apply rank_ascending_cons in Hrs as [Hhd Hrs].
      apply rank_ascending_cons. split; [|by apply IH].
      intros y Hy. destruct rs as [|r'' rs]; cbn in Hy.
      * injection Hy as <-. apply Z.ltb_lt in Hlt. lia.
      * destruct (rk_rank_index r'' <? rk_rank_index r)%Z; injection Hy as <-.
        -- by apply Hhd.
        -- apply Z.ltb_lt in Hlt. lia.
    + apply rank_ascending_cons. split; [|done].
      intros y [= <-]. apply Z.ltb_ge in Hlt. lia.
Qed.

Lemma sort_by_rank_ascending (rs : list ranking) : rank_ascending (sort_by_rank rs).
Proof.
  induction rs as [|r rs IH]; [by intros [|?] ???|].
  cbn. by apply insert_by_rank_ascending.
Qed.

(** X25.  After a reorder whose delete and insert both resolved, the local
    rankings are the rows the backend returned for the insert, every one
    of them once, in ascending rank order, and a success is reported. *)
Theorem reorder_success_sorted :
  ∀ (toLowerCase : jsstring → jsstring) (clock : nat → jsstring)
    (newOrder : list val) (data : option (list ranking)) (st : State)
    (visible : list ranking),
    supabase st = true →
    visibleRankings toLowerCase st = Some visible →
    reorderedRankings visible newOrder ≠ [] →
    let st' := (updateRankingsOrder toLowerCase clock newOrder (Resolved tt)
                  (Resolved data) st).2 in
    rankings st' ≡ₚ default [] data
    ∧ rank_ascending (rankings st')
    ∧ ∃ message, last (statusLog st') = Some (message, StSuccess).
Proof.
  intros toLowerCase clock newOrder data st visible Hs Hv Hr. cbn zeta.
  assert (newOrder ≠ []) as Hne by (by intros ->).
  unfold updateRankingsOrder. rewrite Hs, Hv. cbn [negb orb].
  rewrite (bool_decide_eq_false_2 _ Hne), (bool_decide_eq_false_2 _ Hr). cbn.
  split; [apply sort_by_rank_perm|]. split; [apply sort_by_rank_ascending|].
  eexists. apply last_snoc.
Qed.

Lemma reorder_success_sorted_witness :
  let st' := (updateRankingsOrder (λ s, s) Sample.clock0
                [VStr (js "r2"); VStr (js "r1")] (Resolved tt)
                (Resolved (Some [SampleRankings.rank2; SampleRankings.rank1]))
                SampleRankings.two_ranked).2 in
  rankings st' ≡ₚ default [] (Some [SampleRankings.rank2; SampleRankings.rank1])
  ∧ rank_ascending (rankings st')
  ∧ ∃ message, last (statusLog st') = Some (message, StSuccess).
Proof.
  apply (reorder_success_sorted (λ s, s) Sample.clock0
           [VStr (js "r2"); VStr (js "r1")]
           (Some [SampleRankings.rank2; SampleRankings.rank1])
           SampleRankings.two_ranked [SampleRankings.rank1; SampleRankings.rank2]).
  - reflexivity.
  - reflexivity.
  - decide_by_computation.
Defined.

(** ** Initializing the rankings *)

Lemma normal_pair (x : completion * State) : x.1 = Normal → x = (Normal, x.2).
Proof. destruct x as [c st]. cbn. by intros ->. Qed.

Lemma rankingData_ranks_from (listType : val) (ps : list obj) (k : nat) :
  nr_rank_index <$>
    imap (λ index player,
            NewRanking (get player "id") listType (Z.of_nat (k + index) + 1) None) ps
  = Z.of_nat <$> seq (S k) (length ps).
Proof.
  revert k. induction ps as [|p ps IH]; intros k; [done|].
  cbn. f_equal; [lia|]. rewrite <- (IH (S k)). f_equal.
  apply imap_ext. intros i x _. cbn. by rewrite Nat.add_succ_r.
Qed.

(** What [initializeRankings] asks the backend to insert, when it gets as
    far as asking. *)
Lemma initializeRankings_inserted sortByName listType respInsert respLoad
    (st st' : State) :
  supabase st = true →
  initializeRankings sortByName listType respInsert respLoad st = (Normal, st') →
  ∃ chosen playersToRank,
    (if bool_decide (listType = VStr (js "hitter"))
     then filter_throw (λ p, if truthy (get p "position")
                             then negb <$> positionHasP p else Some true) (players st)
     else if bool_decide (listType = VStr (js "pitcher"))
     then filter_throw (λ p, if truthy (get p "position")
                             then positionHasP p else Some false) (players st)
     else Some (players st)) = Some chosen
    ∧ sortByName chosen = Some playersToRank
    ∧ inserted_rankings st'
      = inserted_rankings st
        ++ [imap (λ index player,
                    NewRanking (get player "id") listType (Z.of_nat index + 1) None)
              playersToRank].
Proof.
  intros Hs. unfold initializeRankings. rewrite Hs. cbn [negb].
  match goal with
  | |- context [?c ≫= sortByName] => destruct c as [chosen|] eqn:Hc; [|done]
  end.
  cbn [mbind option_bind]. destruct (sortByName chosen) as [ptr|] eqn:Hsort; [|done].
  intros Hrun. exists chosen, ptr. split; [done|]. split; [done|].
  destruct respInsert; injection Hrun as <-.
  - unfold loadRankings. cbn [supabase setSyncStatus send]. rewrite Hs. cbn [negb].
    destruct respLoad; unfold inserted_rankings;
      cbn [sent set_rankings send setSyncStatus];
      rewrite !omap_app; cbn; by rewrite app_nil_r.
  - unfold inserted_rankings. cbn [sent send setSyncStatus].
    by rewrite omap_app.
  - unfold inserted_rankings. cbn [sent send setSyncStatus].
    by rewrite omap_app.
Qed.

(** X26.  Whatever order the names sort into, the rows [initializeRankings]
    asks to insert are all of the list type asked for and are ranked
    1, 2, ..., one rank per row with no gap. *)
Theorem initializeRankings_dense :
  ∀ (sortByName : list obj → option (list obj)) (listType : val)
    (respInsert : outcome unit) (respLoad : outcome (option (list ranking)))
    (st st' : State),
    supabase st = true →
    initializeRankings sortByName listType respInsert respLoad st = (Normal, st') →
    ∃ rows, inserted_rankings st' = inserted_rankings st ++ [rows]
      ∧ nr_rank_index <$> rows = Z.of_nat <$> seq 1 (length rows)
      ∧ Forall (λ row, nr_list_type row = listType) rows.
Proof.
  intros sortByName listType respInsert respLoad st st' Hs Hrun.
  destruct (initializeRankings_inserted _ _ _ _ _ _ Hs Hrun)
    as (chosen & ptr & _ & _ & Hins).
  eexists. split; [done|]. split.
  - rewrite length_imap. exact (rankingData_ranks_from listType ptr 0).
  - apply Forall_forall. intros row (i & Hi)%list_elem_of_lookup.
    rewrite list_lookup_imap in Hi. by apply fmap_Some in Hi as (p & _ & ->).
Qed.

Lemma initializeRankings_dense_witness :
  ∃ rows,
    inserted_rankings
      (initializeRankings (λ ps, Some ps) SampleRankings.overall Rejected Rejected
         (Sample.with_players [SampleMore.hitter; SampleMore.pitcher])).2
    = inserted_rankings (Sample.with_players [SampleMore.hitter; SampleMore.pitcher])
      ++ [rows]
    ∧ nr_rank_index <$> rows = Z.of_nat <$> seq 1 (length rows)
    ∧ Forall (λ row, nr_list_type row = SampleRankings.overall) rows.
Proof.
  apply (initializeRankings_dense (λ ps, Some ps) SampleRankings.overall
           Rejected Rejected
           (Sample.with_players [SampleMore.hitter; SampleMore.pitcher])).
  - reflexivity.
  - apply normal_pair. vm_compute. reflexivity.
Defined.

Lemma filter_throw_split {A} (f g : A → option bool) (l a b : list A) :
  (∀ x bx, f x = Some bx → g x = Some (negb bx)) →
  filter_throw f l = Some a → filter_throw g l = Some b →
  a ++ b ≡ₚ l.
Proof.
  intros Hfg. revert a b. induction l as [|x l IH]; intros a b Ha Hb.
  - cbn in Ha, Hb. by injection Ha as <-; injection Hb as <-.
  - cbn [filter_throw] in Ha, Hb.
    destruct (f x) as [bx|] eqn:Hfx; [|done]. rewrite (Hfg x bx Hfx) in Hb.
    cbn in Ha, Hb.
    destruct (filter_throw f l) as [a'|]; [|done].
    destruct (filter_throw g l) as [b'|]; [|done].
    cbn in Ha, Hb. injection Ha as <-. injection Hb as <-.
    specialize (IH a' b' eq_refl eq_refl).
    destruct bx; cbn.
    + by rewrite IH.
    + rewrite <- Permutation_middle. by rewrite IH.
Qed.

Lemma fmap_imap_ids (listType : val) (ps : list obj) :
  nr_player_id <$>
    imap (λ index player,
            NewRanking (get player "id") listType (Z.of_nat index + 1) None) ps
  = ids ps.
Proof.
  apply list_eq. intros i. unfold ids.
  rewrite !list_lookup_fmap, list_lookup_imap. by destruct (ps !! i).
Qed.

Lemma includes_letter (c : jschar) (s : jsstring) :
  includes [c] s = true ↔ c ∈ s.
Proof.
  induction s as [|d s IH]; cbn.
  - split; [done|]. by intros ?%elem_of_nil.
  - rewrite orb_true_iff, IH, andb_true_r, N.eqb_eq, elem_of_cons. tauto.
Qed.

Lemma positionHasP_plays (p : obj) (b : bool) :
  positionHasP p = Some b → plays_P p = b.
Proof.
  unfold positionHasP, plays_P. destruct (get p "position") as [| | | |s]; try done.
  intros [= <-]. apply eq_true_iff_eq.
  by rewrite bool_decide_eq_true, (includes_letter 80%N s).
Qed.

Lemma plays_P_falsy (p : obj) : truthy (get p "position") = false → plays_P p = false.
Proof.
  unfold plays_P. destruct (get p "position") as [| | | |s]; try done. cbn.
  intros ->%negb_false_iff%bool_decide_eq_true. done.
Qed.

Lemma filter_throw_as_filter {A} (f : A → option bool) (g : A → bool)
    (l l' : list A) :
  (∀ x b, f x = Some b → g x = b) →
  filter_throw f l = Some l' → l' = filter (λ x, g x = true) l.
Proof.
  intros Hfg. revert l'. induction l as [|x l IH]; intros l' Hl;
    cbn [filter_throw] in Hl.
  - by injection Hl as <-.
  - destruct (f x) as [b|] eqn:Hb; [|done]. cbn in Hl.
    destruct (filter_throw f l) as [rest|]; [|done]. cbn in Hl.
    injection Hl as <-. rewrite (IH rest eq_refl). specialize (Hfg x b Hb).
    destruct b.
    + by rewrite filter_cons_True.
    + rewrite filter_cons_False; [done|]. by rewrite Hfg.
Qed.

(** X27.  With a name order that only permutes, the pitcher list that
    [initializeRankings] builds ranks the players whose position is a
    string with a "P" in it, each once, and the hitter list ranks the
    others, each once, also those with no position; so the two lists rank
    every player of the collection exactly once between them. *)
Theorem hitters_and_pitchers_partition :
  ∀ (sortByName : list obj → option (list obj))
    (respInsert1 respInsert2 : outcome unit)
    (respLoad1 respLoad2 : outcome (option (list ranking)))
    (st stH stP : State),
    supabase st = true →
    (∀ l l', sortByName l = Some l' → l' ≡ₚ l) →
    initializeRankings sortByName (VStr (js "hitter")) respInsert1 respLoad1 st
    = (Normal, stH) →
    initializeRankings sortByName (VStr (js "pitcher")) respInsert2 respLoad2 st
    = (Normal, stP) →
    ∃ hitters pitchers,
      inserted_rankings stH = inserted_rankings st ++ [hitters]
      ∧ inserted_rankings stP = inserted_rankings st ++ [pitchers]
      ∧ nr_player_id <$> pitchers
        ≡ₚ ids (filter (λ p, plays_P p = true) (players st))
      ∧ nr_player_id <$> hitters
        ≡ₚ ids (filter (λ p, negb (plays_P p) = true) (players st))
      ∧ (nr_player_id <$> hitters) ++ (nr_player_id <$> pitchers)
        ≡ₚ ids (players st).
Proof.
  intros sortByName respInsert1 respInsert2 respLoad1 respLoad2 st stH stP
    Hs Hperm HH HP.
  destruct (initializeRankings_inserted _ _ _ _ _ _ Hs HH)
    as (chosenH & sortedH & HcH & HsH & HinsH).
  destruct (initializeRankings_inserted _ _ _ _ _ _ Hs HP)
    as (chosenP & sortedP & HcP & HsP & HinsP).
  rewrite bool_decide_eq_true_2 in HcH by done.
  rewrite bool_decide_eq_false_2, bool_decide_eq_true_2 in HcP by done.
  eexists _, _. split; [done|]. split; [done|].
  rewrite !fmap_imap_ids. split; [|split].
  - assert (chosenP = filter (λ p, plays_P p = true) (players st)) as <-.
    { refine (filter_throw_as_filter _ plays_P _ _ _ HcP).
      intros p b. cbn beta. destruct (truthy (get p "position")) eqn:Ht.
      - apply positionHasP_plays.
      - intros [= <-]. by apply plays_P_falsy. }
    unfold ids. apply fmap_Permutation. by apply Hperm.
  - assert (chosenH = filter (λ p, negb (plays_P p) = true) (players st)) as <-.
    { refine (filter_throw_as_filter _ (λ p, negb (plays_P p)) _ _ _ HcH).
      intros p b. cbn beta. destruct (truthy (get p "position")) eqn:Ht.
      - destruct (positionHasP p) as [hasP|] eqn:Hp; [|done]. cbn. intros [= <-].
        by rewrite (positionHasP_plays p hasP Hp).
      - intros [= <-]. by rewrite plays_P_falsy. }
    unfold ids. apply fmap_Permutation. by apply Hperm.
  - unfold ids. rewrite <- fmap_app. apply fmap_Permutation.
    rewrite (Hperm _ _ HsH), (Hperm _ _ HsP).
    refine (filter_throw_split _ _ _ _ _ _ HcH HcP).
    intros p b. cbn beta. destruct (truthy (get p "position")).
    + destruct (positionHasP p) as [hasP|]; [|done]. cbn. intros [= <-].
      by rewrite negb_involutive.
    + by intros [= <-].
Qed.

Lemma hitters_and_pitchers_partition_witness :
  let st := Sample.with_players [SampleMore.hitter; SampleMore.pitcher] in
  ∃ hitters pitchers,
    inserted_rankings
      (initializeRankings (λ ps, Some ps) (VStr (js "hitter")) Rejected Rejected st).2
    = inserted_rankings st ++ [hitters]
    ∧ inserted_rankings
        (initializeRankings (λ ps, Some ps) (VStr (js "pitcher")) Rejected Rejected st).2
      = inserted_rankings st ++ [pitchers]
    ∧ nr_player_id <$> pitchers
      ≡ₚ ids (filter (λ p, plays_P p = true) (players st))
    ∧ nr_player_id <$> hitters
      ≡ₚ ids (filter (λ p, negb (plays_P p) = true) (players st))
    ∧ (nr_player_id <$> hitters) ++ (nr_player_id <$> pitchers)
      ≡ₚ ids (players st).
Proof.
  apply (hitters_and_pitchers_partition (λ ps, Some ps) Rejected Rejected
           Rejected Rejected
           (Sample.with_players [SampleMore.hitter; SampleMore.pitcher])).
  - reflexivity.
  - by intros l l' [= <-].
  - apply normal_pair. vm_compute. reflexivity.
  - apply normal_pair. vm_compute. reflexivity.
Defined.

(** The two lists of the sample: the outfielder is ranked with the
    hitters, the starting pitcher with the pitchers. *)
Example hitters_and_pitchers_sample :
  let st := Sample.with_players [SampleMore.hitter; SampleMore.pitcher] in
  (λ t, (λ rows : list new_ranking, nr_player_id <$> rows) <$>
          inserted_rankings
            (initializeRankings (λ ps, Some ps) (VStr (js t)) Rejected Rejected st).2)
    <$> ["hitter"; "pitcher"]%string
  = [[[VStr Sample.uuid1]]; [[VStr Sample.uuid2]]].
Proof. cbv zeta. decide_by_computation. Qed.

(** ** The owners of the collection *)

Lemma js_ltb_asym (a b : jsstring) : js_ltb a b = true → js_ltb b a = false.
Proof.
  revert b. induction a as [|c a IH]; intros [|d b]; cbn; try done.
  intros [Hlt|[Heq Hrec]%andb_true_iff]%orb_true_iff.
  - apply N.ltb_lt in Hlt. apply orb_false_iff. split.
    + apply N.ltb_ge. lia.
    + apply andb_false_iff. left. apply N.eqb_neq. lia.
  - apply N.eqb_eq in Heq. subst d. rewrite N.ltb_irrefl, N.eqb_refl. cbn.
    by apply IH.
Qed.

Lemma insert_sorted_perm (x : val) (l : list val) : insert_sorted x l ≡ₚ x :: l.
Proof.
  induction l as [|y l IH]; [done|]. cbn.
  destruct (js_ltb _ _); [|done]. rewrite IH. apply perm_swap.
Qed.

Lemma default_sort_perm (l : list val) : default_sort l ≡ₚ l.
Proof.
  induction l as [|x l IH]; [done|]. cbn. by rewrite insert_sorted_perm, IH.
Qed.

Lemma ascending_cons (x : val) (l : list val) :
  ascending (x :: l) ↔
  (∀ y, l !! 0 = Some y → js_ltb (sortKey y) (sortKey x) = false) ∧ ascending l.
Proof.
  unfold ascending. split.
  - intros H. split.
    + intros y Hy. by apply (H 0 x y).
    + intros i a b Ha Hb. by apply (H (S i) a b).
  - intros [H0 H] [|i] a b Ha Hb.
    + cbn in Ha. injection Ha as <-. by apply H0.
    + by apply (H i a b).
Qed.

Lemma insert_sorted_ascending (x : val) (l : list val) :
  ascending l → ascending (insert_sorted x l).
Proof.
  induction l as [|y l IH]; intros Hl.
  - cbn. apply ascending_cons. split; [done|]. by intros [|?] ???.
  - cbn. destruct (js_ltb (sortKey y) (sortKey x)) eqn:Hlt.
    + apply ascending_cons in Hl as [Hhd Hl].
      apply ascending_cons. split; [|by apply IH].
      intros z Hz. destruct l as [|y' l]; cbn in Hz.
      * injection Hz as <-. by apply js_ltb_asym.
      * destruct (js_ltb (sortKey y') (sortKey x)); injection Hz as <-.
        -- by apply Hhd.
        -- by apply js_ltb_asym.
    + apply ascending_cons. split; [|done]. by intros z [= <-].
Qed.

Lemma default_sort_ascending (l : list val) : ascending (default_sort l).
Proof.
  induction l as [|x l IH]; [by intros [|?] ???|].
  cbn. by apply insert_sorted_ascending.
Qed.

Lemma ownerSet_fold (ps : list obj) (acc : list val) :
  let owners :=
    foldl (λ owners p,
      let owner := get p "fantasyOwner" in
      if truthy owner
      then if bool_decide (owner ∈ owners) then owners else owners ++ [owner]
      else owners) acc ps in
  NoDup acc →
  NoDup owners
  ∧ ∀ v, v ∈ owners ↔
         v ∈ acc ∨ (truthy v = true ∧ ∃ p, p ∈ ps ∧ get p "fantasyOwner" = v).
Proof.
  cbn zeta. revert acc. induction ps as [|p ps IH]; intros acc Hacc.
  - cbn. split; [done|]. intros v. split; [by left|].
    intros [?|(_ & p & Hp & _)]; [done|]. by apply elem_of_nil in Hp.
  - cbn [foldl]. destruct (truthy (get p "fantasyOwner")) eqn:Ht.
    + case_bool_decide as Hin.
      * destruct (IH acc Hacc) as [Hnd Hmem]. split; [done|].
        intros v. rewrite Hmem. split.
        -- intros [?|(Hv & q & Hq & Hqv)]; [by left|].
           right. split; [done|]. exists q. split; [by right|done].
        -- intros [?|(Hv & q & Hq & Hqv)]; [by left|].
           apply elem_of_cons in Hq as [->|Hq].
           ++ left. by rewrite <- Hqv.
           ++ right. eauto.
      * destruct (IH (acc ++ [get p "fantasyOwner"])) as [Hnd Hmem].
        { apply NoDup_app. split; [done|]. split; [|apply NoDup_singleton].
          intros v Hv Hv'. apply list_elem_of_singleton in Hv'. by subst v. }
        split; [done|]. intros v. rewrite Hmem, elem_of_app, list_elem_of_singleton.
        split.
        -- intros [[?| ->]|(Hv & q & Hq & Hqv)]; [by left|..].
           ++ right. split; [done|]. exists p. split; [by left|done].
           ++ right. split; [done|]. exists q. split; [by right|done].
        -- intros [?|(Hv & q & Hq & Hqv)]; [by left; left|].
           apply elem_of_cons in Hq as [->|Hq].
           ++ left. by right.
           ++ right. eauto.
    + destruct (IH acc Hacc) as [Hnd Hmem]. split; [done|].
      intros v. rewrite Hmem. split.
      * intros [?|(Hv & q & Hq & Hqv)]; [by left|].
        right. split; [done|]. exists q. split; [by right|done].
      * intros [?|(Hv & q & Hq & Hqv)]; [by left|].
        apply elem_of_cons in Hq as [->|Hq].
        -- rewrite Hqv in Ht. congruence.
        -- right. eauto.
Qed.

(** X28.  [getUniqueOwners] lists exactly the owners of the collection:
    a value is listed when it is the truthy [fantasyOwner] of some player,
    and only then; no value is listed twice, and the list is in the
    ascending order of [sort()], so players without an owner contribute
    nothing. *)
Theorem getUniqueOwners_exact :
  ∀ (st : State),
    NoDup (getUniqueOwners st)
    ∧ ascending (getUniqueOwners st)
    ∧ ∀ v, v ∈ getUniqueOwners st ↔
           truthy v = true ∧ ∃ p, p ∈ players st ∧ get p "fantasyOwner" = v.
Proof.
  intros st. unfold getUniqueOwners.
  destruct (ownerSet_fold (players st) [] (NoDup_nil_2)) as [Hnd Hmem].
  fold (ownerSet (players st)) in Hnd, Hmem.
  split; [by rewrite default_sort_perm|]. split; [apply default_sort_ascending|].
  intros v. rewrite default_sort_perm, Hmem. split; [|by right].
  intros [Hnil|?]; [by apply elem_of_nil in Hnil|done].
Qed.

(** ** The visible rankings *)

Lemma filter_throw_sublist {A} (f : A → option bool) (l l' : list A) :
  filter_throw f l = Some l' → l' `sublist_of` l.
Proof.
  intros H. rewrite (filter_throw_spec f l l' H). apply sublist_filter.
Qed.

(** X29.  [getFilteredRankings] only ever drops entries: what it returns
    is the rankings with some entries left out, in the same order; with no
    search term and the hide-drafted switch off it returns them all, and
    with the switch on every entry it returns belongs to a player of the
    collection that is not drafted, so an entry whose player is unknown is
    hidden too. *)
Theorem getFilteredRankings_drops_only :
  ∀ (toLowerCase : jsstring → jsstring) (st : State) (visible : list ranking),
    getFilteredRankings toLowerCase st = Some visible →
    visible `sublist_of` rankings st
    ∧ (rankingsSearchTerm st = [] → hideDraftedInRankings st = false →
       visible = rankings st)
    ∧ (hideDraftedInRankings st = true →
       ∀ r, r ∈ visible →
         ∃ p, findPlayer (rk_player_id r) (players st) = Some p
              ∧ truthy (get p "drafted") = false).
Proof.
  intros toLowerCase st visible. unfold getFilteredRankings.
  destruct (bool_decide (rankingsSearchTerm st = [])) eqn:Hterm.
  - cbn [mbind option_bind]. destruct (hideDraftedInRankings st); intros [= <-].
    + split; [apply sublist_filter|]. split; [done|].
      intros _ r [Hr _]%list_elem_of_filter.
      destruct (findPlayer _ _) as [p|]; [|done].
      exists p. split; [done|]. by apply negb_true_iff.
    + by repeat split.
  - apply bool_decide_eq_false in Hterm.
    destruct (filter_throw _ (rankings st)) as [searched|] eqn:E; [|done].
    cbn [mbind option_bind]. apply filter_throw_sublist in E.
    destruct (hideDraftedInRankings st); intros [= <-].
    + split; [by etrans; [apply sublist_filter|]|]. split; [done|].
      intros _ r [Hr _]%list_elem_of_filter.
      destruct (findPlayer _ _) as [p|]; [|done].
      exists p. split; [done|]. by apply negb_true_iff.
    + by repeat split.
Qed.

Lemma getFilteredRankings_drops_only_witness :
  [SampleRankings.rank1; SampleRankings.rank2]
    `sublist_of` rankings SampleRankings.two_ranked
  ∧ (rankingsSearchTerm SampleRankings.two_ranked = [] →
     hideDraftedInRankings SampleRankings.two_ranked = false →
     [SampleRankings.rank1; SampleRankings.rank2] = rankings SampleRankings.two_ranked)
  ∧ (hideDraftedInRankings SampleRankings.two_ranked = true →
     ∀ r, r ∈ [SampleRankings.rank1; SampleRankings.rank2] →
       ∃ p, findPlayer (rk_player_id r) (players SampleRankings.two_ranked) = Some p
            ∧ truthy (get p "drafted") = false).
Proof.
  apply (getFilteredRankings_drops_only (λ s, s) SampleRankings.two_ranked
           [SampleRankings.rank1; SampleRankings.rank2]).
  reflexivity.
Defined.

